(** * A shallow embedding of the cooperative scheduler (Scheduler.js) and of
      the expiration-time arithmetic (ReactFiberExpirationTime.js).

    JavaScript numbers that the scheduler only adds and compares (times in
    milliseconds, expiration values, priority levels) are integers [Z].
    The division and the [| 0] truncation of the expiration-time module are
    modelled on rationals [Q], so that [ms / UNIT_SIZE] keeps its fractional
    part until it is truncated.

    Callback nodes are JavaScript objects that are mutated in place and
    shared between the queue and the handles returned to the application.
    They live in a store ([heap]), a list indexed by object identity; the
    [next] and [previous] fields hold identities. *)

From Stdlib Require Import ZArith QArith Qround Lia Lqa.
From stdpp Require Import base option list sorting sets.

Set Warnings "-clear-no-such-hyp".
Local Open Scope Z_scope.

(** ** Constants of Scheduler.js *)

Definition ImmediatePriority : Z := 1.
Definition UserBlockingPriority : Z := 2.
Definition NormalPriority : Z := 3.
Definition LowPriority : Z := 4.
Definition IdlePriority : Z := 5.

Definition maxSigned31BitInt : Z := 1073741823.

Definition IMMEDIATE_PRIORITY_TIMEOUT : Z := -1.
Definition USER_BLOCKING_PRIORITY : Z := 250.
Definition NORMAL_PRIORITY_TIMEOUT : Z := 5000.
Definition LOW_PRIORITY_TIMEOUT : Z := 10000.
Definition IDLE_PRIORITY : Z := maxSigned31BitInt.

(** ** Application code

    The functions handed to the scheduler (callbacks, event handlers) are
    application code.  A [prog] is one such function body: a tree of calls
    to the exported scheduler functions, each followed by what the function
    does with the answer, ending in a return or a throw. *)

Inductive prog : Type :=
| Return
    (* return a value that is not a function *)
| ReturnFn (continuation : prog)
    (* return a function *)
| Throw
| ScheduleCallback (callback : prog) (timeout : option Z) (k : nat -> prog)
    (* unstable_scheduleCallback(callback, options); [timeout] is
       [Some t] when options is an object with a numeric timeout t *)
| CancelCallback (callbackNode : nat) (k : prog)
| RunWithPriority (priorityLevel : Z) (eventHandler : prog) (k : prog)
| Next (eventHandler : prog) (k : prog)
| CallWrapped (parentPriorityLevel : Z) (callback : prog) (k : prog)
    (* a call of the closure that unstable_wrapCallback(callback) returned
       when the ambient priority level was parentPriorityLevel *)
| GetCurrentPriorityLevel (k : Z -> prog)
| ShouldYield (k : bool -> prog)
| PauseExecution (k : prog)
| ContinueExecution (k : prog)
| GetFirstCallbackNode (k : option nat -> prog)
| Now (k : Z -> prog)
| TryCatch (body : prog) (k : prog).
    (* try { body } catch (e) {} ; k *)

(** ** Callback nodes and scheduler state *)

Record CallbackNode : Type := mkNode {
  callback : prog;
  priorityLevel : Z;
  expirationTime : Z;
  next : option nat;
  previous : option nat
}.

(** What the scheduler does that the outside can see, most recent first.
    [EvInvoke] and [EvCancelled] are bookkeeping of the model: the first
    records that flushFirstCallback called the callback of a node, the
    second that unstable_cancelCallback unlinked a node. *)
Inductive Event : Type :=
| EvInvoke (node : nat)
| EvCancelled (node : nat)
| EvShouldYieldToHost (answer : bool)
| EvRequestHostCallback (absoluteTimeout : Z)
| EvCancelHostCallback.

Record State : Type := mkState {
  heap : list CallbackNode;
  firstCallbackNode : option nat;
  currentDidTimeout : bool;
  isSchedulerPaused : bool;
  currentPriorityLevel : Z;
  currentEventStartTime : Z;
  currentExpirationTime : Z;
  isExecutingCallback : bool;
  isHostCallbackScheduled : bool;
  clockReads : nat;
  yieldReads : nat;
  trace : list Event
}.

(** The values of the module-level variables when the module is loaded. *)
Definition initialState : State :=
  mkState [] None false false NormalPriority (-1) (-1) false false 0 0 [].

Definition set_heap (h : list CallbackNode) (s : State) : State :=
  mkState h (firstCallbackNode s) (currentDidTimeout s) (isSchedulerPaused s)
    (currentPriorityLevel s) (currentEventStartTime s) (currentExpirationTime s)
    (isExecutingCallback s) (isHostCallbackScheduled s) (clockReads s)
    (yieldReads s) (trace s).

Definition set_firstCallbackNode (f : option nat) (s : State) : State :=
  mkState (heap s) f (currentDidTimeout s) (isSchedulerPaused s)
    (currentPriorityLevel s) (currentEventStartTime s) (currentExpirationTime s)
    (isExecutingCallback s) (isHostCallbackScheduled s) (clockReads s)
    (yieldReads s) (trace s).

Definition set_currentDidTimeout (b : bool) (s : State) : State :=
  mkState (heap s) (firstCallbackNode s) b (isSchedulerPaused s)
    (currentPriorityLevel s) (currentEventStartTime s) (currentExpirationTime s)
    (isExecutingCallback s) (isHostCallbackScheduled s) (clockReads s)
    (yieldReads s) (trace s).

Definition set_isSchedulerPaused (b : bool) (s : State) : State :=
  mkState (heap s) (firstCallbackNode s) (currentDidTimeout s) b
    (currentPriorityLevel s) (currentEventStartTime s) (currentExpirationTime s)
    (isExecutingCallback s) (isHostCallbackScheduled s) (clockReads s)
    (yieldReads s) (trace s).

Definition set_currentPriorityLevel (p : Z) (s : State) : State :=
  mkState (heap s) (firstCallbackNode s) (currentDidTimeout s) (isSchedulerPaused s)
    p (currentEventStartTime s) (currentExpirationTime s)
    (isExecutingCallback s) (isHostCallbackScheduled s) (clockReads s)
    (yieldReads s) (trace s).

Definition set_currentEventStartTime (t : Z) (s : State) : State :=
  mkState (heap s) (firstCallbackNode s) (currentDidTimeout s) (isSchedulerPaused s)
    (currentPriorityLevel s) t (currentExpirationTime s)
    (isExecutingCallback s) (isHostCallbackScheduled s) (clockReads s)
    (yieldReads s) (trace s).

Definition set_currentExpirationTime (t : Z) (s : State) : State :=
  mkState (heap s) (firstCallbackNode s) (currentDidTimeout s) (isSchedulerPaused s)
    (currentPriorityLevel s) (currentEventStartTime s) t
    (isExecutingCallback s) (isHostCallbackScheduled s) (clockReads s)
    (yieldReads s) (trace s).

Definition set_isExecutingCallback (b : bool) (s : State) : State :=
  mkState (heap s) (firstCallbackNode s) (currentDidTimeout s) (isSchedulerPaused s)
    (currentPriorityLevel s) (currentEventStartTime s) (currentExpirationTime s)
    b (isHostCallbackScheduled s) (clockReads s)
    (yieldReads s) (trace s).

Definition set_isHostCallbackScheduled (b : bool) (s : State) : State :=
  mkState (heap s) (firstCallbackNode s) (currentDidTimeout s) (isSchedulerPaused s)
    (currentPriorityLevel s) (currentEventStartTime s) (currentExpirationTime s)
    (isExecutingCallback s) b (clockReads s)
    (yieldReads s) (trace s).

Definition set_clockReads (n : nat) (s : State) : State :=
  mkState (heap s) (firstCallbackNode s) (currentDidTimeout s) (isSchedulerPaused s)
    (currentPriorityLevel s) (currentEventStartTime s) (currentExpirationTime s)
    (isExecutingCallback s) (isHostCallbackScheduled s) n
    (yieldReads s) (trace s).

Definition set_yieldReads (n : nat) (s : State) : State :=
  mkState (heap s) (firstCallbackNode s) (currentDidTimeout s) (isSchedulerPaused s)
    (currentPriorityLevel s) (currentEventStartTime s) (currentExpirationTime s)
    (isExecutingCallback s) (isHostCallbackScheduled s) (clockReads s)
    n (trace s).

Definition emit (e : Event) (s : State) : State :=
  mkState (heap s) (firstCallbackNode s) (currentDidTimeout s) (isSchedulerPaused s)
    (currentPriorityLevel s) (currentEventStartTime s) (currentExpirationTime s)
    (isExecutingCallback s) (isHostCallbackScheduled s) (clockReads s)
    (yieldReads s) (e :: trace s).

(** Field assignments on a node of the store. *)
Definition set_next (v : option nat) (nd : CallbackNode) : CallbackNode :=
  mkNode (callback nd) (priorityLevel nd) (expirationTime nd) v (previous nd).

Definition set_previous (v : option nat) (nd : CallbackNode) : CallbackNode :=
  mkNode (callback nd) (priorityLevel nd) (expirationTime nd) (next nd) v.

(** How a call ends: it returns a value, of which only whether it is a
    function matters to the scheduler, or it throws. *)
Inductive completion : Type :=
| Normal (returned : option prog)
| Thrown.

(** The result of running code in the model.  [None] means that the model
    gives no result: the recursion budget was too small, or the store is not
    a well-formed circular list (there the JavaScript code would raise a
    TypeError on a null link or walk the list forever).  Every theorem below
    is about well-formed states, where the second case is proved absent. *)
Definition Outcome : Type := option (State * completion).

(** ** The store: list walks and link updates *)

(** The search loops of unstable_scheduleCallback and flushFirstCallback:
    [do { if (stop(node.expirationTime)) { found = node; break; }
          node = node.next; } while (node !== firstCallbackNode)].
    The answer is [Some (Some n)] when the loop breaks at n, [Some None]
    when it comes back to the first node.  [budget] bounds the number of
    iterations; the number of nodes in the store is enough for a circular
    list. *)
Fixpoint findNode (stop : Z -> bool) (h : list CallbackNode) (first : nat)
    (budget : nat) (node : nat) : option (option nat) :=
  match budget with
  | O => None
  | S budget' =>
      match h !! node with
      | None => None
      | Some nd =>
          if stop (expirationTime nd) then Some (Some node)
          else match next nd with
               | None => None
               | Some node' =>
                   if Nat.eqb node' first then Some None
                   else findNode stop h first budget' node'
               end
      end
  end.

(** [var previous = next.previous;
     previous.next = next.previous = newNode;
     newNode.next = next; newNode.previous = previous;] *)
Definition linkBefore (newNode nextNode : nat) (h : list CallbackNode)
    : option (list CallbackNode) :=
  match h !! nextNode with
  | None => None
  | Some nd =>
      match previous nd with
      | None => None
      | Some previousNode =>
          match h !! previousNode with
          | None => None
          | Some _ =>
              let h1 := alter (set_previous (Some newNode)) nextNode h in
              let h2 := alter (set_next (Some newNode)) previousNode h1 in
              let h3 := alter (set_next (Some nextNode)) newNode h2 in
              Some (alter (set_previous (Some previousNode)) newNode h3)
          end
      end
  end.

(** [node.next = node.previous = null]. *)
Definition clearLinks (node : nat) (h : list CallbackNode) : list CallbackNode :=
  alter (fun nd => set_previous None (set_next None nd)) node h.

(** [newNode.next = newNode.previous = newNode]. *)
Definition selfLink (node : nat) (h : list CallbackNode) : list CallbackNode :=
  alter (fun nd => set_previous (Some node) (set_next (Some node) nd)) node h.

(** The expiration of the first node, when there is one. *)
Definition firstExpirationTime (s : State) : option Z :=
  match firstCallbackNode s with
  | None => None
  | Some f => expirationTime <$> heap s !! f
  end.

Definition firstPriorityLevel (s : State) : option Z :=
  match firstCallbackNode s with
  | None => None
  | Some f => priorityLevel <$> heap s !! f
  end.

(** ** The scheduler *)

Section Scheduler.

(** The flag imported from SchedulerFeatureFlags, and the host: the clock
    behind getCurrentTime and the answers of shouldYieldToHost, each
    indexed by how many times it has been asked before. *)
Variable enableSchedulerDebugging : bool.
Variable clock : nat -> Z.
Variable hostYield : nat -> bool.

Definition getCurrentTime (s : State) : Z * State :=
  (clock (clockReads s), set_clockReads (S (clockReads s)) s).

Definition shouldYieldToHost (s : State) : bool * State :=
  let b := hostYield (yieldReads s) in
  (b, emit (EvShouldYieldToHost b) (set_yieldReads (S (yieldReads s)) s)).

Definition requestHostCallback (absoluteTimeout : Z) (s : State) : State :=
  emit (EvRequestHostCallback absoluteTimeout) s.

Definition cancelHostCallback (s : State) : State :=
  emit EvCancelHostCallback s.

Definition ensureHostCallbackIsScheduled (s : State) : option State :=
  if isExecutingCallback s then Some s
  else
    match firstExpirationTime s with
    | None => None
    | Some expirationTime =>
        let s1 :=
          if negb (isHostCallbackScheduled s)
          then set_isHostCallbackScheduled true s
          else cancelHostCallback s in
        Some (requestHostCallback expirationTime s1)
    end.

(** Insertion of a fresh node into the list, shared by
    unstable_scheduleCallback ([stop] is [>], [notifyWhenAlone] true) and
    by the continuation branch of flushFirstCallback ([stop] is [>=], and
    no host callback is requested when the list was empty). *)
Definition insertNode (stop : Z -> bool) (notifyWhenAlone : bool)
    (newNode : nat) (s : State) : option State :=
  match firstCallbackNode s with
  | None =>
      let s1 := set_firstCallbackNode (Some newNode)
                  (set_heap (selfLink newNode (heap s)) s) in
      if notifyWhenAlone then ensureHostCallbackIsScheduled s1 else Some s1
  | Some first =>
      match findNode stop (heap s) first (length (heap s)) first with
      | None => None
      | Some found =>
          let nextNode := default first found in
          match
            (match found with
             | Some n =>
                 if Nat.eqb n first
                 then ensureHostCallbackIsScheduled
                        (set_firstCallbackNode (Some newNode) s)
                 else Some s
             | None => Some s
             end)
          with
          | None => None
          | Some s1 =>
              match linkBefore newNode nextNode (heap s1) with
              | None => None
              | Some h => Some (set_heap h s1)
              end
          end
      end
  end.

Definition unstable_scheduleCallback (cb : prog) (deprecated_options : option Z)
    (s : State) : option (State * nat) :=
  let '(startTime, s0) :=
    if negb (currentEventStartTime s =? -1)
    then (currentEventStartTime s, s)
    else getCurrentTime s in
  let expirationTime :=
    match deprecated_options with
    | Some timeout => startTime + timeout
    | None =>
        if currentPriorityLevel s0 =? ImmediatePriority
        then startTime + IMMEDIATE_PRIORITY_TIMEOUT
        else if currentPriorityLevel s0 =? UserBlockingPriority
        then startTime + USER_BLOCKING_PRIORITY
        else if currentPriorityLevel s0 =? IdlePriority
        then startTime + IDLE_PRIORITY
        else if currentPriorityLevel s0 =? LowPriority
        then startTime + LOW_PRIORITY_TIMEOUT
        else startTime + NORMAL_PRIORITY_TIMEOUT
    end in
  let newNode := length (heap s0) in
  let s1 :=
    set_heap (heap s0 ++ [mkNode cb (currentPriorityLevel s0) expirationTime
                            None None]) s0 in
  match insertNode (fun e => e >? expirationTime) true newNode s1 with
  | None => None
  | Some s2 => Some (s2, newNode)
  end.

Definition unstable_pauseExecution (s : State) : State :=
  set_isSchedulerPaused true s.

Definition unstable_continueExecution (s : State) : option State :=
  let s1 := set_isSchedulerPaused false s in
  match firstCallbackNode s1 with
  | Some _ => ensureHostCallbackIsScheduled s1
  | None => Some s1
  end.

Definition unstable_getFirstCallbackNode (s : State) : option nat :=
  firstCallbackNode s.

Definition unstable_cancelCallback (callbackNode : nat) (s : State)
    : option State :=
  match heap s !! callbackNode with
  | None => None
  | Some nd =>
      match next nd with
      | None => Some s
      | Some nextNode =>
          let unlinked :=
            if Nat.eqb nextNode callbackNode
            then Some (set_firstCallbackNode None s)
            else
              let s1 :=
                if bool_decide (firstCallbackNode s = Some callbackNode)
                then set_firstCallbackNode (Some nextNode) s
                else s in
              match previous nd with
              | None => None
              | Some previousNode =>
                  match heap s1 !! previousNode, heap s1 !! nextNode with
                  | Some _, Some _ =>
                      Some (set_heap
                              (alter (set_previous (Some previousNode)) nextNode
                                 (alter (set_next (Some nextNode)) previousNode
                                    (heap s1))) s1)
                  | _, _ => None
                  end
              end in
          match unlinked with
          | None => None
          | Some s2 =>
              Some (emit (EvCancelled callbackNode)
                      (set_heap (clearLinks callbackNode (heap s2)) s2))
          end
      end
  end.

Definition unstable_getCurrentPriorityLevel (s : State) : Z :=
  currentPriorityLevel s.

Definition unstable_shouldYield (s : State) : bool * State :=
  if negb (currentDidTimeout s) then
    if match firstExpirationTime s with
       | Some e => e <? currentExpirationTime s
       | None => false
       end
    then (true, s)
    else shouldYieldToHost s
  else (false, s).

(** *** Running callbacks

    [run] is how a function of the application is called. *)
Section Flush.

Variable run : prog -> State -> Outcome.

(** Lines 87-103 of flushFirstCallback: the first node is taken out of
    the list and its links are cleared. *)
Definition unlinkFirst (s : State) : option (nat * CallbackNode * State) :=
  match firstCallbackNode s with
  | None => None
  | Some flushedNode =>
      match heap s !! flushedNode with
      | None => None
      | Some nd =>
          match next nd with
          | None => None
          | Some nextNode =>
              let unlinked :=
                if Nat.eqb flushedNode nextNode
                then Some (set_firstCallbackNode None s)
                else
                  match previous nd with
                  | None => None
                  | Some lastCallbackNode =>
                      match heap s !! lastCallbackNode, heap s !! nextNode with
                      | Some _, Some _ =>
                          Some (set_heap
                                  (alter (set_previous (Some lastCallbackNode))
                                     nextNode
                                     (alter (set_next (Some nextNode))
                                        lastCallbackNode (heap s)))
                                  (set_firstCallbackNode (Some nextNode) s))
                      | _, _ => None
                      end
                  end in
              match unlinked with
              | None => None
              | Some s1 =>
                  Some (flushedNode, nd,
                        set_heap (clearLinks flushedNode (heap s1)) s1)
              end
          end
      end
  end.

(** Lines 124-168 of flushFirstCallback: the continuation gets a new
    node with the priority level and expiration of the node that was
    just run, inserted before the nodes of equal expiration. *)
Definition insertContinuation (continuationCallback : prog)
    (priorityLevel expirationTime : Z) (s : State) : option State :=
  let continuationNode := length (heap s) in
  let s1 :=
    set_heap (heap s ++ [mkNode continuationCallback priorityLevel
                           expirationTime None None]) s in
  insertNode (fun e => e >=? expirationTime) false continuationNode s1.

Definition flushFirstCallback (s : State) : Outcome :=
  match unlinkFirst s with
  | None => None
  | Some (flushedNode, nd, s1) =>
      let previousPriorityLevel := currentPriorityLevel s1 in
      let previousExpirationTime := currentExpirationTime s1 in
      let s2 :=
        set_currentExpirationTime (expirationTime nd)
          (set_currentPriorityLevel (priorityLevel nd) s1) in
      match run (callback nd) (emit (EvInvoke flushedNode) s2) with
      | None => None
      | Some (s3, c) =>
          (* finally *)
          let s4 :=
            set_currentExpirationTime previousExpirationTime
              (set_currentPriorityLevel previousPriorityLevel s3) in
          match c with
          | Thrown => Some (s4, Thrown)
          | Normal None => Some (s4, Normal None)
          | Normal (Some continuationCallback) =>
              match insertContinuation continuationCallback
                      (priorityLevel nd) (expirationTime nd) s4 with
              | None => None
              | Some s5 => Some (s5, Normal None)
              end
          end
      end
  end.

Definition firstIsImmediate (s : State) : bool :=
  match firstPriorityLevel s with
  | Some p => p =? ImmediatePriority
  | None => false
  end.

(** [do { flushFirstCallback(); } while (firstCallbackNode !== null &&
    firstCallbackNode.priorityLevel === ImmediatePriority)]. *)
Fixpoint flushImmediateLoop (budget : nat) (s : State) : Outcome :=
  match budget with
  | O => None
  | S budget' =>
      match flushFirstCallback s with
      | None => None
      | Some (s1, Thrown) => Some (s1, Thrown)
      | Some (s1, Normal _) =>
          if firstIsImmediate s1 then flushImmediateLoop budget' s1
          else Some (s1, Normal None)
      end
  end.

(** The finally blocks of flushImmediateWork and flushWork start alike:
    [isExecutingCallback = false], then a host callback is requested
    again when work remains. *)
Definition afterFlush (s : State) : option State :=
  match firstCallbackNode s with
  | Some _ => ensureHostCallbackIsScheduled s
  | None => Some (set_isHostCallbackScheduled false s)
  end.

Definition flushImmediateWork (budget : nat) (s : State) : Outcome :=
  if (currentEventStartTime s =? -1) && firstIsImmediate s then
    match flushImmediateLoop budget (set_isExecutingCallback true s) with
    | None => None
    | Some (s1, c) =>
        match afterFlush (set_isExecutingCallback false s1) with
        | None => None
        | Some s2 => Some (s2, c)
        end
    end
  else Some (s, Normal None).

(** A try block [body] whose finally block restores the ambient
    priority level and event start time and then flushes the immediate
    work: the shape shared by unstable_runWithPriority, unstable_next
    and the closure of unstable_wrapCallback.  An exception of the
    finally block replaces the completion of the try block. *)
Definition withEvent (budget : nat) (priorityLevel : Z)
    (body : State -> Outcome) (s : State) : Outcome :=
  let previousPriorityLevel := currentPriorityLevel s in
  let previousEventStartTime := currentEventStartTime s in
  let '(now, s0) := getCurrentTime s in
  let s1 :=
    set_currentEventStartTime now (set_currentPriorityLevel priorityLevel s0) in
  match body s1 with
  | None => None
  | Some (s2, c) =>
      let s3 :=
        set_currentEventStartTime previousEventStartTime
          (set_currentPriorityLevel previousPriorityLevel s2) in
      match flushImmediateWork budget s3 with
      | None => None
      | Some (s4, Thrown) => Some (s4, Thrown)
      | Some (s4, Normal _) => Some (s4, c)
      end
  end.

Definition unstable_runWithPriority (budget : nat) (priorityLevel : Z)
    (eventHandler : State -> Outcome) (s : State) : Outcome :=
  let priorityLevel :=
    if (priorityLevel =? ImmediatePriority)
       || (priorityLevel =? UserBlockingPriority)
       || (priorityLevel =? NormalPriority)
       || (priorityLevel =? LowPriority)
       || (priorityLevel =? IdlePriority)
    then priorityLevel
    else NormalPriority in
  withEvent budget priorityLevel eventHandler s.

Definition unstable_next (budget : nat) (eventHandler : State -> Outcome)
    (s : State) : Outcome :=
  let priorityLevel :=
    if (currentPriorityLevel s =? ImmediatePriority)
       || (currentPriorityLevel s =? UserBlockingPriority)
       || (currentPriorityLevel s =? NormalPriority)
    then NormalPriority
    else currentPriorityLevel s in
  withEvent budget priorityLevel eventHandler s.

(** unstable_wrapCallback captures the ambient priority level; the
    closure it returns is the pair of that level and the callback. *)
Definition unstable_wrapCallback (cb : prog) (s : State) : Z * prog :=
  (currentPriorityLevel s, cb).

Definition callWrapped (budget : nat) (parentPriorityLevel : Z)
    (cb : State -> Outcome) (s : State) : Outcome :=
  withEvent budget parentPriorityLevel cb s.

End Flush.

(** One function body [p], run in state [s]: [self] runs the rest of the
    body and the bodies of the functions it calls directly, [run] and
    [budget] are for the callbacks that flushImmediateWork takes from the
    queue. *)
Definition execBody (run : prog -> State -> Outcome) (budget : nat)
    (self : prog -> State -> Outcome) (p : prog) (s : State) : Outcome :=
  (* a call followed by the rest of the body: an exception of the call
     ends the body *)
  let andThen (o : Outcome) (k : prog) : Outcome :=
    match o with
    | None => None
    | Some (s1, Thrown) => Some (s1, Thrown)
    | Some (s1, Normal _) => self k s1
    end in
  match p with
  | Return => Some (s, Normal None)
  | ReturnFn c => Some (s, Normal (Some c))
  | Throw => Some (s, Thrown)
  | ScheduleCallback cb options k =>
      match unstable_scheduleCallback cb options s with
      | None => None
      | Some (s1, newNode) => self (k newNode) s1
      end
  | CancelCallback callbackNode k =>
      match unstable_cancelCallback callbackNode s with
      | None => None
      | Some s1 => self k s1
      end
  | RunWithPriority priorityLevel eventHandler k =>
      andThen
        (unstable_runWithPriority run budget priorityLevel
           (self eventHandler) s) k
  | Next eventHandler k =>
      andThen (unstable_next run budget (self eventHandler) s) k
  | CallWrapped parentPriorityLevel cb k =>
      andThen (callWrapped run budget parentPriorityLevel (self cb) s) k
  | GetCurrentPriorityLevel k =>
      self (k (unstable_getCurrentPriorityLevel s)) s
  | ShouldYield k =>
      let '(b, s1) := unstable_shouldYield s in self (k b) s1
  | PauseExecution k => self k (unstable_pauseExecution s)
  | ContinueExecution k =>
      match unstable_continueExecution s with
      | None => None
      | Some s1 => self k s1
      end
  | GetFirstCallbackNode k =>
      self (k (unstable_getFirstCallbackNode s)) s
  | Now k => let '(t, s1) := getCurrentTime s in self (k t) s1
  | TryCatch body k =>
      match self body s with
      | None => None
      | Some (s1, _) => self k s1
      end
  end.

(** [exec n p s] runs the function body [p] in state [s].  The budget [n]
    bounds how deeply callbacks taken from the queue nest and how many
    times each flushing loop iterates. *)
Fixpoint exec (n : nat) : prog -> State -> Outcome :=
  match n with
  | O => fun _ _ => None
  | S n' =>
      fix go (p : prog) (s : State) {struct p} : Outcome :=
        execBody (exec n') n' go p s
  end.

(** *** flushWork, called by the host *)

Definition paused (s : State) : bool :=
  enableSchedulerDebugging && isSchedulerPaused s.

(** [do { flushFirstCallback(); } while (firstCallbackNode !== null &&
    firstCallbackNode.expirationTime <= currentTime && !paused)]. *)
Fixpoint flushExpired (n : nat) (budget : nat) (currentTime : Z) (s : State)
    : Outcome :=
  match budget with
  | O => None
  | S budget' =>
      match flushFirstCallback (exec n) s with
      | None => None
      | Some (s1, Thrown) => Some (s1, Thrown)
      | Some (s1, Normal _) =>
          if match firstExpirationTime s1 with
             | Some e => (e <=? currentTime) && negb (paused s1)
             | None => false
             end
          then flushExpired n budget' currentTime s1
          else Some (s1, Normal None)
      end
  end.

(** The while loop of the didTimeout branch. *)
Fixpoint flushTimedOut (n : nat) (budget : nat) (s : State) : Outcome :=
  match budget with
  | O => None
  | S budget' =>
      match firstCallbackNode s with
      | None => Some (s, Normal None)
      | Some _ =>
          if paused s then Some (s, Normal None)
          else
            let '(currentTime, s1) := getCurrentTime s in
            match firstExpirationTime s1 with
            | None => None
            | Some e =>
                if e <=? currentTime then
                  match flushExpired n budget' currentTime s1 with
                  | None => None
                  | Some (s2, Thrown) => Some (s2, Thrown)
                  | Some (s2, Normal _) => flushTimedOut n budget' s2
                  end
                else Some (s1, Normal None)
            end
      end
  end.

(** [do { if (paused) break; flushFirstCallback(); }
    while (firstCallbackNode !== null && !shouldYieldToHost())]. *)
Fixpoint flushUntilYield (n : nat) (budget : nat) (s : State) : Outcome :=
  match budget with
  | O => None
  | S budget' =>
      if paused s then Some (s, Normal None)
      else
        match flushFirstCallback (exec n) s with
        | None => None
        | Some (s1, Thrown) => Some (s1, Thrown)
        | Some (s1, Normal _) =>
            match firstCallbackNode s1 with
            | None => Some (s1, Normal None)
            | Some _ =>
                let '(yield, s2) := shouldYieldToHost s1 in
                if negb yield then flushUntilYield n budget' s2
                else Some (s2, Normal None)
            end
        end
  end.

(** The try block of flushWork. *)
Definition flushWorkTry (n : nat) (didTimeout : bool) (s : State) : Outcome :=
  if didTimeout then flushTimedOut n n s
  else
    match firstCallbackNode s with
    | Some _ => flushUntilYield n n s
    | None => Some (s, Normal None)
    end.

(** The finally block of flushWork; [c] is how the try block ended. *)
Definition flushWorkFinally (n : nat) (previousDidTimeout : bool)
    (c : completion) (s : State) : Outcome :=
  let s1 :=
    set_currentDidTimeout previousDidTimeout (set_isExecutingCallback false s) in
  match afterFlush s1 with
  | None => None
  | Some s2 =>
      match flushImmediateWork (exec n) n s2 with
      | None => None
      | Some (s3, Thrown) => Some (s3, Thrown)
      | Some (s3, Normal _) => Some (s3, c)
      end
  end.

Definition flushWork (n : nat) (didTimeout : bool) (s : State) : Outcome :=
  if paused s then Some (s, Normal None)
  else
    let previousDidTimeout := currentDidTimeout s in
    match
      flushWorkTry n didTimeout
        (set_currentDidTimeout didTimeout (set_isExecutingCallback true s))
    with
    | None => None
    | Some (s1, c) => flushWorkFinally n previousDidTimeout c s1
    end.

End Scheduler.

(** ** The expiration-time arithmetic (ReactFiberExpirationTime.js) *)

Module ExpirationTime.

Local Open Scope Q_scope.

Definition MAX_SIGNED_31_BIT_INT : Z := 1073741823.

Definition NoWork : Z := 0.
Definition Never : Z := 1.
Definition Sync : Z := MAX_SIGNED_31_BIT_INT.

Definition UNIT_SIZE : Q := inject_Z 10.
Definition MAGIC_NUMBER_OFFSET : Q := inject_Z (MAX_SIGNED_31_BIT_INT - 1).

(** [x | 0]: the fractional part is dropped (rounding toward zero) and
    the integer is wrapped into the signed 32-bit range. *)
Definition truncate (x : Q) : Z :=
  if Qle_bool 0 x then Qfloor x else Qceiling x.

Definition toInt32 (z : Z) : Z :=
  ((z + 2147483648) mod 4294967296 - 2147483648)%Z.

Definition bitorZero (x : Q) : Q := inject_Z (toInt32 (truncate x)).

Definition msToExpirationTime (ms : Q) : Q :=
  MAGIC_NUMBER_OFFSET - bitorZero (ms / UNIT_SIZE).

Definition expirationTimeToMs (expirationTime : Q) : Q :=
  (MAGIC_NUMBER_OFFSET - expirationTime) * UNIT_SIZE.

Definition ceiling (num precision : Q) : Q :=
  (bitorZero (num / precision) + 1) * precision.

Definition computeExpirationBucket (currentTime expirationInMs bucketSizeMs : Q)
    : Q :=
  MAGIC_NUMBER_OFFSET -
  ceiling (MAGIC_NUMBER_OFFSET - currentTime + expirationInMs / UNIT_SIZE)
          (bucketSizeMs / UNIT_SIZE).

Definition LOW_PRIORITY_EXPIRATION : Q := inject_Z 5000.
Definition LOW_PRIORITY_BATCH_SIZE : Q := inject_Z 250.

Definition computeAsyncExpiration (currentTime : Q) : Q :=
  computeExpirationBucket currentTime LOW_PRIORITY_EXPIRATION
    LOW_PRIORITY_BATCH_SIZE.

(** [__DEV__ ? 500 : 150]. *)
Definition HIGH_PRIORITY_EXPIRATION (DEV : bool) : Q :=
  if DEV then inject_Z 500 else inject_Z 150.
Definition HIGH_PRIORITY_BATCH_SIZE : Q := inject_Z 100.

Definition computeInteractiveExpiration (DEV : bool) (currentTime : Q) : Q :=
  computeExpirationBucket currentTime (HIGH_PRIORITY_EXPIRATION DEV)
    HIGH_PRIORITY_BATCH_SIZE.

End ExpirationTime.

(** ** The queue invariant *)

(** The link fields of the node [i] of the store; [None] also when there is
    no such node. *)
Definition nextOf (h : list CallbackNode) (i : nat) : option nat :=
  h !! i ≫= next.

Definition previousOf (h : list CallbackNode) (i : nat) : option nat :=
  h !! i ≫= previous.

(** [a]'s next field is [b] and [b]'s previous field is [a]. *)
Definition linked (h : list CallbackNode) (a b : nat) : Prop :=
  nextOf h a = Some b ∧ previousOf h b = Some a.

(** The fields of a node that are never assigned after its creation. *)
Definition dataOf (h : list CallbackNode) (i : nat) : option (prog * Z * Z) :=
  (λ nd, (callback nd, priorityLevel nd, expirationTime nd)) <$> h !! i.

(** The links along [x :: l], and around the circular list [l]. *)
Fixpoint edges (x : nat) (l : list nat) : list (nat * nat) :=
  match l with
  | [] => []
  | y :: l' => (x, y) :: edges y l'
  end.

Definition cyc (l : list nat) : list (nat * nat) :=
  match l with
  | [] => []
  | a :: l' => edges a (l' ++ [a])
  end.

Definition expirationOf (h : list CallbackNode) (i : nat) : Z :=
  default 0 (expirationTime <$> h !! i).

Definition priorityOf (h : list CallbackNode) (i : nat) : Z :=
  default 0 (priorityLevel <$> h !! i).

(** [QueueOn h first l]: in the store [h], the nodes of the callback list
    are, from [first] on, those of [l]; the list is circular and doubly
    linked, sorted by expiration, and a node outside it has null links. *)
Record QueueOn (h : list CallbackNode) (first : option nat) (l : list nat)
    : Prop := mkQueue {
  q_first : first = head l;
  q_nodup : NoDup l;
  q_ring : ∀ x y, (x, y) ∈ cyc l → linked h x y;
  q_free : ∀ i, i ∉ l → nextOf h i = None ∧ previousOf h i = None;
  q_sorted : StronglySorted Z.le (expirationOf h <$> l)
}.

Definition Queue (s : State) (l : list nat) : Prop :=
  QueueOn (heap s) (firstCallbackNode s) l.

(** ** Definitions used to state the properties *)

Arguments exec : simpl never.

(** ** What the operations leave alone *)

Definition hostEvent (e : Event) : Prop :=
  match e with
  | EvRequestHostCallback _ | EvCancelHostCallback => True
  | _ => False
  end.

(** [s'] differs from [s] at most in the store, in firstCallbackNode, in
    isHostCallbackScheduled, by readings of the clock and by new events
    that satisfy [P]. *)
Definition stateUpdate (P : Event → Prop) (s s' : State) : Prop :=
  currentDidTimeout s' = currentDidTimeout s ∧
  isSchedulerPaused s' = isSchedulerPaused s ∧
  currentPriorityLevel s' = currentPriorityLevel s ∧
  currentEventStartTime s' = currentEventStartTime s ∧
  currentExpirationTime s' = currentExpirationTime s ∧
  isExecutingCallback s' = isExecutingCallback s ∧
  (clockReads s ≤ clockReads s')%nat ∧
  yieldReads s' = yieldReads s ∧
  ∃ tr, trace s' = tr ++ trace s ∧ Forall P tr.

Definition queueUpdate : State → State → Prop := stateUpdate hostEvent.

(** The start time and the expiration that unstable_scheduleCallback
    computes in state [s]. *)
Definition scheduledStart (clock : nat → Z) (s : State) : Z :=
  if negb (currentEventStartTime s =? -1) then currentEventStartTime s
  else clock (clockReads s).

Definition scheduledExpiration (clock : nat → Z)
  (deprecated_options : option Z) (s : State) : Z :=
  match deprecated_options with
  | Some timeout => scheduledStart clock s + timeout
  | None =>
      if currentPriorityLevel s =? ImmediatePriority
      then scheduledStart clock s + IMMEDIATE_PRIORITY_TIMEOUT
      else if currentPriorityLevel s =? UserBlockingPriority
      then scheduledStart clock s + USER_BLOCKING_PRIORITY
      else if currentPriorityLevel s =? IdlePriority
      then scheduledStart clock s + IDLE_PRIORITY
      else if currentPriorityLevel s =? LowPriority
      then scheduledStart clock s + LOW_PRIORITY_TIMEOUT
      else scheduledStart clock s + NORMAL_PRIORITY_TIMEOUT
  end.

(** [f] relates by [R] the state it starts in to the state it ends in. *)
Definition preserves (R : State → State → Prop) (f : State → Outcome) : Prop :=
  ∀ s s' c, f s = Some (s', c) → R s s'.

(** [P] holds of the function bodies that [p] runs directly: the
    handlers it calls and the rest of its own body. *)
Definition children (P : prog → Prop) (p : prog) : Prop :=
  match p with
  | Return | ReturnFn _ | Throw => True
  | ScheduleCallback _ _ k => ∀ i, P (k i)
  | CancelCallback _ k => P k
  | RunWithPriority _ h k => P h ∧ P k
  | Next h k => P h ∧ P k
  | CallWrapped _ cb k => P cb ∧ P k
  | GetCurrentPriorityLevel k => ∀ v, P (k v)
  | ShouldYield k => ∀ b, P (k b)
  | PauseExecution k => P k
  | ContinueExecution k => P k
  | GetFirstCallbackNode k => ∀ v, P (k v)
  | Now k => ∀ t, P (k t)
  | TryCatch body k => P body ∧ P k
  end.

Definition notYield (e : Event) : Prop :=
  match e with EvShouldYieldToHost _ => False | _ => True end.

(** [Framed quiet s s']: the ambient priority level, event start time,
    expiration and timeout flag of [s'] are those of [s], and the trace of
    [s'] extends that of [s]; with [quiet], if the timeout flag is set the
    host was not asked whether to yield. *)
Definition Framed (quiet : bool) (s s' : State) : Prop :=
  currentPriorityLevel s' = currentPriorityLevel s ∧
  currentEventStartTime s' = currentEventStartTime s ∧
  currentExpirationTime s' = currentExpirationTime s ∧
  currentDidTimeout s' = currentDidTimeout s ∧
  ∃ tr, trace s' = tr ++ trace s ∧
        (quiet = true → currentDidTimeout s = true → Forall notYield tr).

(** [Evolves s s']: if [s] has a well-formed queue then so has [s']; nodes
    keep their callback, priority level and expiration; a node enters the
    queue only when it is created; a node leaves it only by being called or
    cancelled; and only nodes of the queue, or created since, are called. *)
Definition Evolves (s s' : State) : Prop :=
  ∀ l, Queue s l → ∃ l' tr,
    Queue s' l' ∧ trace s' = tr ++ trace s ∧
    (length (heap s) ≤ length (heap s'))%nat ∧
    (∀ i, (i < length (heap s))%nat → dataOf (heap s') i = dataOf (heap s) i) ∧
    (∀ i, i ∈ l' → i ∈ l ∨ (length (heap s) ≤ i)%nat) ∧
    (∀ i, i ∈ l → i ∈ l' ∨ EvInvoke i ∈ tr ∨ EvCancelled i ∈ tr) ∧
    (∀ i, EvInvoke i ∈ tr → i ∈ l ∨ (length (heap s) ≤ i)%nat).

(** The state in which flushFirstCallback calls the callback of the node
    [nd] it has taken out of the queue of [s1], and the state it restores
    when the callback is done. *)
Definition enterCallback (b : nat) (nd : CallbackNode) (s1 : State) : State :=
  emit (EvInvoke b)
    (set_currentExpirationTime (expirationTime nd)
       (set_currentPriorityLevel (priorityLevel nd) s1)).

Definition leaveCallback (s1 s3 : State) : State :=
  set_currentExpirationTime (currentExpirationTime s1)
    (set_currentPriorityLevel (currentPriorityLevel s1) s3).

(** The state in which unstable_runWithPriority, unstable_next and the
    closure of unstable_wrapCallback call their handler from the state [s]:
    the clock has been read, the event start time is that reading and the
    priority level is [P]; and the state they restore when the handler is
    done in [s2], before the immediate work is flushed. *)
Definition enterEvent (clock : nat → Z) (P : Z) (s : State) : State :=
  set_currentEventStartTime (clock (clockReads s))
    (set_currentPriorityLevel P (set_clockReads (S (clockReads s)) s)).

Definition leaveEvent (s s2 : State) : State :=
  set_currentEventStartTime (currentEventStartTime s)
    (set_currentPriorityLevel (currentPriorityLevel s) s2).

(** How a handler's completion [c] in the state [s2] and the flush of the
    immediate work of the finally block make the completion of the whole
    call. *)
Definition finishEvent (run : prog → State → Outcome) (budget : nat)
    (s s2 : State) (c : completion) : Outcome :=
  match flushImmediateWork run budget (leaveEvent s s2) with
  | None => None
  | Some (s4, Thrown) => Some (s4, Thrown)
  | Some (s4, Normal _) => Some (s4, c)
  end.

(** [answerLevel P p] is the function body [p] in which every call of
    unstable_getCurrentPriorityLevel made by [p] itself (not by the
    handlers and callbacks it passes on) is replaced by the constant [P]. *)
Fixpoint answerLevel (P : Z) (p : prog) : prog :=
  match p with
  | Return => Return
  | ReturnFn c => ReturnFn c
  | Throw => Throw
  | ScheduleCallback cb options k =>
      ScheduleCallback cb options (λ i, answerLevel P (k i))
  | CancelCallback callbackNode k => CancelCallback callbackNode (answerLevel P k)
  | RunWithPriority pl eventHandler k =>
      RunWithPriority pl eventHandler (answerLevel P k)
  | Next eventHandler k => Next eventHandler (answerLevel P k)
  | CallWrapped pl cb k => CallWrapped pl cb (answerLevel P k)
  | GetCurrentPriorityLevel k => answerLevel P (k P)
  | ShouldYield k => ShouldYield (λ b, answerLevel P (k b))
  | PauseExecution k => PauseExecution (answerLevel P k)
  | ContinueExecution k => ContinueExecution (answerLevel P k)
  | GetFirstCallbackNode k => GetFirstCallbackNode (λ v, answerLevel P (k v))
  | Now k => Now (λ t, answerLevel P (k t))
  | TryCatch body k => TryCatch (answerLevel P body) (answerLevel P k)
  end.

(** The conditions of [Queue], in a form that can be decided on a given
    state. *)
Definition QueueChecks (s : State) (l : list nat) : Prop :=
  firstCallbackNode s = head l ∧ NoDup l ∧
  Forall (λ e, nextOf (heap s) e.1 = Some e.2 ∧ previousOf (heap s) e.2 = Some e.1)
         (cyc l) ∧
  Forall (λ i, i ∈ l ∨ (nextOf (heap s) i = None ∧ previousOf (heap s) i = None))
         (seq 0 (length (heap s))) ∧
  StronglySorted Z.le (expirationOf (heap s) <$> l).

Global Instance QueueChecks_dec s l : Decision (QueueChecks s l).
Proof. unfold QueueChecks. apply _. Defined.

(** ** Sequences of calls from outside

    The scheduler is entered from outside by the host, which calls
    flushWork, and by the application, which runs a function body.  An
    exception that reaches the outside is left to the caller; the state of
    the scheduler stays as the exception left it. *)
Inductive op : Type :=
| HostFlushWork (didTimeout : bool)
| AppCall (p : prog).

Section Ops.
Variable enableSchedulerDebugging : bool.
Variable clock : nat → Z.
Variable hostYield : nat → bool.

Definition runOp (n : nat) (o : op) (s : State) : Outcome :=
match o with
| HostFlushWork didTimeout =>
    flushWork enableSchedulerDebugging clock hostYield n didTimeout s
| AppCall p => exec clock hostYield n p s
end.

Fixpoint runOps (n : nat) (ops : list op) (s : State) : option State :=
match ops with
| [] => Some s
| o :: ops' =>
    match runOp n o s with
    | None => None
    | Some (s1, _) => runOps n ops' s1
    end
end.

End Ops.

(** The clock and the application code of a run in which an item of
    Immediate priority is queued behind an item of Normal priority. *)
Definition clockLateImmediate (k : nat) : Z :=
  match k with 0%nat => 0 | 1%nat => 1 | _ => 5500 end.

Definition lateImmediate : prog :=
  ScheduleCallback Return None (λ _,
  ScheduleCallback Return None (λ _,
  RunWithPriority ImmediatePriority
    (ScheduleCallback Return None (λ _, Return)) Return)).



(** ** The expiration-time arithmetic of ReactFiberExpirationTime.old.js

    The later version of the module: the offset is two below Sync, there
    are more reserved values, and a priority level is inferred back from an
    expiration time. *)

Module ExpirationTimeOld.

Local Open Scope Q_scope.

Definition MAX_SIGNED_31_BIT_INT : Z := 1073741823.

Definition NoWork : Z := 0.
Definition Never : Z := 1.
Definition Idle : Z := 2.
Definition ContinuousHydration : Z := 3.
Definition Sync : Z := MAX_SIGNED_31_BIT_INT.
Definition Batched : Z := (Sync - 1)%Z.

Definition UNIT_SIZE : Q := inject_Z 10.
Definition MAGIC_NUMBER_OFFSET : Q := inject_Z (Batched - 1).

Definition msToExpirationTime (ms : Q) : Q :=
  MAGIC_NUMBER_OFFSET - ExpirationTime.bitorZero (ms / UNIT_SIZE).

Definition expirationTimeToMs (expirationTime : Q) : Q :=
  (MAGIC_NUMBER_OFFSET - expirationTime) * UNIT_SIZE.

Definition ceiling (num precision : Q) : Q :=
  (ExpirationTime.bitorZero (num / precision) + 1) * precision.

Definition computeExpirationBucket (currentTime expirationInMs bucketSizeMs : Q)
    : Q :=
  MAGIC_NUMBER_OFFSET -
  ceiling (MAGIC_NUMBER_OFFSET - currentTime + expirationInMs / UNIT_SIZE)
          (bucketSizeMs / UNIT_SIZE).

Definition LOW_PRIORITY_EXPIRATION : Q := inject_Z 5000.
Definition LOW_PRIORITY_BATCH_SIZE : Q := inject_Z 250.

Definition computeAsyncExpiration (currentTime : Q) : Q :=
  computeExpirationBucket currentTime LOW_PRIORITY_EXPIRATION
    LOW_PRIORITY_BATCH_SIZE.

Definition computeSuspenseExpiration (currentTime timeoutMs : Q) : Q :=
  computeExpirationBucket currentTime timeoutMs LOW_PRIORITY_BATCH_SIZE.

(** [__DEV__ ? 500 : 150]. *)
Definition HIGH_PRIORITY_EXPIRATION (DEV : bool) : Q :=
  if DEV then inject_Z 500 else inject_Z 150.
Definition HIGH_PRIORITY_BATCH_SIZE : Q := inject_Z 100.

Definition computeInteractiveExpiration (DEV : bool) (currentTime : Q) : Q :=
  computeExpirationBucket currentTime (HIGH_PRIORITY_EXPIRATION DEV)
    HIGH_PRIORITY_BATCH_SIZE.

Section InferPriority.

(** The priority levels are imported from SchedulerWithReactIntegration;
    the function only hands them back. *)
Variables ImmediatePriority UserBlockingPriority NormalPriority IdlePriority : Z.
Variable DEV : bool.

Definition inferPriorityFromExpirationTime (currentTime expirationTime : Q) : Z :=
  if Qeq_bool expirationTime (inject_Z Sync) then ImmediatePriority
  else if Qeq_bool expirationTime (inject_Z Never)
          || Qeq_bool expirationTime (inject_Z Idle)
  then IdlePriority
  else
    let msUntil :=
      expirationTimeToMs expirationTime - expirationTimeToMs currentTime in
    if Qle_bool msUntil 0 then ImmediatePriority
    else if Qle_bool msUntil
              (HIGH_PRIORITY_EXPIRATION DEV + HIGH_PRIORITY_BATCH_SIZE)
    then UserBlockingPriority
    else if Qle_bool msUntil (LOW_PRIORITY_EXPIRATION + LOW_PRIORITY_BATCH_SIZE)
    then NormalPriority
    else IdlePriority.

End InferPriority.

End ExpirationTimeOld.

(** ** The requestAnimationFrame polyfill (fixtures/dom/src/polyfills.js)

    [lastTime] is the variable of the enclosing function; a call at clock
    reading [currTime] registers a timer of [timeToCall] milliseconds whose
    callback is given [currTime + timeToCall]. *)

Module Polyfill.

Record Request : Type := mkRequest {
  timeToCall : Z;      (* the delay handed to setTimeout *)
  timestamp : Z        (* the argument the callback will be called with *)
}.

Definition requestAnimationFrame (currTime : Z) (lastTime : Z) : Request * Z :=
  let timeToCall := Z.max 0 (16 - (currTime - lastTime)) in
  (mkRequest timeToCall (currTime + timeToCall), currTime + timeToCall).

(** Successive calls, at the clock readings [times], starting from
    [lastTime]. *)
Fixpoint requests (times : list Z) (lastTime : Z) : list Request :=
  match times with
  | [] => []
  | currTime :: times' =>
      let '(r, lastTime') := requestAnimationFrame currTime lastTime in
      r :: requests times' lastTime'
  end.

End Polyfill.

(** ** Relations and invariants of whole runs *)

(** [Restores s s']: the ambient state of [s'] is that of [s], and if no
    callback was being executed in [s], none is in [s']. *)
Definition Restores (s s' : State) : Prop :=
  Framed false s s' ∧
  (isExecutingCallback s = false → isExecutingCallback s' = false).

(** The nodes whose callback flushFirstCallback has called, most recent
    first. *)
Definition invoked (tr : list Event) : list nat :=
  omap (λ e, match e with EvInvoke i => Some i | _ => None end) tr.

(** [Once s s']: the queue evolves, and between [s] and [s'] no node is
    called twice, and a node that was called is not in the queue of [s']. *)
Definition Once (s s' : State) : Prop :=
  Evolves s s' ∧
  ∀ l l' tr, Queue s l → Queue s' l' → trace s' = tr ++ trace s →
    NoDup (invoked tr) ∧
    ∀ i, i ∈ invoked tr → (i ∉ l') ∧ (i < length (heap s'))%nat.

(** [Ran s l k s']: from the state [s], whose queue is [l], the callbacks
    of the first [k] nodes of the queue have been called, in the order of
    the queue, and nothing else has happened to the queue. *)
Definition Ran (s : State) (l : list nat) (k : nat) (s' : State) : Prop :=
  (k ≤ length l)%nat ∧ Queue s' (drop k l) ∧
  invoked (trace s') = rev (take k l) ++ invoked (trace s) ∧
  (∀ i, dataOf (heap s') i = dataOf (heap s) i) ∧
  isSchedulerPaused s' = isSchedulerPaused s.

(** [Pausing s l1 p l2]: the scheduler is not paused, the queue of [s] is
    [l1 ++ p :: l2], the callbacks of [l1] return without calling the
    scheduler, and the callback of [p] calls unstable_pauseExecution and
    returns. *)
Definition Pausing (s : State) (l1 : list nat) (p : nat) (l2 : list nat) : Prop :=
  Queue s (l1 ++ p :: l2) ∧
  (∀ i, i ∈ l1 → ∃ pl e, dataOf (heap s) i = Some (Return, pl, e)) ∧
  (∃ pl e, dataOf (heap s) p = Some (PauseExecution Return, pl, e)) ∧
  isSchedulerPaused s = false.

(** [UpToPause s l1 p l2 k s']: from the state [s], whose queue is
    [l1 ++ p :: l2], the callbacks of the first [k] nodes have been called,
    in the order of the queue and none after that of [p]; the scheduler is
    paused in [s'] exactly when the callback of [p] has been called. *)
Definition UpToPause (s : State) (l1 : list nat) (p : nat) (l2 : list nat)
    (k : nat) (s' : State) : Prop :=
  (k ≤ length l1 + 1)%nat ∧ Queue s' (drop k (l1 ++ p :: l2)) ∧
  invoked (trace s') = rev (take k (l1 ++ p :: l2)) ++ invoked (trace s) ∧
  (∀ i, dataOf (heap s') i = dataOf (heap s) i) ∧
  isSchedulerPaused s' = bool_decide (k = (length l1 + 1)%nat).

(** ** The host: the requestIdleCallback polyfill of Scheduler.js

    The implementation of requestHostCallback, cancelHostCallback and
    shouldYieldToHost for a browser (lines 650-834).  Times are in
    milliseconds.  The browser is the pending requestAnimationFrame
    callbacks and timers, by the id they were registered under, and the
    number of messages posted to the channel and not yet delivered.  The
    callback handed to requestAnimationFrameWithTimeout is always
    animationTick, so a pending id stands for it. *)

Module DOMHost.

Set Implicit Arguments.
Set Maximal Implicit Insertion.

(** A call that the scheduled callback makes into the host while it
    runs. *)
Inductive HostCall (Callback : Type) : Type :=
| CallRequestHostCallback (callback : Callback) (absoluteTimeout : Z)
| CallCancelHostCallback.
Arguments CallRequestHostCallback {Callback}.
Arguments CallCancelHostCallback {Callback}.

Section Host.
Variable Callback : Type.

Record State : Type := mkState {
  scheduledHostCallback : option Callback;
  isMessageEventScheduled : bool;
  timeoutTime : Z;
  isAnimationFrameScheduled : bool;
  isFlushingHostCallback : bool;
  frameDeadline : Z;
  previousFrameTime : Z;
  activeFrameTime : Z;
  rAFID : option nat;
  rAFTimeoutID : option nat;
  (* the browser *)
  animationFrames : list nat;
  timers : list nat;
  messages : nat;
  nextID : nat;
  (* the calls of the scheduled callback, with didTimeout, most recent
     first *)
  calls : list (Callback * bool)
}.

Definition initialState : State :=
  mkState None false (-1) false false 0 33 33 None None [] [] 0 0 [].

Definition set_scheduled (cb : option Callback) (t : Z) (s : State) : State :=
  mkState cb (isMessageEventScheduled s) t (isAnimationFrameScheduled s)
    (isFlushingHostCallback s) (frameDeadline s) (previousFrameTime s)
    (activeFrameTime s) (rAFID s) (rAFTimeoutID s) (animationFrames s) (timers s)
    (messages s) (nextID s) (calls s).

Definition set_isMessageEventScheduled (b : bool) (s : State) : State :=
  mkState (scheduledHostCallback s) b (timeoutTime s) (isAnimationFrameScheduled s)
    (isFlushingHostCallback s) (frameDeadline s) (previousFrameTime s)
    (activeFrameTime s) (rAFID s) (rAFTimeoutID s) (animationFrames s) (timers s)
    (messages s) (nextID s) (calls s).

Definition set_isAnimationFrameScheduled (b : bool) (s : State) : State :=
  mkState (scheduledHostCallback s) (isMessageEventScheduled s) (timeoutTime s) b
    (isFlushingHostCallback s) (frameDeadline s) (previousFrameTime s)
    (activeFrameTime s) (rAFID s) (rAFTimeoutID s) (animationFrames s) (timers s)
    (messages s) (nextID s) (calls s).

Definition set_isFlushingHostCallback (b : bool) (s : State) : State :=
  mkState (scheduledHostCallback s) (isMessageEventScheduled s) (timeoutTime s)
    (isAnimationFrameScheduled s) b (frameDeadline s) (previousFrameTime s)
    (activeFrameTime s) (rAFID s) (rAFTimeoutID s) (animationFrames s) (timers s)
    (messages s) (nextID s) (calls s).

Definition set_frameDeadline (t : Z) (s : State) : State :=
  mkState (scheduledHostCallback s) (isMessageEventScheduled s) (timeoutTime s)
    (isAnimationFrameScheduled s) (isFlushingHostCallback s) t
    (previousFrameTime s) (activeFrameTime s) (rAFID s) (rAFTimeoutID s)
    (animationFrames s) (timers s) (messages s) (nextID s) (calls s).

Definition set_previousFrameTime (t : Z) (s : State) : State :=
  mkState (scheduledHostCallback s) (isMessageEventScheduled s) (timeoutTime s)
    (isAnimationFrameScheduled s) (isFlushingHostCallback s) (frameDeadline s)
    t (activeFrameTime s) (rAFID s) (rAFTimeoutID s)
    (animationFrames s) (timers s) (messages s) (nextID s) (calls s).

Definition set_activeFrameTime (t : Z) (s : State) : State :=
  mkState (scheduledHostCallback s) (isMessageEventScheduled s) (timeoutTime s)
    (isAnimationFrameScheduled s) (isFlushingHostCallback s) (frameDeadline s)
    (previousFrameTime s) t (rAFID s) (rAFTimeoutID s)
    (animationFrames s) (timers s) (messages s) (nextID s) (calls s).

Definition set_calls (c : list (Callback * bool)) (s : State) : State :=
  mkState (scheduledHostCallback s) (isMessageEventScheduled s) (timeoutTime s)
    (isAnimationFrameScheduled s) (isFlushingHostCallback s) (frameDeadline s)
    (previousFrameTime s) (activeFrameTime s) (rAFID s) (rAFTimeoutID s)
    (animationFrames s) (timers s) (messages s) (nextID s) c.

(** [port.postMessage(undefined)]. *)
Definition postMessage (s : State) : State :=
  mkState (scheduledHostCallback s) (isMessageEventScheduled s) (timeoutTime s)
    (isAnimationFrameScheduled s) (isFlushingHostCallback s) (frameDeadline s)
    (previousFrameTime s) (activeFrameTime s) (rAFID s) (rAFTimeoutID s)
    (animationFrames s) (timers s) (S (messages s)) (nextID s) (calls s).

(** [localCancelAnimationFrame(id)] and [localClearTimeout(id)]; an id
    that is not pending, or undefined, cancels nothing. *)
Definition cancelId (id : option nat) (pending : list nat) : list nat :=
  match id with
  | Some i => filter (λ j, j ≠ i) pending
  | None => pending
  end.

Definition localCancelAnimationFrame (id : option nat) (s : State) : State :=
  mkState (scheduledHostCallback s) (isMessageEventScheduled s) (timeoutTime s)
    (isAnimationFrameScheduled s) (isFlushingHostCallback s) (frameDeadline s)
    (previousFrameTime s) (activeFrameTime s) (rAFID s) (rAFTimeoutID s)
    (cancelId id (animationFrames s)) (timers s) (messages s) (nextID s) (calls s).

Definition localClearTimeout (id : option nat) (s : State) : State :=
  mkState (scheduledHostCallback s) (isMessageEventScheduled s) (timeoutTime s)
    (isAnimationFrameScheduled s) (isFlushingHostCallback s) (frameDeadline s)
    (previousFrameTime s) (activeFrameTime s) (rAFID s) (rAFTimeoutID s)
    (animationFrames s) (cancelId id (timers s)) (messages s) (nextID s) (calls s).

(** requestAnimationFrameWithTimeout(animationTick): an animation frame
    callback and a timer of ANIMATION_FRAME_TIMEOUT are registered, and
    their ids are kept in rAFID and rAFTimeoutID. *)
Definition requestAnimationFrameWithTimeout (s : State) : State :=
  mkState (scheduledHostCallback s) (isMessageEventScheduled s) (timeoutTime s)
    (isAnimationFrameScheduled s) (isFlushingHostCallback s) (frameDeadline s)
    (previousFrameTime s) (activeFrameTime s)
    (Some (nextID s)) (Some (S (nextID s)))
    (nextID s :: animationFrames s) (S (nextID s) :: timers s)
    (messages s) (S (S (nextID s))) (calls s).

Definition shouldYieldToHost (currentTime : Z) (s : State) : bool :=
  frameDeadline s <=? currentTime.

Definition requestHostCallback (callback : Callback) (absoluteTimeout : Z)
    (s : State) : State :=
  let s1 := set_scheduled (Some callback) absoluteTimeout s in
  if isFlushingHostCallback s1 || (absoluteTimeout <? 0) then postMessage s1
  else if negb (isAnimationFrameScheduled s1)
  then requestAnimationFrameWithTimeout (set_isAnimationFrameScheduled true s1)
  else s1.

Definition cancelHostCallback (s : State) : State :=
  set_scheduled None (-1) (set_isMessageEventScheduled false s).

Definition hostCall (s : State) (c : HostCall Callback) : State :=
  match c with
  | CallRequestHostCallback callback absoluteTimeout =>
      requestHostCallback callback absoluteTimeout s
  | CallCancelHostCallback => cancelHostCallback s
  end.

(** channel.port1.onmessage.  [currentTime] is what getCurrentTime
    answers; [behaviour callback didTimeout] is what the scheduled callback
    does when it is called: the calls it makes into the host, and whether
    it throws.  The result says whether the handler threw. *)
Definition onmessage (currentTime : Z)
    (behaviour : Callback → bool → list (HostCall Callback) * bool)
    (s : State) : State * bool :=
  let prevScheduledCallback := scheduledHostCallback s in
  let prevTimeoutTime := timeoutTime s in
  let s1 := set_scheduled None (-1) (set_isMessageEventScheduled false s) in
  let invoke (didTimeout : bool) : State * bool :=
    match prevScheduledCallback with
    | Some callback =>
        let s2 := set_isFlushingHostCallback true s1 in
        let '(made, threw) := behaviour callback didTimeout in
        let s3 :=
          foldl hostCall (set_calls ((callback, didTimeout) :: calls s2) s2) made in
        (* finally *)
        (set_isFlushingHostCallback false s3, threw)
    | None => (s1, false)
    end in
  if frameDeadline s1 - currentTime <=? 0 then
    if negb (prevTimeoutTime =? -1) && (prevTimeoutTime <=? currentTime)
    then invoke true
    else
      let s2 :=
        if negb (isAnimationFrameScheduled s1)
        then requestAnimationFrameWithTimeout
               (set_isAnimationFrameScheduled true s1)
        else s1 in
      (set_scheduled prevScheduledCallback prevTimeoutTime s2, false)
  else invoke false.

Definition animationTick (rafTime : Z) (s : State) : State :=
  match scheduledHostCallback s with
  | None => set_isAnimationFrameScheduled false s
  | Some _ =>
      let s1 := requestAnimationFrameWithTimeout s in
      let nextFrameTime := rafTime - frameDeadline s1 + activeFrameTime s1 in
      let s2 :=
        if (nextFrameTime <? activeFrameTime s1)
           && (previousFrameTime s1 <? activeFrameTime s1)
        then
          let nextFrameTime := if nextFrameTime <? 8 then 8 else nextFrameTime in
          set_activeFrameTime
            (if nextFrameTime <? previousFrameTime s1
             then previousFrameTime s1 else nextFrameTime) s1
        else set_previousFrameTime nextFrameTime s1 in
      let s3 := set_frameDeadline (rafTime + activeFrameTime s2) s2 in
      if negb (isMessageEventScheduled s3)
      then postMessage (set_isMessageEventScheduled true s3)
      else s3
  end.

(** What happens to the host from outside: the browser delivers a
    message, runs a pending animation frame callback or a pending timer,
    or the scheduler calls the host outside of a host callback. *)
Inductive Event : Type :=
| Message (currentTime : Z)
    (behaviour : Callback → bool → list (HostCall Callback) * bool)
| AnimationFrame (id : nat) (timestamp : Z)
| Timer (id : nat) (currentTime : Z)
| Call (c : HostCall Callback).

Definition removeId (id : nat) (pending : list nat) : list nat :=
  filter (λ j, j ≠ id) pending.

Definition step (e : Event) (s : State) : option State :=
  match e with
  | Message currentTime behaviour =>
      match messages s with
      | O => None
      | S m =>
          let s1 :=
            mkState (scheduledHostCallback s) (isMessageEventScheduled s)
              (timeoutTime s) (isAnimationFrameScheduled s)
              (isFlushingHostCallback s) (frameDeadline s) (previousFrameTime s)
              (activeFrameTime s) (rAFID s) (rAFTimeoutID s) (animationFrames s)
              (timers s) m (nextID s) (calls s) in
          Some (onmessage currentTime behaviour s1).1
      end
  | AnimationFrame id timestamp =>
      if bool_decide (id ∈ animationFrames s) then
        let s1 :=
          mkState (scheduledHostCallback s) (isMessageEventScheduled s)
            (timeoutTime s) (isAnimationFrameScheduled s)
            (isFlushingHostCallback s) (frameDeadline s) (previousFrameTime s)
            (activeFrameTime s) (rAFID s) (rAFTimeoutID s)
            (removeId id (animationFrames s)) (timers s) (messages s) (nextID s)
            (calls s) in
        (* cancel the setTimeout *)
        Some (animationTick timestamp (localClearTimeout (rAFTimeoutID s1) s1))
      else None
  | Timer id currentTime =>
      if bool_decide (id ∈ timers s) then
        let s1 :=
          mkState (scheduledHostCallback s) (isMessageEventScheduled s)
            (timeoutTime s) (isAnimationFrameScheduled s)
            (isFlushingHostCallback s) (frameDeadline s) (previousFrameTime s)
            (activeFrameTime s) (rAFID s) (rAFTimeoutID s)
            (animationFrames s) (removeId id (timers s)) (messages s) (nextID s)
            (calls s) in
        (* cancel the requestAnimationFrame *)
        Some (animationTick currentTime (localCancelAnimationFrame (rAFID s1) s1))
      else None
  | Call c => Some (hostCall s c)
  end.

Fixpoint run (events : list Event) (s : State) : option State :=
  match events with
  | [] => Some s
  | e :: events' =>
      match step e s with
      | None => None
      | Some s1 => run events' s1
      end
  end.

(** The frame time is between 8 and 33, and the pending animation frame
    callbacks and timers are those of the last
    requestAnimationFrameWithTimeout, if isAnimationFrameScheduled is set,
    and none otherwise. *)
Definition FramesKept (s : State) : Prop :=
  (8 ≤ activeFrameTime s ≤ 33) ∧
  (if isAnimationFrameScheduled s
   then ∃ a t, rAFID s = Some a ∧ rAFTimeoutID s = Some t ∧
               animationFrames s = [a] ∧ timers s = [t] ∧
               (a < nextID s)%nat ∧ (t < nextID s)%nat
   else animationFrames s = [] ∧ timers s = []).

(** A message is pending if isMessageEventScheduled says so, and a
    scheduled callback has a message or an animation frame pending. *)
Definition Awaited (s : State) : Prop :=
  (isMessageEventScheduled s = true → (0 < messages s)%nat) ∧
  (is_Some (scheduledHostCallback s) →
   (0 < messages s)%nat ∨ isAnimationFrameScheduled s = true).

(** What holds of the host between two events. *)
Definition Settled (s : State) : Prop :=
  isFlushingHostCallback s = false ∧ FramesKept s ∧ Awaited s.

End Host.

Arguments initialState {Callback}.
Arguments AnimationFrame {Callback}.
Arguments Timer {Callback}.

Unset Maximal Implicit Insertion.
Unset Implicit Arguments.

End DOMHost.

(** ** The host outside a browser

    The implementation of requestHostCallback, cancelHostCallback and
    shouldYieldToHost that Scheduler.js falls back to when there is no
    window or no MessageChannel (lines 606-630).  Every timer is
    registered with a delay of 0, so the timers run in the order in which
    they were registered. *)

Module FallbackHost.

Set Implicit Arguments.
Set Maximal Implicit Insertion.

Section Host.
Variable Callback : Type.

(** What a pending timer will call. *)
Inductive TimerTask : Type :=
| FlushCallback (didTimeout : bool)
    (* setTimeout(_flushCallback, 0, false) *)
| RequestHostCallback (cb : Callback).
    (* setTimeout(requestHostCallback, 0, cb) *)

Record State : Type := mkState {
  _callback : option Callback;
  (* the browser: the pending timers, oldest first *)
  timers : list TimerTask;
  (* the calls of the scheduled callback, with didTimeout, most recent
     first *)
  calls : list (Callback * bool)
}.

Definition initialState : State := mkState None [] [].

Definition requestHostCallback (cb : Callback) (s : State) : State :=
  match _callback s with
  | Some _ =>
      (* Protect against re-entrancy. *)
      mkState (_callback s) (timers s ++ [RequestHostCallback cb]) (calls s)
  | None => mkState (Some cb) (timers s ++ [FlushCallback false]) (calls s)
  end.

Definition cancelHostCallback (s : State) : State :=
  mkState None (timers s) (calls s).

Definition shouldYieldToHost : bool := false.

Definition hostCall (s : State) (c : DOMHost.HostCall Callback) : State :=
  match c with
  | DOMHost.CallRequestHostCallback cb _ => requestHostCallback cb s
  | DOMHost.CallCancelHostCallback => cancelHostCallback s
  end.

(** _flushCallback; [behaviour] as for the host in a browser.  The result
    says whether the callback threw. *)
Definition _flushCallback (didTimeout : bool)
    (behaviour : Callback → bool → list (DOMHost.HostCall Callback) * bool)
    (s : State) : State * bool :=
  match _callback s with
  | Some cb =>
      let '(made, threw) := behaviour cb didTimeout in
      let s1 :=
        foldl hostCall
          (mkState (_callback s) (timers s) ((cb, didTimeout) :: calls s)) made in
      (* finally *)
      (mkState None (timers s1) (calls s1), threw)
  | None => (s, false)
  end.

(** The oldest timer runs. *)
Definition fire
    (behaviour : Callback → bool → list (DOMHost.HostCall Callback) * bool)
    (s : State) : option State :=
  match timers s with
  | [] => None
  | task :: rest =>
      let s0 := mkState (_callback s) rest (calls s) in
      Some match task with
           | FlushCallback didTimeout => (_flushCallback didTimeout behaviour s0).1
           | RequestHostCallback cb => requestHostCallback cb s0
           end
  end.

(** What happens to the host from outside: a timer runs, or the scheduler
    calls the host outside of a host callback. *)
Inductive Event : Type :=
| Fire (behaviour : Callback → bool → list (DOMHost.HostCall Callback) * bool)
| Call (c : DOMHost.HostCall Callback).

Definition step (e : Event) (s : State) : option State :=
  match e with
  | Fire behaviour => fire behaviour s
  | Call c => Some (hostCall s c)
  end.

Fixpoint run (events : list Event) (s : State) : option State :=
  match events with
  | [] => Some s
  | e :: events' =>
      match step e s with
      | None => None
      | Some s1 => run events' s1
      end
  end.

End Host.

Arguments initialState {Callback}.
Arguments FlushCallback {Callback}.

Unset Maximal Implicit Insertion.
Unset Implicit Arguments.

End FallbackHost.

(** * Proofs *)

Lemma last_cons_default (x y : nat) l : List.last (y :: l) x = List.last l y.
Proof.
  revert x y; induction l as [|z l IH]; intros x y; [done|].
  change (List.last (z :: l) x = List.last (z :: l) y). by rewrite !IH.
Qed.

Lemma edges_app x l1 l2 :
  edges x (l1 ++ l2) = edges x l1 ++ edges (List.last l1 x) l2.
Proof.
  revert x; induction l1 as [|y l1 IH]; intros x; [done|].
  rewrite last_cons_default. simpl. by rewrite IH.
Qed.

Lemma edges_in x l a b : (a, b) ∈ edges x l → a ∈ x :: l ∧ b ∈ l.
Proof.
  revert x; induction l as [|y l IH]; intros x; simpl.
  - by intros ?%elem_of_nil.
  - intros [[= -> ->]|H]%elem_of_cons; [set_solver|].
    apply IH in H. set_solver.
Qed.

Lemma last_in (x : nat) l : List.last l x ∈ x :: l.
Proof.
  revert x; induction l as [|y l IH]; intros x; [set_solver|].
  rewrite last_cons_default. specialize (IH y). set_solver.
Qed.

Lemma cyc_in l a b : (a, b) ∈ cyc l → a ∈ l ∧ b ∈ l.
Proof.
  destruct l as [|x l]; simpl; [by intros ?%elem_of_nil|].
  intros H%edges_in. set_solver.
Qed.

Lemma cyc_succ l1 x l2 : (x, hd (hd x l1) l2) ∈ cyc (l1 ++ x :: l2).
Proof.
  destruct l1 as [|a l1]; simpl.
  - destruct l2; simpl; set_solver.
  - rewrite <- app_assoc, edges_app. simpl.
    destruct l2; simpl; set_solver.
Qed.

Lemma cyc_pred l1 x l2 :
  (List.last l1 (List.last l2 x), x) ∈ cyc (l1 ++ x :: l2).
Proof.
  destruct l1 as [|a l1].
  - simpl. rewrite edges_app. simpl. set_solver.
  - rewrite last_cons_default.
    change (cyc ((a :: l1) ++ x :: l2)) with (edges a ((l1 ++ x :: l2) ++ [a])).
    rewrite <- app_assoc, edges_app. simpl.
    destruct l1; simpl; set_solver.
Qed.

Lemma edges_mid x l1 c l2 :
  edges x (l1 ++ c :: l2) = edges x l1 ++ (List.last l1 x, c) :: edges c l2.
Proof. by rewrite edges_app. Qed.

Lemma cyc_insert_inv l1 b l2 x y :
  (x, y) ∈ cyc (l1 ++ b :: l2) → x ≠ b → y ≠ b → (x, y) ∈ cyc (l1 ++ l2).
Proof.
  destruct l1 as [|a l1]; simpl.
  - destruct l2 as [|c l2]; simpl.
    + set_solver.
    + rewrite !edges_mid. simpl. set_solver.
  - rewrite <- !app_assoc. simpl. rewrite edges_mid.
    destruct l2 as [|c l2]; simpl.
    + rewrite edges_mid. simpl. set_solver.
    + rewrite (edges_mid a l1 c). set_solver.
Qed.

Lemma cyc_remove_inv l1 b l2 x y :
  (x, y) ∈ cyc (l1 ++ l2) →
  (x, y) = (List.last l1 (List.last l2 b), hd (hd b l1) l2) ∨
  (x, y) ∈ cyc (l1 ++ b :: l2).
Proof.
  destruct l1 as [|a l1].
  - destruct l2 as [|c l2]; [by intros ?%elem_of_nil|].
    change (List.last [] (List.last (c :: l2) b)) with (List.last (c :: l2) b).
    rewrite last_cons_default. simpl.
    rewrite !edges_mid. simpl. set_solver.
  - rewrite last_cons_default. simpl. rewrite <- !app_assoc. simpl.
    rewrite (edges_mid a l1 b).
    destruct l2 as [|c l2]; simpl.
    + rewrite edges_mid. simpl. set_solver.
    + rewrite (edges_mid a l1 c). set_solver.
Qed.

Lemma edges_fst x l : (edges x l).*1 = removelast (x :: l).
Proof.
  revert x; induction l as [|y l IH]; intros x; [done|].
  simpl edges. rewrite fmap_cons, IH. done.
Qed.

Lemma cyc_fst l : (cyc l).*1 = l.
Proof.
  destruct l as [|a l]; [done|]. simpl cyc. rewrite edges_fst.
  change (a :: l ++ [a]) with ((a :: l) ++ [a]). apply removelast_last.
Qed.

Lemma edges_snd x l : (edges x l).*2 = l.
Proof.
  revert x; induction l as [|y l IH]; intros x; [done|].
  simpl edges. rewrite fmap_cons, IH. done.
Qed.

Lemma NoDup_fst_functional {A B} (E : list (A * B)) x y y' :
  NoDup (E.*1) → (x, y) ∈ E → (x, y') ∈ E → y = y'.
Proof.
  induction E as [|[a b] E IH]; [by intros _ ?%elem_of_nil|].
  rewrite fmap_cons, NoDup_cons. simpl. intros [Hn Hd] H1 H2.
  apply elem_of_cons in H1, H2.
  destruct H1 as [H1|H1], H2 as [H2|H2]; simplify_eq; [done| | |by eauto].
  - destruct Hn. apply list_elem_of_fmap. by exists (a, y').
  - destruct Hn. apply list_elem_of_fmap. by exists (a, y).
Qed.

Lemma NoDup_snd_functional {A B} (E : list (A * B)) x x' y :
  NoDup (E.*2) → (x, y) ∈ E → (x', y) ∈ E → x = x'.
Proof.
  induction E as [|[a b] E IH]; [by intros _ ?%elem_of_nil|].
  rewrite fmap_cons, NoDup_cons. simpl. intros [Hn Hd] H1 H2.
  apply elem_of_cons in H1, H2.
  destruct H1 as [H1|H1], H2 as [H2|H2]; simplify_eq; [done| | |by eauto].
  - destruct Hn. apply list_elem_of_fmap. by exists (x', b).
  - destruct Hn. apply list_elem_of_fmap. by exists (x, b).
Qed.

Lemma cyc_succ_unique l x y y' :
  NoDup l → (x, y) ∈ cyc l → (x, y') ∈ cyc l → y = y'.
Proof. intros Hn. apply NoDup_fst_functional. by rewrite cyc_fst. Qed.

Lemma cyc_pred_unique l x x' y :
  NoDup l → (x, y) ∈ cyc l → (x', y) ∈ cyc l → x = x'.
Proof.
  intros Hn. apply NoDup_snd_functional.
  destruct l as [|a l]; [constructor|]. simpl. rewrite edges_snd.
  apply NoDup_cons in Hn as [? ?]. apply NoDup_app. set_solver by eauto using NoDup_singleton.
Qed.

(** Field lookups under updates of the store. *)

Lemma nextOf_alter_previous v i h j :
  nextOf (alter (set_previous v) i h) j = nextOf h j.
Proof.
  unfold nextOf. destruct (decide (i = j)) as [->|].
  - rewrite list_lookup_alter_eq. by destruct (h !! j).
  - by rewrite list_lookup_alter_ne.
Qed.

Lemma previousOf_alter_next v i h j :
  previousOf (alter (set_next v) i h) j = previousOf h j.
Proof.
  unfold previousOf. destruct (decide (i = j)) as [->|].
  - rewrite list_lookup_alter_eq. by destruct (h !! j).
  - by rewrite list_lookup_alter_ne.
Qed.

Lemma nextOf_alter_next v i h j :
  nextOf (alter (set_next v) i h) j =
  if decide (i = j) then (if decide (j < length h)%nat then v else None)
  else nextOf h j.
Proof.
  unfold nextOf. case_decide as Hij; [subst|by rewrite list_lookup_alter_ne].
  rewrite list_lookup_alter_eq. case_decide as Hl.
  - apply lookup_lt_is_Some_2 in Hl as [nd ->]. done.
  - rewrite lookup_ge_None_2 by lia. done.
Qed.

Lemma previousOf_alter_previous v i h j :
  previousOf (alter (set_previous v) i h) j =
  if decide (i = j) then (if decide (j < length h)%nat then v else None)
  else previousOf h j.
Proof.
  unfold previousOf. case_decide as Hij; [subst|by rewrite list_lookup_alter_ne].
  rewrite list_lookup_alter_eq. case_decide as Hl.
  - apply lookup_lt_is_Some_2 in Hl as [nd ->]. done.
  - rewrite lookup_ge_None_2 by lia. done.
Qed.

Lemma dataOf_alter_links f i h j :
  (∀ nd, callback (f nd) = callback nd ∧ priorityLevel (f nd) = priorityLevel nd ∧
         expirationTime (f nd) = expirationTime nd) →
  dataOf (alter f i h) j = dataOf h j.
Proof.
  intros Hf. unfold dataOf. destruct (decide (i = j)) as [->|].
  - rewrite list_lookup_alter_eq. destruct (h !! j) as [nd|]; [|done].
    simpl. destruct (Hf nd) as (-> & -> & ->). done.
  - by rewrite list_lookup_alter_ne.
Qed.

Lemma nextOf_lt h i j : nextOf h i = Some j → (i < length h)%nat.
Proof.
  unfold nextOf. destruct (h !! i) eqn:E; [|done].
  intros _. by eapply lookup_lt_Some.
Qed.

Lemma previousOf_lt h i j : previousOf h i = Some j → (i < length h)%nat.
Proof.
  unfold previousOf. destruct (h !! i) eqn:E; [|done].
  intros _. by eapply lookup_lt_Some.
Qed.

Lemma linked_lt h a b : linked h a b → (a < length h)%nat ∧ (b < length h)%nat.
Proof. intros [H1 H2]. eauto using nextOf_lt, previousOf_lt. Qed.

Lemma linked_succ_unique h a b b' : linked h a b → linked h a b' → b = b'.
Proof. intros [H1 _] [H2 _]. congruence. Qed.

Lemma linked_pred_unique h a a' b : linked h a b → linked h a' b → a = a'.
Proof. intros [_ H1] [_ H2]. congruence. Qed.

(** The store after [linkBefore newNode n]: [newNode] sits between [n] and
    the node [p] that preceded it; no other link changes. *)
Lemma linkBefore_spec h newNode p n :
  linked h p n → (newNode < length h)%nat → newNode ≠ p → newNode ≠ n →
  ∃ h', linkBefore newNode n h = Some h' ∧
        length h' = length h ∧
        (∀ i, dataOf h' i = dataOf h i) ∧
        linked h' p newNode ∧ linked h' newNode n ∧
        (∀ x y, linked h x y → x ≠ p → x ≠ newNode → y ≠ newNode → linked h' x y) ∧
        (∀ i, i ≠ p → i ≠ n → i ≠ newNode →
              nextOf h' i = nextOf h i ∧ previousOf h' i = previousOf h i).
Proof.
  intros [Hn Hp] Hlt Hnp Hnn.
  pose proof (nextOf_lt _ _ _ Hn) as Hpl.
  pose proof (previousOf_lt _ _ _ Hp) as Hnl.
  unfold linkBefore.
  destruct (h !! n) as [nd|] eqn:En; [|by apply lookup_ge_None in En; lia].
  assert (previous nd = Some p) as ->.
  { unfold previousOf in Hp. by rewrite En in Hp. }
  destruct (h !! p) as [pd|] eqn:Ep; [|by apply lookup_ge_None in Ep; lia].
  eexists; split; [done|].
  split; [by rewrite !length_alter|].
  split.
  { intros i. rewrite !dataOf_alter_links; done. }
  assert (∀ x, nextOf
     (alter (set_previous (Some p)) newNode
        (alter (set_next (Some n)) newNode
           (alter (set_next (Some newNode)) p
              (alter (set_previous (Some newNode)) n h)))) x =
     if decide (x = newNode) then Some n
     else if decide (x = p) then Some newNode else nextOf h x) as HN.
  { intros x. rewrite nextOf_alter_previous, nextOf_alter_next.
    rewrite !length_alter. repeat case_decide; try done; try lia.
    - subst. rewrite nextOf_alter_next, !length_alter.
      repeat case_decide; try done; try lia.
    - rewrite nextOf_alter_next, !length_alter.
      repeat case_decide; try done; try lia; try congruence.
      by rewrite nextOf_alter_previous. }
  assert (∀ x, previousOf
     (alter (set_previous (Some p)) newNode
        (alter (set_next (Some n)) newNode
           (alter (set_next (Some newNode)) p
              (alter (set_previous (Some newNode)) n h)))) x =
     if decide (x = newNode) then Some p
     else if decide (x = n) then Some newNode else previousOf h x) as HP.
  { intros x. rewrite previousOf_alter_previous, !length_alter.
    rewrite !previousOf_alter_next, previousOf_alter_previous.
    repeat case_decide; try done; try lia; congruence. }
  unfold linked. rewrite !HN, !HP.
  split; [|split; [|split]].
  - repeat case_decide; try done; congruence.
  - repeat case_decide; try done; congruence.
  - intros x y [Hx Hy] ? ? ?. rewrite HN, HP.
    repeat case_decide; try done; congruence.
  - intros i ? ? ?. rewrite HN, HP. repeat case_decide; done.
Qed.

Lemma expirationOf_data h h' i :
  dataOf h' i = dataOf h i → expirationOf h' i = expirationOf h i.
Proof.
  unfold dataOf, expirationOf. intros H.
  destruct (h' !! i), (h !! i); simplify_eq /=; congruence.
Qed.

Lemma priorityOf_data h h' i :
  dataOf h' i = dataOf h i → priorityOf h' i = priorityOf h i.
Proof.
  unfold dataOf, priorityOf. intros H.
  destruct (h' !! i), (h !! i); simplify_eq /=; congruence.
Qed.

Lemma cyc_closing l1 l2 (b : nat) :
  l1 ++ l2 ≠ [] →
  (List.last l1 (List.last l2 b), hd (hd b l1) l2) ∈ cyc (l1 ++ l2).
Proof.
  intros Hne. destruct l2 as [|c l2].
  - rewrite app_nil_r in *. destruct l1 as [|a l1]; [done|].
    rewrite last_cons_default. simpl. rewrite edges_app. simpl. set_solver.
  - rewrite last_cons_default. apply (cyc_pred l1 c l2).
Qed.

Section QueueFacts.
Context (s : State) (l : list nat) (HQ : Queue s l).

Lemma Queue_lt i : i ∈ l → (i < length (heap s))%nat.
Proof.
  intros [l1 [l2 ->]]%list_elem_of_split.
  pose proof (q_ring _ _ _ HQ _ _ (cyc_succ l1 i l2)) as H.
  by apply linked_lt in H as [? _].
Qed.

Lemma Queue_next l1 x l2 :
  l = l1 ++ x :: l2 → nextOf (heap s) x = Some (hd (hd x l1) l2).
Proof. intros ->. by destruct (q_ring _ _ _ HQ _ _ (cyc_succ l1 x l2)). Qed.

Lemma Queue_previous l1 x l2 :
  l = l1 ++ x :: l2 →
  previousOf (heap s) x = Some (List.last l1 (List.last l2 x)).
Proof. intros ->. by destruct (q_ring _ _ _ HQ _ _ (cyc_pred l1 x l2)). Qed.

Lemma Queue_lookup i : i ∈ l → ∃ nd, heap s !! i = Some nd.
Proof. intros H%Queue_lt. by apply lookup_lt_is_Some_2. Qed.

Lemma Queue_length : (length l ≤ length (heap s))%nat.
Proof.
  transitivity (length (seq 0 (length (heap s)))); [|by rewrite length_seq].
  apply submseteq_length, NoDup_submseteq; [apply HQ|].
  intros i Hi%Queue_lt. apply elem_of_seq. lia.
Qed.
End QueueFacts.

Lemma Queue_ext s s' l :
  Queue s l → heap s' = heap s → firstCallbackNode s' = firstCallbackNode s →
  Queue s' l.
Proof. unfold Queue. by intros ? -> ->. Qed.

Lemma nextOf_app_new h nd i :
  nextOf (h ++ [nd]) i =
  if decide (i = length h) then next nd else nextOf h i.
Proof.
  unfold nextOf. case_decide as Hi.
  - subst. rewrite lookup_app_r by lia. by rewrite Nat.sub_diag.
  - destruct (decide (i < length h)%nat).
    + by rewrite lookup_app_l.
    + rewrite !lookup_ge_None_2; [done|lia|rewrite length_app; simpl; lia].
Qed.

Lemma previousOf_app_new h nd i :
  previousOf (h ++ [nd]) i =
  if decide (i = length h) then previous nd else previousOf h i.
Proof.
  unfold previousOf. case_decide as Hi.
  - subst. rewrite lookup_app_r by lia. by rewrite Nat.sub_diag.
  - destruct (decide (i < length h)%nat).
    + by rewrite lookup_app_l.
    + rewrite !lookup_ge_None_2; [done|lia|rewrite length_app; simpl; lia].
Qed.

Lemma dataOf_app_old h nd i :
  (i < length h)%nat → dataOf (h ++ [nd]) i = dataOf h i.
Proof. intros H. unfold dataOf. by rewrite lookup_app_l. Qed.

Lemma dataOf_app_new h nd :
  dataOf (h ++ [nd]) (length h) =
  Some (callback nd, priorityLevel nd, expirationTime nd).
Proof. unfold dataOf. rewrite lookup_app_r by lia. by rewrite Nat.sub_diag. Qed.

(** Allocation of a node with null links leaves the queue as it is. *)
Lemma Queue_alloc s l cb pl e :
  Queue s l →
  Queue (set_heap (heap s ++ [mkNode cb pl e None None]) s) l.
Proof.
  intros HQ. split; simpl.
  - apply HQ.
  - apply HQ.
  - intros x y Hxy. destruct (q_ring _ _ _ HQ _ _ Hxy) as [H1 H2].
    pose proof (linked_lt _ _ _ (conj H1 H2)) as [? ?].
    split.
    + rewrite nextOf_app_new. case_decide; [lia|done].
    + rewrite previousOf_app_new. case_decide; [lia|done].
  - intros i Hi. rewrite nextOf_app_new, previousOf_app_new.
    case_decide; [done|]. by apply HQ.
  - erewrite list_fmap_ext; [apply HQ|].
    intros k i Hk. apply expirationOf_data, dataOf_app_old.
    eapply Queue_lt; [done|]. by eapply list_elem_of_lookup_2.
Qed.

Lemma expirationOf_lookup h i nd :
  h !! i = Some nd → expirationOf h i = expirationTime nd.
Proof. unfold expirationOf. by intros ->. Qed.

Lemma nextOf_lookup h i nd : h !! i = Some nd → nextOf h i = next nd.
Proof. unfold nextOf. by intros ->. Qed.

Lemma previousOf_lookup h i nd : h !! i = Some nd → previousOf h i = previous nd.
Proof. unfold previousOf. by intros ->. Qed.

(** The search loop returns the first node, in list order from where it
    starts, whose expiration satisfies [stop]. *)
Lemma findNode_spec stop s l a w1 : ∀ l0 w2 x budget,
  Queue s l → head l = Some a → l = l0 ++ w1 ++ w2 →
  Forall (λ i, stop (expirationOf (heap s) i) = false) w1 →
  match w2 with [] => True | b :: _ => stop (expirationOf (heap s) b) = true end →
  head (w1 ++ w2) = Some x →
  (length (w1 ++ w2) ≤ budget)%nat →
  findNode stop (heap s) a budget x = Some (head w2).
Proof.
  induction w1 as [|x' w1 IH]; intros l0 w2 x budget HQ Ha Hl Hw1 Hw2 Hx Hb.
  - simpl in *. destruct w2 as [|b w2]; simplify_eq /=.
    destruct budget as [|budget]; [lia|]. simpl.
    destruct (Queue_lookup _ _ HQ x) as [nd End]; [set_solver|].
    rewrite End. rewrite (expirationOf_lookup _ _ _ End) in Hw2. by rewrite Hw2.
  - simpl in Hx. simplify_eq. destruct budget as [|budget]; [simpl in Hb; lia|].
    apply Forall_cons in Hw1 as [Hs Hw1]. simpl.
    destruct (Queue_lookup _ _ HQ x) as [nd End]; [set_solver|].
    rewrite End. rewrite (expirationOf_lookup _ _ _ End) in Hs. rewrite Hs.
    pose proof (Queue_next _ _ HQ l0 x (w1 ++ w2) eq_refl) as Hn.
    rewrite (nextOf_lookup _ _ _ End) in Hn. rewrite Hn.
    destruct (w1 ++ w2) as [|y r] eqn:Er.
    + destruct (app_eq_nil _ _ Er) as [? ?]; subst. simpl.
      assert (hd x l0 = a) as ->.
      { destruct l0; simpl in *; congruence. }
      by rewrite Nat.eqb_refl.
    + simpl hd.
      assert (y ≠ a) as Hya.
      { pose proof (q_nodup _ _ _ HQ) as Hnd. simpl in Hnd. rewrite Er in Hnd.
        change (l0 ++ x :: y :: r) with (l0 ++ [x] ++ y :: r) in Hnd.
        rewrite app_assoc in Hnd. apply NoDup_app in Hnd as (_ & Hd & _).
        intros Hy. apply (Hd a); [|rewrite Hy; by left].
        destruct l0; simpl in *; simplify_eq; set_solver. }
      apply Nat.eqb_neq in Hya. rewrite Hya.
      apply (IH (l0 ++ [x])); try done.
      * rewrite <- app_assoc. simpl. by rewrite Er.
      * by rewrite Er.
      * simpl in Hb. lia.
Qed.

Lemma NoDup_insert_middle (l1 l2 : list nat) x :
  NoDup (l1 ++ l2) → x ∉ l1 ++ l2 → NoDup (l1 ++ x :: l2).
Proof.
  rewrite !NoDup_app, NoDup_cons, not_elem_of_app.
  intros (H1 & H2 & H3) [Hx1 Hx2]. split; [done|]. split; [|done].
  intros y Hy [->|Hy2]%elem_of_cons; [done|]. by apply (H2 y).
Qed.

Lemma NoDup_remove_middle (l1 l2 : list nat) x :
  NoDup (l1 ++ x :: l2) → NoDup (l1 ++ l2) ∧ x ∉ l1 ++ l2.
Proof.
  rewrite !NoDup_app, NoDup_cons, not_elem_of_app.
  intros (H1 & H2 & H3 & H4). split; [|split; [|done]].
  - split; [done|]. split; [|done]. intros y Hy Hy2. apply (H2 y); set_solver.
  - intros Hx. apply (H2 x); set_solver.
Qed.

Lemma StronglySorted_insert_middle (l1 l2 : list Z) e :
  StronglySorted Z.le (l1 ++ l2) →
  (∀ x, x ∈ l1 → x ≤ e) → (∀ x, x ∈ l2 → e ≤ x) →
  StronglySorted Z.le (l1 ++ e :: l2).
Proof.
  rewrite !StronglySorted_app. intros (H12 & H1 & H2) Hl Hr.
  split; [|split; [done|]].
  - intros x1 x2 Hx1 [->|Hx2]%elem_of_cons; eauto.
  - apply StronglySorted_cons. split; [|done]. by apply Forall_forall.
Qed.

Lemma StronglySorted_remove_middle (l1 l2 : list Z) e :
  StronglySorted Z.le (l1 ++ e :: l2) → StronglySorted Z.le (l1 ++ l2).
Proof.
  rewrite !StronglySorted_app. intros (H12 & H1 & H2).
  apply StronglySorted_cons in H2 as [_ H2].
  split; [|done]. intros x1 x2 ? ?. apply H12; set_solver.
Qed.

(** Linking a fresh node between two neighbours of a non-empty queue. *)
Lemma QueueOn_insert h f l1 l2 newNode :
  QueueOn h f (l1 ++ l2) → newNode ∉ l1 ++ l2 → (newNode < length h)%nat →
  l1 ++ l2 ≠ [] →
  (∀ i, i ∈ l1 → expirationOf h i ≤ expirationOf h newNode) →
  (∀ i, i ∈ l2 → expirationOf h newNode ≤ expirationOf h i) →
  ∃ h', linkBefore newNode (hd (hd newNode l1) l2) h = Some h' ∧
        length h' = length h ∧ (∀ i, dataOf h' i = dataOf h i) ∧
        QueueOn h' (head (l1 ++ newNode :: l2)) (l1 ++ newNode :: l2).
Proof.
  intros HQ Hnew Hlt Hne Hle1 Hle2.
  pose proof (cyc_closing l1 l2 newNode Hne) as Hpn.
  set (p := List.last l1 (List.last l2 newNode)) in *.
  set (n := hd (hd newNode l1) l2) in *.
  pose proof (cyc_in _ _ _ Hpn) as [Hp Hn].
  destruct (linkBefore_spec h newNode p n) as (h' & Hh' & Hlen & Hdata & Hl1 & Hl2 & Hfr & Hoth).
  { by apply (q_ring _ _ _ HQ). }
  { done. }
  { intros Heq. apply Hnew. by rewrite Heq. }
  { intros Heq. apply Hnew. by rewrite Heq. }
  exists h'. split; [done|]. split; [done|]. split; [done|].
  assert (NoDup (l1 ++ newNode :: l2)) as Hnd
    by (apply NoDup_insert_middle; [apply HQ|done]).
  split.
  - done.
  - done.
  - intros x y Hxy.
    destruct (decide (x = newNode)) as [->|Hx].
    { rewrite (cyc_succ_unique _ _ _ _ Hnd Hxy (cyc_succ l1 newNode l2)). done. }
    destruct (decide (y = newNode)) as [->|Hy].
    { rewrite (cyc_pred_unique _ _ _ _ Hnd Hxy (cyc_pred l1 newNode l2)). done. }
    apply Hfr; try done.
    + apply (q_ring _ _ _ HQ). by eapply cyc_insert_inv.
    + intros Heq. apply Hy. rewrite Heq in Hxy.
      apply (cyc_succ_unique _ _ _ _ Hnd Hxy (cyc_pred l1 newNode l2)).
  - intros i Hi.
    assert (i ∉ l1 ++ l2) as Hi' by set_solver.
    destruct (Hoth i) as [-> ->].
    + intros Heq. apply Hi'. by rewrite Heq.
    + intros Heq. apply Hi'. by rewrite Heq.
    + set_solver.
    + by apply HQ.
  - rewrite fmap_app, fmap_cons.
    erewrite (list_fmap_ext _ (expirationOf h) l1), (list_fmap_ext _ (expirationOf h) l2);
      try (intros; by apply expirationOf_data).
    rewrite (expirationOf_data h h') by done.
    apply StronglySorted_insert_middle.
    + rewrite <- fmap_app. apply HQ.
    + intros ? (i & -> & Hi)%list_elem_of_fmap. by apply Hle1.
    + intros ? (i & -> & Hi)%list_elem_of_fmap. by apply Hle2.
Qed.

Lemma nextOf_selfLink h i j :
  nextOf (selfLink i h) j =
  if decide (i = j) then (if decide (j < length h)%nat then Some i else None)
  else nextOf h j.
Proof.
  unfold nextOf, selfLink. case_decide as Hij; [subst|by rewrite list_lookup_alter_ne].
  rewrite list_lookup_alter_eq. case_decide as Hl.
  - apply lookup_lt_is_Some_2 in Hl as [nd ->]. done.
  - rewrite lookup_ge_None_2 by lia. done.
Qed.

Lemma previousOf_selfLink h i j :
  previousOf (selfLink i h) j =
  if decide (i = j) then (if decide (j < length h)%nat then Some i else None)
  else previousOf h j.
Proof.
  unfold previousOf, selfLink. case_decide as Hij; [subst|by rewrite list_lookup_alter_ne].
  rewrite list_lookup_alter_eq. case_decide as Hl.
  - apply lookup_lt_is_Some_2 in Hl as [nd ->]. done.
  - rewrite lookup_ge_None_2 by lia. done.
Qed.

Lemma nextOf_clearLinks h i j :
  nextOf (clearLinks i h) j = if decide (i = j) then None else nextOf h j.
Proof.
  unfold nextOf, clearLinks. case_decide as Hij; [subst|by rewrite list_lookup_alter_ne].
  rewrite list_lookup_alter_eq. by destruct (h !! j).
Qed.

Lemma previousOf_clearLinks h i j :
  previousOf (clearLinks i h) j = if decide (i = j) then None else previousOf h j.
Proof.
  unfold previousOf, clearLinks. case_decide as Hij; [subst|by rewrite list_lookup_alter_ne].
  rewrite list_lookup_alter_eq. by destruct (h !! j).
Qed.

Lemma dataOf_selfLink h i j : dataOf (selfLink i h) j = dataOf h j.
Proof. by apply dataOf_alter_links. Qed.

Lemma dataOf_clearLinks h i j : dataOf (clearLinks i h) j = dataOf h j.
Proof. by apply dataOf_alter_links. Qed.

(** The first node of an empty queue. *)
Lemma QueueOn_single h f newNode :
  QueueOn h f [] → (newNode < length h)%nat →
  QueueOn (selfLink newNode h) (Some newNode) [newNode].
Proof.
  intros HQ Hlt. split.
  - done.
  - apply NoDup_singleton.
  - intros x y [[= -> ->]|[]%elem_of_nil]%elem_of_cons.
    split; rewrite ?nextOf_selfLink, ?previousOf_selfLink;
      repeat case_decide; done.
  - intros i Hi. rewrite nextOf_selfLink, previousOf_selfLink.
    case_decide; [set_solver|]. apply HQ. set_solver.
  - repeat constructor.
Qed.

Ltac queueUpdate_now :=
  unfold queueUpdate, stateUpdate; split_and!; try done; try (simpl; lia);
  by exists [].

Lemma queueUpdate_refl s : queueUpdate s s.
Proof. queueUpdate_now. Qed.

Lemma queueUpdate_trans s1 s2 s3 :
  queueUpdate s1 s2 → queueUpdate s2 s3 → queueUpdate s1 s3.
Proof.
  intros (?&?&?&?&?&?&?&?&tr1&?&?) (?&?&?&?&?&?&?&?&tr2&?&?).
  unfold queueUpdate, stateUpdate; split_and!; try congruence; try lia.
  exists (tr2 ++ tr1). split; [|by apply Forall_app].
  rewrite <- app_assoc. congruence.
Qed.

Lemma ensureHostCallbackIsScheduled_spec s :
  isExecutingCallback s = true ∨ is_Some (firstExpirationTime s) →
  ∃ s', ensureHostCallbackIsScheduled s = Some s' ∧
        heap s' = heap s ∧ firstCallbackNode s' = firstCallbackNode s ∧
        queueUpdate s s'.
Proof.
  intros H. unfold ensureHostCallbackIsScheduled.
  destruct (isExecutingCallback s) eqn:Ex.
  { exists s. auto using queueUpdate_refl. }
  destruct H as [?|[e He]]; [done|]. rewrite He.
  eexists; split; [done|].
  destruct (isHostCallbackScheduled s); simpl;
    (split; [done|]; split; [done|]; unfold queueUpdate, stateUpdate;
     split_and!; try done).
  - by exists [EvRequestHostCallback e; EvCancelHostCallback]; repeat constructor.
  - by exists [EvRequestHostCallback e]; repeat constructor.
Qed.

Lemma ensureHostCallbackIsScheduled_inv s s' :
  ensureHostCallbackIsScheduled s = Some s' →
  heap s' = heap s ∧ firstCallbackNode s' = firstCallbackNode s ∧
  queueUpdate s s'.
Proof.
  unfold ensureHostCallbackIsScheduled.
  destruct (isExecutingCallback s) eqn:Ex.
  { intros [= <-]. auto using queueUpdate_refl. }
  destruct (firstExpirationTime s) as [e|]; [|done]. intros [= <-].
  destruct (isHostCallbackScheduled s); simpl;
    (split; [done|]; split; [done|]; unfold queueUpdate, stateUpdate;
     split_and!; try done).
  - by exists [EvRequestHostCallback e; EvCancelHostCallback]; repeat constructor.
  - by exists [EvRequestHostCallback e]; repeat constructor.
Qed.

Lemma split_stop (stop : nat → bool) (l : list nat) :
  ∃ l1 l2, l = l1 ++ l2 ∧ Forall (λ i, stop i = false) l1 ∧
           match l2 with [] => True | b :: _ => stop b = true end.
Proof.
  induction l as [|x l (l1 & l2 & -> & H1 & H2)].
  - by exists [], [].
  - destruct (stop x) eqn:Ex.
    + by exists [], (x :: l1 ++ l2).
    + exists (x :: l1), l2. by repeat constructor.
Qed.

Lemma firstExpirationTime_Some s i :
  firstCallbackNode s = Some i → (i < length (heap s))%nat →
  firstExpirationTime s = Some (expirationOf (heap s) i).
Proof.
  intros Hf [nd Hnd]%lookup_lt_is_Some_2. unfold firstExpirationTime.
  rewrite Hf, Hnd. simpl. by rewrite (expirationOf_lookup _ _ _ Hnd).
Qed.

(** Insertion keeps the queue: the new node goes after the nodes on which
    [stop] is false, right before the first one on which it is true. *)
Lemma insertNode_spec stop notify newNode s l :
  Queue s l → newNode ∉ l → (newNode < length (heap s))%nat →
  (∀ e, stop e = true → expirationOf (heap s) newNode ≤ e) →
  (∀ e, stop e = false → e ≤ expirationOf (heap s) newNode) →
  ∃ s' l1 l2,
    insertNode stop notify newNode s = Some s' ∧
    l = l1 ++ l2 ∧ Queue s' (l1 ++ newNode :: l2) ∧
    Forall (λ i, stop (expirationOf (heap s) i) = false) l1 ∧
    match l2 with [] => True | b :: _ => stop (expirationOf (heap s) b) = true end ∧
    length (heap s') = length (heap s) ∧
    (∀ i, dataOf (heap s') i = dataOf (heap s) i) ∧
    queueUpdate s s'.
Proof.
  intros HQ Hnew Hlt Hst Hsf.
  destruct (split_stop (λ i, stop (expirationOf (heap s) i)) l)
    as (l1 & l2 & Hl & H1 & H2).
  subst l. unfold insertNode. pose proof (q_first _ _ _ HQ) as Hf.
  destruct (head (l1 ++ l2)) as [a|] eqn:Ha.
  - (* the list was not empty *)
    rewrite Hf.
    assert (l1 ++ l2 ≠ []) as Hne by (intros E; by rewrite E in Ha).
    rewrite (findNode_spec stop s (l1 ++ l2) a l1 [] l2 a (length (heap s))
               HQ Ha eq_refl H1 H2 Ha (Queue_length _ _ HQ)).
    assert (∀ i, i ∈ l1 → expirationOf (heap s) i ≤ expirationOf (heap s) newNode) as Hle1.
    { intros i Hi. apply Hsf. by eapply (proj1 (Forall_forall _ _) H1). }
    assert (∀ i, i ∈ l2 → expirationOf (heap s) newNode ≤ expirationOf (heap s) i) as Hle2.
    { intros i Hi. destruct l2 as [|b l2]; [by apply elem_of_nil in Hi|].
      apply Hst in H2. etrans; [done|].
      apply elem_of_cons in Hi as [->|Hi]; [done|].
      pose proof (q_sorted _ _ _ HQ) as Hs. rewrite fmap_app, fmap_cons in Hs.
      apply StronglySorted_app_1_r, StronglySorted_cons in Hs as [Hs _].
      apply (proj1 (Forall_forall _ _) Hs). by apply list_elem_of_fmap_2. }
    assert (default a (head l2) = hd (hd newNode l1) l2) as Hnext.
    { destruct l2; simpl; [|done]. rewrite app_nil_r in Ha.
      destruct l1; simpl in *; congruence. }
    destruct (QueueOn_insert _ _ l1 l2 newNode HQ Hnew Hlt Hne Hle1 Hle2)
      as (h' & Hh' & Hlen & Hdata & HQ').
    (* the state before the links are set *)
    assert (∃ s1, (match head l2 with
                   | Some n =>
                       if Nat.eqb n a
                       then ensureHostCallbackIsScheduled
                              (set_firstCallbackNode (Some newNode) s)
                       else Some s
                   | None => Some s
                   end) = Some s1 ∧ heap s1 = heap s ∧
                  firstCallbackNode s1 = head (l1 ++ newNode :: l2) ∧
                  queueUpdate s s1) as (s1 & -> & Hh1 & Hf1 & Hu1).
    { destruct l2 as [|n l2]; simpl.
      - exists s. split; [done|]. split; [done|]. split; [|apply queueUpdate_refl].
        rewrite Hf. rewrite app_nil_r in Ha. destruct l1; simpl in *; congruence.
      - destruct (Nat.eqb_spec n a) as [->|Hna].
        + assert (l1 = []) as ->.
          { destruct l1 as [|c l1]; [done|]. exfalso.
            pose proof (q_nodup _ _ _ HQ) as Hnd. simpl in Ha. simplify_eq.
            simpl in Hnd. apply NoDup_cons in Hnd as [Hnd _]. apply Hnd.
            apply elem_of_app. right. by left. }
          destruct (ensureHostCallbackIsScheduled_spec
                      (set_firstCallbackNode (Some newNode) s))
            as (s1 & -> & Hh & Hf' & Hu).
          { right. erewrite firstExpirationTime_Some; done. }
          exists s1. split; [done|]. split; [done|]. split; [done|].
          eapply queueUpdate_trans; [|done]. queueUpdate_now.
        + exists s. split; [done|]. split; [done|]. split; [|apply queueUpdate_refl].
          rewrite Hf. destruct l1 as [|c l1]; simpl in *; congruence. }
    rewrite Hh1, Hnext, Hh'.
    exists (set_heap h' s1), l1, l2. split; [done|]. split; [done|].
    split. { unfold Queue. simpl. by rewrite Hf1. }
    split; [done|]. split; [done|]. split; [done|]. split; [done|].
    eapply queueUpdate_trans; [done|]. queueUpdate_now.
  - (* the list was empty *)
    rewrite Hf. apply head_None in Ha.
    destruct (app_eq_nil _ _ Ha) as [-> ->].
    pose proof (QueueOn_single _ _ newNode HQ Hlt) as HQ'.
    set (s1 := set_firstCallbackNode (Some newNode)
                 (set_heap (selfLink newNode (heap s)) s)).
    assert (length (heap s1) = length (heap s)) as Hlen
      by (simpl; unfold selfLink; by rewrite length_alter).
    destruct notify.
    + destruct (ensureHostCallbackIsScheduled_spec s1) as (s' & -> & Hh & Hf' & Hu).
      { right. erewrite firstExpirationTime_Some; [done|done|]. by rewrite Hlen. }
      exists s', [], []. split; [done|]. split; [done|].
      split; [by apply (Queue_ext s1)|]. split; [done|]. split; [done|].
      rewrite Hh. split; [done|]. split; [intros; apply dataOf_selfLink|].
      eapply (queueUpdate_trans _ s1); [|done]. queueUpdate_now.
    + exists s1, [], []. split; [done|]. split; [done|].
      split; [done|]. split; [done|]. split; [done|].
      split; [done|]. split; [intros; apply dataOf_selfLink|].
      queueUpdate_now.
Qed.

(** Taking the node [b] out of the queue. *)
Lemma QueueOn_remove h f l1 b l2 :
  QueueOn h f (l1 ++ b :: l2) →
  let p := List.last l1 (List.last l2 b) in
  let n := hd (hd b l1) l2 in
  nextOf h b = Some n ∧ previousOf h b = Some p ∧
  is_Some (h !! p) ∧ is_Some (h !! n) ∧
  (n = b ↔ l1 ++ l2 = []) ∧
  (l1 ++ l2 = [] → QueueOn (clearLinks b h) None []) ∧
  (l1 ++ l2 ≠ [] →
   QueueOn (clearLinks b (alter (set_previous (Some p)) n
                            (alter (set_next (Some n)) p h)))
           (head (l1 ++ l2)) (l1 ++ l2)).
Proof.
  intros HQ p n.
  pose proof (q_nodup _ _ _ HQ) as Hnd.
  apply NoDup_remove_middle in Hnd as [Hnd Hb].
  pose proof (q_ring _ _ _ HQ _ _ (cyc_succ l1 b l2)) as Hbn.
  pose proof (q_ring _ _ _ HQ _ _ (cyc_pred l1 b l2)) as Hpb.
  fold p in Hpb. fold n in Hbn.
  split; [apply Hbn|]. split; [apply Hpb|].
  split; [apply lookup_lt_is_Some_2; by apply linked_lt in Hpb as [? _]|].
  split; [apply lookup_lt_is_Some_2; by apply linked_lt in Hbn as [_ ?]|].
  assert (l1 ++ l2 ≠ [] → n ∈ l1 ++ l2 ∧ p ∈ l1 ++ l2) as Hin.
  { intros Hne. pose proof (cyc_closing l1 l2 b Hne) as H.
    apply cyc_in in H as [? ?]. done. }
  split; [|split].
  - split.
    + intros Hn. destruct (decide (l1 ++ l2 = [])) as [|Hne]; [done|].
      destruct (Hin Hne) as [Hn' _]. by rewrite Hn in Hn'.
    + intros E. destruct (app_eq_nil _ _ E) as [-> ->]. done.
  - intros E. destruct (app_eq_nil _ _ E) as [-> ->]. split.
    + done.
    + constructor.
    + by intros x y ?%elem_of_nil.
    + intros i _. rewrite nextOf_clearLinks, previousOf_clearLinks.
      case_decide; [done|]. apply HQ. simpl. by intros ->%list_elem_of_singleton.
    + constructor.
  - intros Hne. destruct (Hin Hne) as [Hn Hp].
    assert (n ≠ b) as Hnb by (intros E; by rewrite E in Hn).
    assert (p ≠ b) as Hpb' by (intros E; by rewrite E in Hp).
    pose proof (linked_lt _ _ _ Hbn) as [_ Hnlt].
    pose proof (linked_lt _ _ _ Hpb) as [Hplt _].
    set (h' := clearLinks b _).
    assert (∀ x, nextOf h' x =
              if decide (x = b) then None
              else if decide (x = p) then Some n else nextOf h x) as HN.
    { intros x. unfold h'. rewrite nextOf_clearLinks, nextOf_alter_previous,
        nextOf_alter_next. repeat case_decide; try done; try lia; congruence. }
    assert (∀ x, previousOf h' x =
              if decide (x = b) then None
              else if decide (x = n) then Some p else previousOf h x) as HP.
    { intros x. unfold h'. rewrite previousOf_clearLinks, previousOf_alter_previous,
        length_alter, previousOf_alter_next.
      repeat case_decide; try done; try lia; congruence. }
    split.
    + done.
    + done.
    + intros x y Hxy. pose proof (cyc_in _ _ _ Hxy) as [Hx Hy].
      assert (x ≠ b) by (intros E; by rewrite E in Hx).
      assert (y ≠ b) by (intros E; by rewrite E in Hy).
      unfold linked. rewrite HN, HP.
      destruct (cyc_remove_inv l1 b l2 x y Hxy) as [Heq|Hold].
      * injection Heq as Hxp Hyn. fold p in Hxp. fold n in Hyn.
        rewrite Hxp, Hyn in *. repeat case_decide; done.
      * apply (q_ring _ _ _ HQ) in Hold as Hl.
        repeat case_decide; try done.
        -- subst. pose proof (linked_succ_unique _ _ _ _ Hl Hpb). congruence.
        -- subst. pose proof (linked_succ_unique _ _ _ _ Hl Hpb). congruence.
        -- subst. pose proof (linked_pred_unique _ _ _ _ Hl Hbn). congruence.
    + intros i Hi. rewrite HN, HP.
      repeat case_decide; try done; try (subst; done).
      apply HQ. intros [?|[->|?]%elem_of_cons]%elem_of_app; try done;
        apply Hi, elem_of_app; auto.
    + erewrite list_fmap_ext.
      * pose proof (q_sorted _ _ _ HQ) as Hs. rewrite fmap_app, fmap_cons in Hs.
        apply StronglySorted_remove_middle in Hs. by rewrite <- fmap_app in Hs.
      * intros k i Hk. apply expirationOf_data. unfold h'.
        rewrite dataOf_clearLinks, !dataOf_alter_links; done.
Qed.

Section SchedulerFacts.
Variable clock : nat → Z.

Lemma unstable_scheduleCallback_unfold cb options s :
  unstable_scheduleCallback clock cb options s =
  let s0 := if negb (currentEventStartTime s =? -1) then s
            else set_clockReads (S (clockReads s)) s in
  match insertNode (λ e, e >? scheduledExpiration clock options s) true
          (length (heap s))
          (set_heap (heap s ++ [mkNode cb (currentPriorityLevel s)
                                  (scheduledExpiration clock options s) None None]) s0)
  with
  | None => None
  | Some s2 => Some (s2, length (heap s))
  end.
Proof.
  unfold unstable_scheduleCallback, scheduledExpiration, scheduledStart,
    getCurrentTime.
  destruct (negb (currentEventStartTime s =? -1)); reflexivity.
Qed.

Lemma unstable_scheduleCallback_spec cb options s l :
  Queue s l →
  ∃ s' l1 l2,
    unstable_scheduleCallback clock cb options s = Some (s', length (heap s)) ∧
    l = l1 ++ l2 ∧ Queue s' (l1 ++ length (heap s) :: l2) ∧
    (∀ i, i ∈ l1 → expirationOf (heap s) i ≤ scheduledExpiration clock options s) ∧
    (∀ i, i ∈ l2 → scheduledExpiration clock options s < expirationOf (heap s) i) ∧
    dataOf (heap s') (length (heap s)) =
      Some (cb, currentPriorityLevel s, scheduledExpiration clock options s) ∧
    length (heap s') = S (length (heap s)) ∧
    (∀ i, (i < length (heap s))%nat → dataOf (heap s') i = dataOf (heap s) i) ∧
    queueUpdate s s'.
Proof.
  intros HQ. rewrite unstable_scheduleCallback_unfold.
  set (e := scheduledExpiration clock options s).
  set (s0 := if negb (currentEventStartTime s =? -1) then s
             else set_clockReads (S (clockReads s)) s).
  assert (heap s0 = heap s ∧ firstCallbackNode s0 = firstCallbackNode s ∧
          queueUpdate s s0) as (Hh0 & Hf0 & Hu0).
  { unfold s0. destruct (negb _); split_and!; try done; queueUpdate_now. }
  set (nd := mkNode cb (currentPriorityLevel s) e None None).
  cbv zeta.
  assert (Queue (set_heap (heap s ++ [nd]) s0) l) as HQ1.
  { rewrite <- Hh0. apply Queue_alloc. by apply (Queue_ext s). }
  assert (expirationOf (heap s ++ [nd]) (length (heap s)) = e) as He1.
  { unfold expirationOf. rewrite lookup_app_r by lia. by rewrite Nat.sub_diag. }
  destruct (insertNode_spec (λ e', e' >? e) true (length (heap s))
              (set_heap (heap s ++ [nd]) s0) l)
    as (s' & l1 & l2 & Hins & Hl & HQ' & H1 & H2 & Hlen & Hdata & Hu); try done.
  { intros Hin%(Queue_lt _ _ HQ). lia. }
  { simpl. rewrite length_app. simpl. lia. }
  { simpl. rewrite He1. intros e' ?. lia. }
  { simpl. rewrite He1. intros e' ?. lia. }
  simpl in *.
  assert (∀ i, i ∈ l → expirationOf (heap s ++ [nd]) i = expirationOf (heap s) i)
    as Hold.
  { intros i Hi%(Queue_lt _ _ HQ). apply expirationOf_data.
    by apply dataOf_app_old. }
  exists s', l1, l2. rewrite Hins. split_and!; try done.
  - intros i Hi. rewrite <- Hold by (subst l; set_solver).
    apply (proj1 (Forall_forall _ _) H1) in Hi. simpl in Hi. lia.
  - intros i Hi. rewrite <- Hold by (subst l; set_solver).
    destruct l2 as [|b l2]; [by apply elem_of_nil in Hi|].
    assert (e < expirationOf (heap s ++ [nd]) b) by lia.
    apply elem_of_cons in Hi as [->|Hi]; [done|].
    pose proof (q_sorted _ _ _ HQ1) as Hs. simpl in Hs.
    rewrite Hl, fmap_app, fmap_cons in Hs.
    apply StronglySorted_app_1_r, StronglySorted_cons in Hs as [Hs _].
    eapply Z.lt_le_trans; [done|].
    apply (proj1 (Forall_forall _ _) Hs). by apply list_elem_of_fmap_2.
  - rewrite Hdata. apply dataOf_app_new.
  - rewrite Hlen, length_app. simpl. lia.
  - intros i Hi. rewrite Hdata. by apply dataOf_app_old.
  - eapply queueUpdate_trans; [apply Hu0|].
    eapply queueUpdate_trans; [|apply Hu]. queueUpdate_now.
Qed.

(** Lines 87-103 of flushFirstCallback take the first node out and leave
    a well-formed queue. *)
Lemma unlinkFirst_spec s b l :
  Queue s (b :: l) →
  ∃ nd s1, unlinkFirst s = Some (b, nd, s1) ∧ heap s !! b = Some nd ∧
           Queue s1 l ∧
           length (heap s1) = length (heap s) ∧
           (∀ i, dataOf (heap s1) i = dataOf (heap s) i) ∧
           queueUpdate s s1 ∧ trace s1 = trace s.
Proof.
  intros HQ.
  destruct (QueueOn_remove _ _ [] b l HQ)
    as (Hn & Hp & [pd Hpd] & [nd' Hnd'] & Hsingle & Hempty & Hrest).
  simpl in *.
  destruct (Queue_lookup _ _ HQ b) as [nd Hnd]; [by left|].
  unfold unlinkFirst. rewrite (q_first _ _ _ HQ). simpl. rewrite Hnd.
  rewrite (nextOf_lookup _ _ _ Hnd) in Hn. rewrite Hn.
  rewrite (previousOf_lookup _ _ _ Hnd) in Hp. rewrite Hp.
  destruct (Nat.eqb_spec b (hd b l)) as [E|E].
  - symmetry in E. apply Hsingle in E as ->.
    exists nd. eexists. split; [done|]. split; [done|].
    split; [by apply Hempty|]. simpl. unfold clearLinks.
    rewrite length_alter. split; [done|].
    split; [intros; by apply dataOf_alter_links|]. split; [queueUpdate_now|done].
  - assert (l ≠ []) as Hne by (intros El; apply E; symmetry; by apply Hsingle).
    specialize (Hrest Hne). rewrite Hpd, Hnd'.
    exists nd. eexists. split; [done|]. split; [done|].
    split. { unfold Queue. simpl. destruct l; done. }
    simpl. unfold clearLinks. rewrite !length_alter. split; [done|].
    split; [intros; by rewrite !dataOf_alter_links|].
    split; [queueUpdate_now|done].
Qed.

Lemma unstable_cancelCallback_spec s l1 b l2 :
  Queue s (l1 ++ b :: l2) →
  ∃ s', unstable_cancelCallback b s = Some s' ∧ Queue s' (l1 ++ l2) ∧
        length (heap s') = length (heap s) ∧
        (∀ i, dataOf (heap s') i = dataOf (heap s) i) ∧
        stateUpdate (λ e, e = EvCancelled b) s s' ∧
        trace s' = EvCancelled b :: trace s.
Proof.
  intros HQ.
  destruct (QueueOn_remove _ _ l1 b l2 HQ)
    as (Hn & Hp & [pd Hpd] & [nd' Hnd'] & Hsingle & Hempty & Hrest).
  simpl in *.
  destruct (Queue_lookup _ _ HQ b) as [nd Hnd]; [apply elem_of_app; right; by left|].
  unfold unstable_cancelCallback. rewrite Hnd.
  rewrite (nextOf_lookup _ _ _ Hnd) in Hn. rewrite Hn.
  rewrite (previousOf_lookup _ _ _ Hnd) in Hp. rewrite Hp.
  assert (stateUpdate (λ e, e = EvCancelled b) s
            (emit (EvCancelled b) s)) as Hu.
  { unfold stateUpdate; split_and!; try done.
    exists [EvCancelled b]. by repeat constructor. }
  destruct (Nat.eqb_spec (hd (hd b l1) l2) b) as [E|E].
  - apply Hsingle in E as E'. rewrite E'.
    eexists. split; [done|]. split; [by apply Hempty|]. simpl.
    unfold clearLinks. rewrite length_alter. split; [done|].
    split; [intros; by apply dataOf_alter_links|]. done.
  - assert (l1 ++ l2 ≠ []) as Hne by (intros El; by apply E, Hsingle).
    specialize (Hrest Hne).
    assert (firstCallbackNode s = Some b → Some (hd (hd b l1) l2) = head (l1 ++ l2))
      as Hfirst.
    { rewrite (q_first _ _ _ HQ). intros Hb.
      destruct l1 as [|c l1]; simpl in *; [by destruct l2|].
      simplify_eq. pose proof (q_nodup _ _ _ HQ) as Hnd''.
      simpl in Hnd''. apply NoDup_cons in Hnd'' as [Hnd'' _].
      destruct Hnd''. apply elem_of_app; right; by left. }
    assert (firstCallbackNode s ≠ Some b → firstCallbackNode s = head (l1 ++ l2))
      as Hother.
    { rewrite (q_first _ _ _ HQ). destruct l1; simpl in *; done. }
    case_bool_decide as Hb; simpl; rewrite Hpd, Hnd';
      [rewrite <- (Hfirst Hb) in Hrest|rewrite <- (Hother Hb) in Hrest];
      (eexists; split; [done|]; split; [exact Hrest|]);
      simpl; unfold clearLinks; rewrite !length_alter; (split; [done|]);
      (split; [intros; by rewrite !dataOf_alter_links|]);
      (split; [|done]); unfold stateUpdate; split_and!; try done;
      exists [EvCancelled b]; by repeat constructor.
Qed.

Lemma unstable_cancelCallback_idle s l b :
  Queue s l → b ∉ l → (b < length (heap s))%nat →
  unstable_cancelCallback b s = Some s.
Proof.
  intros HQ Hb [nd Hnd]%lookup_lt_is_Some_2.
  destruct (q_free _ _ _ HQ b Hb) as [Hn _].
  rewrite (nextOf_lookup _ _ _ Hnd) in Hn.
  unfold unstable_cancelCallback. by rewrite Hnd, Hn.
Qed.
End SchedulerFacts.

(** ** A proof scheme for properties that every run preserves R *)

Section ExecRel.
Variable clock : nat → Z.
Variable hostYield : nat → bool.

Lemma exec_unfold n p s :
  exec clock hostYield (S n) p s =
  execBody clock hostYield (exec clock hostYield n) n
    (exec clock hostYield (S n)) p s.
Proof. by destruct p. Qed.

Variable R : State → State → Prop.

Hypothesis R_refl : ∀ s, R s s.
Hypothesis R_trans : ∀ s1 s2 s3, R s1 s2 → R s2 s3 → R s1 s3.
Hypothesis R_schedule : ∀ cb options s s' i,
  unstable_scheduleCallback clock cb options s = Some (s', i) → R s s'.
Hypothesis R_cancel : ∀ i s s', unstable_cancelCallback i s = Some s' → R s s'.
Hypothesis R_shouldYield : ∀ s, R s (unstable_shouldYield hostYield s).2.
Hypothesis R_pause : ∀ s, R s (unstable_pauseExecution s).
Hypothesis R_continue : ∀ s s', unstable_continueExecution s = Some s' → R s s'.
Hypothesis R_now : ∀ s, R s (getCurrentTime clock s).2.
Hypothesis R_flushFirst : ∀ run,
  (∀ p, preserves R (run p)) → preserves R (flushFirstCallback run).
Hypothesis R_immediate : ∀ s s1 s2,
  R (set_isExecutingCallback true s) s1 →
  afterFlush (set_isExecutingCallback false s1) = Some s2 → R s s2.
Hypothesis R_event : ∀ s pl s2,
  R (set_currentEventStartTime (clock (clockReads s))
       (set_currentPriorityLevel pl (set_clockReads (S (clockReads s)) s))) s2 →
  R s (set_currentEventStartTime (currentEventStartTime s)
         (set_currentPriorityLevel (currentPriorityLevel s) s2)).

Section WithRun.
Variable run : prog → State → Outcome.
Hypothesis Hrun : ∀ p, preserves R (run p).

Lemma flushImmediateLoop_rel budget : preserves R (flushImmediateLoop run budget).
Proof.
  induction budget as [|budget IH]; intros s s' c; simpl; [done|].
  destruct (flushFirstCallback run s) as [[s1 [v|]]|] eqn:E; [| |done].
  - apply R_flushFirst in E; [|done].
    destruct (firstIsImmediate s1).
    + intros H%IH. by eapply R_trans.
    + by intros [= <- <-].
  - apply R_flushFirst in E; [|done]. by intros [= <- <-].
Qed.

Lemma flushImmediateWork_rel budget : preserves R (flushImmediateWork run budget).
Proof.
  intros s s' c. unfold flushImmediateWork.
  destruct (_ && _); [|by intros [= <- <-]].
  destruct (flushImmediateLoop _ _ _) as [[s1 c1]|] eqn:E; [|done].
  apply flushImmediateLoop_rel in E.
  destruct (afterFlush _) as [s2|] eqn:E2; [|done].
  intros [= <- <-]. by eapply R_immediate.
Qed.

Lemma withEvent_rel budget pl body :
  preserves R body → preserves R (withEvent clock run budget pl body).
Proof.
  intros Hbody s s' c. unfold withEvent, getCurrentTime.
  destruct (body _) as [[s2 c2]|] eqn:E; [|done].
  apply Hbody, R_event in E.
  destruct (flushImmediateWork _ _ _) as [[s4 c4]|] eqn:E4; [|done].
  apply flushImmediateWork_rel in E4.
  destruct c4; intros [= <- <-]; by eapply R_trans.
Qed.

Lemma execBody_rel budget self p :
  children (λ q, preserves R (self q)) p →
  preserves R (execBody clock hostYield run budget self p).
Proof.
  intros Hself s s' c. destruct p; simpl in *.
  - by intros [= <- <-].
  - by intros [= <- <-].
  - by intros [= <- <-].
  - destruct (unstable_scheduleCallback _ _ _ _) as [[s1 i]|] eqn:E; [|done].
    intros H%Hself. apply R_schedule in E. by eapply R_trans.
  - destruct (unstable_cancelCallback _ _) as [s1|] eqn:E; [|done].
    intros H%Hself. apply R_cancel in E. by eapply R_trans.
  - destruct Hself as [Hh Hk].
    destruct (unstable_runWithPriority _ _ _ _ _ _) as [[s1 [v|]]|] eqn:E; [| |done].
    + apply withEvent_rel in E; [|done]. intros H%Hk. by eapply R_trans.
    + apply withEvent_rel in E; [|done]. by intros [= <- <-].
  - destruct Hself as [Hh Hk].
    destruct (unstable_next _ _ _ _ _) as [[s1 [v|]]|] eqn:E; [| |done].
    + apply withEvent_rel in E; [|done]. intros H%Hk. by eapply R_trans.
    + apply withEvent_rel in E; [|done]. by intros [= <- <-].
  - destruct Hself as [Hh Hk].
    destruct (callWrapped _ _ _ _ _ _) as [[s1 [v|]]|] eqn:E; [| |done].
    + apply withEvent_rel in E; [|done]. intros H%Hk. by eapply R_trans.
    + apply withEvent_rel in E; [|done]. by intros [= <- <-].
  - apply Hself.
  - pose proof (R_shouldYield s) as H1.
    destruct (unstable_shouldYield hostYield s) as [b s1].
    intros H%Hself. by eapply R_trans.
  - intros H%Hself. eapply R_trans; [apply R_pause|done].
  - destruct (unstable_continueExecution s) as [s1|] eqn:E; [|done].
    intros H%Hself. apply R_continue in E. by eapply R_trans.
  - apply Hself.
  - intros H%Hself. eapply R_trans; [apply (R_now s)|done].
  - destruct Hself as [Hh Hk].
    destruct (self p1 s) as [[s1 c1]|] eqn:E; [|done].
    apply Hh in E. intros H%Hk. by eapply R_trans.
Qed.
End WithRun.

Theorem exec_rel n p : preserves R (exec clock hostYield n p).
Proof.
  revert p. induction n as [|n IHn]; [done|].
  induction p; intros s s' c; rewrite exec_unfold;
    apply execBody_rel; simpl; auto.
Qed.

Lemma flushFirstCallback_exec_rel n :
  preserves R (flushFirstCallback (exec clock hostYield n)).
Proof. apply R_flushFirst. intros p. apply exec_rel. Qed.

Lemma flushImmediateWork_exec_rel n budget :
  preserves R (flushImmediateWork (exec clock hostYield n) budget).
Proof. apply flushImmediateWork_rel. intros p. apply exec_rel. Qed.

(** The loops of flushWork. *)
Variable enableSchedulerDebugging : bool.

Lemma flushExpired_rel n budget currentTime :
  preserves R (flushExpired enableSchedulerDebugging clock hostYield n budget
               currentTime).
Proof.
  induction budget as [|budget IH]; intros s s' c; simpl; [done|].
  destruct (flushFirstCallback _ s) as [[s1 [v|]]|] eqn:E; [| |done].
  - apply flushFirstCallback_exec_rel in E.
    destruct (match firstExpirationTime s1 with Some _ => _ | None => _ end).
    + intros H%IH. by eapply R_trans.
    + by intros [= <- <-].
  - apply flushFirstCallback_exec_rel in E. by intros [= <- <-].
Qed.

Lemma flushTimedOut_rel n budget :
  preserves R (flushTimedOut enableSchedulerDebugging clock hostYield n budget).
Proof.
  induction budget as [|budget IH]; intros s s' c; simpl; [done|].
  destruct (firstCallbackNode s); [|by intros [= <- <-]].
  destruct (paused _ _); [by intros [= <- <-]|].
  destruct (firstExpirationTime _) as [e|]; [|done].
  destruct (e <=? _); [|intros [= <- <-]; apply (R_now s)].
  destruct (flushExpired _ _ _ _ _ _ _) as [[s2 [v|]]|] eqn:E; [| |done].
  - apply flushExpired_rel in E. intros H%IH.
    eapply R_trans; [apply (R_now s)|]. by eapply R_trans.
  - apply flushExpired_rel in E. intros [= <- <-].
    eapply R_trans; [apply (R_now s)|done].
Qed.

Section UntilYield.
Hypothesis R_yieldToHost : ∀ s, R s (shouldYieldToHost hostYield s).2.

Lemma flushUntilYield_rel n budget :
  preserves R (flushUntilYield enableSchedulerDebugging clock hostYield n budget).
Proof.
  induction budget as [|budget IH]; intros s s' c; simpl; [done|].
  destruct (paused _ _); [by intros [= <- <-]|].
  destruct (flushFirstCallback _ s) as [[s1 [v|]]|] eqn:E; [| |done].
  - apply flushFirstCallback_exec_rel in E.
    destruct (firstCallbackNode s1); [|by intros [= <- <-]].
    pose proof (R_yieldToHost s1) as Hy. simpl in Hy.
    destruct (negb _).
    + intros H%IH. eapply R_trans; [done|]. by eapply R_trans.
    + intros [= <- <-]. by eapply R_trans.
  - apply flushFirstCallback_exec_rel in E. by intros [= <- <-].
Qed.

Lemma flushWorkTry_rel n didTimeout :
  preserves R (flushWorkTry enableSchedulerDebugging clock hostYield n didTimeout).
Proof.
  intros s s' c. unfold flushWorkTry. destruct didTimeout.
  - apply flushTimedOut_rel.
  - destruct (firstCallbackNode s); [apply flushUntilYield_rel|].
    by intros [= <- <-].
Qed.

Hypothesis R_work : ∀ s b s1 s2,
  R (set_currentDidTimeout b (set_isExecutingCallback true s)) s1 →
  afterFlush
    (set_currentDidTimeout (currentDidTimeout s)
       (set_isExecutingCallback false s1)) = Some s2 →
  R s s2.

Theorem flushWork_rel n didTimeout :
  preserves R (flushWork enableSchedulerDebugging clock hostYield n didTimeout).
Proof.
  intros s s' c. unfold flushWork, flushWorkFinally.
  destruct (paused _ _); [by intros [= <- <-]|].
  destruct (flushWorkTry _ _ _ _ _ _) as [[s1 c1]|] eqn:E; [|done].
  apply flushWorkTry_rel in E.
  destruct (afterFlush _) as [s2|] eqn:E2; [|done].
  apply (R_work _ _ _ _ E) in E2.
  destruct (flushImmediateWork _ _ _) as [[s3 c3]|] eqn:E3; [|done].
  apply flushImmediateWork_exec_rel in E3.
  destruct c3; intros [= <- <-]; by eapply R_trans.
Qed.
End UntilYield.
End ExecRel.

(** ** What a run leaves as it found it *)

Ltac stateUpdate_by tr :=
  unfold queueUpdate, stateUpdate; split_and!; try done; try (simpl; lia);
  exists tr; split; [done|by repeat constructor].

Lemma stateUpdate_refl P s : stateUpdate P s s.
Proof. unfold stateUpdate; split_and!; try done. by exists []. Qed.

Lemma stateUpdate_trans P s1 s2 s3 :
  stateUpdate P s1 s2 → stateUpdate P s2 s3 → stateUpdate P s1 s3.
Proof.
  intros (?&?&?&?&?&?&?&?&tr1&?&?) (?&?&?&?&?&?&?&?&tr2&?&?).
  unfold stateUpdate; split_and!; try congruence; try lia.
  exists (tr2 ++ tr1). split; [|by apply Forall_app].
  rewrite <- app_assoc. congruence.
Qed.

Lemma stateUpdate_weaken (P Q : Event → Prop) s s' :
  (∀ e, P e → Q e) → stateUpdate P s s' → stateUpdate Q s s'.
Proof.
  intros HPQ (?&?&?&?&?&?&?&?&tr&?&?).
  unfold stateUpdate; split_and!; try done.
  exists tr. split; [done|]. by eapply Forall_impl.
Qed.

Lemma insertNode_inv stop notify newNode s s' :
  insertNode stop notify newNode s = Some s' → queueUpdate s s'.
Proof.
  unfold insertNode. destruct (firstCallbackNode s) as [first|].
  - destruct (findNode _ _ _ _ _) as [found|]; [|done].
    destruct (match found with Some _ => _ | None => _ end) as [s1|] eqn:E1; [|done].
    destruct (linkBefore _ _ _) as [h|]; [|done]. intros [= <-].
    assert (queueUpdate s s1) as Hu.
    { destruct found as [n|]; [|by simplify_eq; apply queueUpdate_refl].
      destruct (Nat.eqb n first); [|by simplify_eq; apply queueUpdate_refl].
      apply ensureHostCallbackIsScheduled_inv in E1 as (_ & _ & Hu).
      eapply queueUpdate_trans; [|done]. queueUpdate_now. }
    eapply queueUpdate_trans; [done|]. queueUpdate_now.
  - destruct notify.
    + intros (_ & _ & Hu)%ensureHostCallbackIsScheduled_inv.
      eapply queueUpdate_trans; [|done]. queueUpdate_now.
    + intros [= <-]. queueUpdate_now.
Qed.

Lemma insertNode_length stop notify newNode s s' :
  insertNode stop notify newNode s = Some s' →
  length (heap s') = length (heap s).
Proof.
  unfold insertNode. destruct (firstCallbackNode s) as [first|].
  - destruct (findNode _ _ _ _ _) as [found|]; [|done].
    destruct (match found with Some _ => _ | None => _ end) as [s1|] eqn:E1; [|done].
    destruct (linkBefore _ _ _) as [h|] eqn:El; [|done]. intros [= <-].
    assert (heap s1 = heap s) as Hh.
    { destruct found as [n|]; [|by simplify_eq].
      destruct (Nat.eqb n first); [|by simplify_eq].
      by apply ensureHostCallbackIsScheduled_inv in E1 as (-> & _ & _). }
    simpl. unfold linkBefore in El. rewrite Hh in El.
    repeat case_match; simplify_eq; by rewrite !length_alter.
  - destruct notify.
    + intros (-> & _ & _)%ensureHostCallbackIsScheduled_inv.
      simpl. unfold selfLink. by rewrite length_alter.
    + intros [= <-]. simpl. unfold selfLink. by rewrite length_alter.
Qed.

Section Inversions.
Variable clock : nat → Z.
Variable hostYield : nat → bool.

Lemma unstable_scheduleCallback_inv cb options s s' i :
  unstable_scheduleCallback clock cb options s = Some (s', i) →
  queueUpdate s s' ∧ i = length (heap s) ∧
  length (heap s') = S (length (heap s)).
Proof.
  rewrite unstable_scheduleCallback_unfold. cbv zeta.
  destruct (insertNode _ _ _ _) as [s2|] eqn:E; [|done]. intros [= <- <-].
  apply insertNode_inv in E as Hu. apply insertNode_length in E as Hl.
  split; [|split; [done|]].
  - eapply queueUpdate_trans; [|done]. destruct (negb _); queueUpdate_now.
  - rewrite Hl. simpl. rewrite length_app. simpl. lia.
Qed.

Lemma unstable_cancelCallback_inv i s s' :
  unstable_cancelCallback i s = Some s' →
  stateUpdate (λ e, e = EvCancelled i) s s' ∧
  length (heap s') = length (heap s).
Proof.
  unfold unstable_cancelCallback.
  destruct (heap s !! i) as [nd|]; [|done].
  destruct (next nd) as [n|]; [|intros [= <-]; split; [apply stateUpdate_refl|done]].
  destruct (Nat.eqb n i).
  - intros [= <-]. split.
    + stateUpdate_by [EvCancelled i].
    + simpl. unfold clearLinks. by rewrite length_alter.
  - destruct (previous nd) as [p|]; [|done].
    repeat case_match; try done; intros [= <-]; simplify_eq/=; split;
      try (stateUpdate_by [EvCancelled i]);
      simpl; unfold clearLinks; by rewrite !length_alter.
Qed.

Lemma unstable_continueExecution_inv s s' :
  unstable_continueExecution s = Some s' →
  heap s' = heap s ∧ firstCallbackNode s' = firstCallbackNode s ∧
  queueUpdate (set_isSchedulerPaused false s) s'.
Proof.
  unfold unstable_continueExecution. simpl.
  destruct (firstCallbackNode s) eqn:Ef.
  - intros (? & ? & ?)%ensureHostCallbackIsScheduled_inv. simpl in *.
    split_and!; congruence.
  - intros [= <-]. simpl. split; [done|]. split; [done|]. apply queueUpdate_refl.
Qed.

Lemma afterFlush_inv s s' :
  afterFlush s = Some s' →
  heap s' = heap s ∧ firstCallbackNode s' = firstCallbackNode s ∧
  queueUpdate s s'.
Proof.
  unfold afterFlush. destruct (firstCallbackNode s) eqn:Ef.
  - intros H%ensureHostCallbackIsScheduled_inv. by rewrite Ef in H.
  - intros [= <-]. split; [done|]. split; [done|]. queueUpdate_now.
Qed.

Lemma unlinkFirst_inv s b nd s1 :
  unlinkFirst s = Some (b, nd, s1) →
  firstCallbackNode s = Some b ∧ heap s !! b = Some nd ∧
  stateUpdate (λ _, False) s s1 ∧ trace s1 = trace s ∧
  length (heap s1) = length (heap s).
Proof.
  unfold unlinkFirst.
  destruct (firstCallbackNode s) as [f|]; [|done].
  destruct (heap s !! f) as [nd'|] eqn:End; [|done].
  destruct (next nd') as [n|]; [|done].
  destruct (Nat.eqb f n).
  - intros [= <- <- <-]. split_and!; try done.
    + stateUpdate_by (@nil Event).
    + simpl. unfold clearLinks. by rewrite length_alter.
  - repeat case_match; try done; intros [= <- <- <-]; simplify_eq/=;
      split_and!; try done; try (stateUpdate_by (@nil Event));
      simpl; unfold clearLinks; by rewrite !length_alter.
Qed.
End Inversions.

Lemma Framed_refl q s : Framed q s s.
Proof. unfold Framed; split_and!; try done. by exists []. Qed.

Lemma Framed_trans q s1 s2 s3 : Framed q s1 s2 → Framed q s2 s3 → Framed q s1 s3.
Proof.
  intros (?&?&?&Hd&tr1&?&Hq1) (?&?&?&?&tr2&?&Hq2).
  unfold Framed; split_and!; try congruence.
  exists (tr2 ++ tr1). split; [rewrite <- app_assoc; congruence|].
  intros ? ?. apply Forall_app. split; [apply Hq2|apply Hq1]; congruence.
Qed.

Lemma stateUpdate_Framed q P s s' :
  (∀ e, P e → notYield e) → stateUpdate P s s' → Framed q s s'.
Proof.
  intros HP (?&?&?&?&?&?&?&?&tr&?&?).
  unfold Framed; split_and!; try done.
  exists tr. split; [done|]. intros _ _. by eapply Forall_impl.
Qed.

Lemma hostEvent_notYield e : hostEvent e → notYield e.
Proof. by destruct e. Qed.

Lemma queueUpdate_Framed q s s' : queueUpdate s s' → Framed q s s'.
Proof. apply stateUpdate_Framed, hostEvent_notYield. Qed.

Section FramedFacts.
Variable clock : nat → Z.
Variable hostYield : nat → bool.
Variable q : bool.

Lemma Framed_schedule cb options s s' i :
  unstable_scheduleCallback clock cb options s = Some (s', i) → Framed q s s'.
Proof. intros [? _]%unstable_scheduleCallback_inv. by apply queueUpdate_Framed. Qed.

Lemma Framed_cancel i s s' :
  unstable_cancelCallback i s = Some s' → Framed q s s'.
Proof.
  intros [H _]%unstable_cancelCallback_inv.
  eapply stateUpdate_Framed; [|done]. by intros ? ->.
Qed.

Lemma Framed_shouldYield s : Framed q s (unstable_shouldYield hostYield s).2.
Proof.
  unfold unstable_shouldYield. destruct (currentDidTimeout s) eqn:Ed; simpl.
  - apply Framed_refl.
  - destruct (match firstExpirationTime s with Some _ => _ | None => _ end);
      simpl; [apply Framed_refl|].
    unfold Framed; split_and!; try done.
    exists [EvShouldYieldToHost (hostYield (yieldReads s))]. split; [done|].
    intros _. by rewrite Ed.
Qed.

Lemma Framed_pause s : Framed q s (unstable_pauseExecution s).
Proof. unfold Framed; split_and!; try done. by exists []. Qed.

Lemma Framed_continue s s' :
  unstable_continueExecution s = Some s' → Framed q s s'.
Proof.
  intros (_ & _ & H)%unstable_continueExecution_inv.
  apply (queueUpdate_Framed q) in H.
  eapply Framed_trans; [|done]. unfold Framed; split_and!; try done. by exists [].
Qed.

Lemma Framed_now s : Framed q s (getCurrentTime clock s).2.
Proof. unfold Framed; split_and!; try done. by exists []. Qed.

Lemma Framed_flushFirst run :
  (∀ p s s' c, run p s = Some (s', c) → Framed q s s') →
  ∀ s s' c, flushFirstCallback run s = Some (s', c) → Framed q s s'.
Proof.
  intros Hrun s s' c. unfold flushFirstCallback.
  destruct (unlinkFirst s) as [[[b nd] s1]|] eqn:E1; [|done].
  apply unlinkFirst_inv in E1 as (_ & _ & Hu & Ht & _).
  destruct (run _ _) as [[s3 c3]|] eqn:E3; [|done].
  apply Hrun in E3 as (H1 & H2 & H3 & H4 & tr & H5 & H6). simpl in *.
  destruct Hu as (?&?&?&?&?&?&?&?&_).
  set (s4 := set_currentExpirationTime _ _).
  assert (Framed q s s4) as HF.
  { unfold Framed; split_and!; simpl; try congruence.
    exists (tr ++ [EvInvoke b]). rewrite <- app_assoc. simpl. split; [congruence|].
    intros ? ?. apply Forall_app. split; [apply H6; congruence|by repeat constructor]. }
  destruct c3 as [[k|]|]; try (by intros [= <- <-]).
  unfold insertContinuation.
  destruct (insertNode _ _ _ _) as [s5|] eqn:E5; [|done]. intros [= <- <-].
  apply insertNode_inv, (queueUpdate_Framed q) in E5.
  eapply Framed_trans; [done|]. eapply Framed_trans; [|done].
  unfold Framed; split_and!; try done. by exists [].
Qed.

Lemma Framed_immediate s s1 s2 :
  Framed q (set_isExecutingCallback true s) s1 →
  afterFlush (set_isExecutingCallback false s1) = Some s2 → Framed q s s2.
Proof.
  intros H1 (_ & _ & H2)%afterFlush_inv. apply (queueUpdate_Framed q) in H2.
  eapply Framed_trans; [|done]. destruct H1 as (?&?&?&?&tr&?&?).
  unfold Framed; split_and!; try done. by exists tr.
Qed.

Lemma Framed_event s pl s2 :
  Framed q (set_currentEventStartTime (clock (clockReads s))
              (set_currentPriorityLevel pl (set_clockReads (S (clockReads s)) s))) s2 →
  Framed q s (set_currentEventStartTime (currentEventStartTime s)
                (set_currentPriorityLevel (currentPriorityLevel s) s2)).
Proof.
  intros (?&?&?&?&tr&?&?). unfold Framed; split_and!; try done. by exists tr.
Qed.

(** Every run of a function body restores the ambient state. *)
Theorem exec_Framed n p s s' c :
  exec clock hostYield n p s = Some (s', c) → Framed q s s'.
Proof.
  exact (exec_rel clock hostYield (Framed q) (Framed_refl q) (Framed_trans q)
           Framed_schedule Framed_cancel Framed_shouldYield Framed_pause
           Framed_continue Framed_now Framed_flushFirst Framed_immediate
           Framed_event n p s s' c).
Qed.
End FramedFacts.

(** ** The queue across a run *)

Lemma Evolves_refl s : Evolves s s.
Proof. intros l HQ. exists l, []. split_and!; auto. by intros i ?%elem_of_nil. Qed.

Lemma Evolves_trans s1 s2 s3 : Evolves s1 s2 → Evolves s2 s3 → Evolves s1 s3.
Proof.
  intros H12 H23 l HQ.
  destruct (H12 l HQ) as (l2 & tr2 & HQ2 & Ht2 & Hl2 & Hd2 & Hi2 & Ho2 & Hv2).
  destruct (H23 l2 HQ2) as (l3 & tr3 & HQ3 & Ht3 & Hl3 & Hd3 & Hi3 & Ho3 & Hv3).
  exists l3, (tr3 ++ tr2). split_and!.
  - done.
  - rewrite <- app_assoc. congruence.
  - lia.
  - intros i Hi. rewrite Hd3 by lia. by apply Hd2.
  - intros i [Hi|Hi]%Hi3; [|right; lia].
    apply Hi2 in Hi as [?|?]; auto.
  - intros i [Hi|[Hi|Hi]]%Ho2.
    + apply Ho3 in Hi as [?|[?|?]]; auto;
        right; [left|right]; apply elem_of_app; auto.
    + right; left; apply elem_of_app; auto.
    + right; right; apply elem_of_app; auto.
  - intros i [Hi|Hi]%elem_of_app.
    + apply Hv3 in Hi as [Hi|Hi]; [|right; lia].
      apply Hi2 in Hi as [?|?]; auto.
    + by apply Hv2.
Qed.

(** A step that keeps the store and the first node, and records neither a
    call nor a cancellation. *)
Lemma Evolves_same s s' tr :
  heap s' = heap s → firstCallbackNode s' = firstCallbackNode s →
  trace s' = tr ++ trace s →
  (∀ i, EvInvoke i ∉ tr) →
  Evolves s s'.
Proof.
  intros Hh Hf Ht Hn l HQ. exists l, tr. rewrite Hh. split_and!; auto.
  - by apply (Queue_ext s).
  - intros i Hi. by apply Hn in Hi.
Qed.

Lemma hostEvent_not_invoke tr i : Forall hostEvent tr → EvInvoke i ∉ tr.
Proof.
  intros H Hi. by apply (proj1 (Forall_forall _ _) H) in Hi.
Qed.

Lemma Evolves_queueUpdate s s' :
  heap s' = heap s → firstCallbackNode s' = firstCallbackNode s →
  queueUpdate s s' → Evolves s s'.
Proof.
  intros Hh Hf (?&?&?&?&?&?&?&?&tr&Ht&Hp).
  eapply Evolves_same; eauto using hostEvent_not_invoke.
Qed.

Section EvolvesFacts.
Variable clock : nat → Z.
Variable hostYield : nat → bool.

Lemma Evolves_schedule cb options s s' i :
  unstable_scheduleCallback clock cb options s = Some (s', i) → Evolves s s'.
Proof.
  intros E l HQ.
  destruct (unstable_scheduleCallback_spec clock cb options s l HQ)
    as (s'' & l1 & l2 & E' & -> & HQ' & _ & _ & _ & Hlen & Hdata & Hu).
  rewrite E in E'. simplify_eq.
  destruct Hu as (?&?&?&?&?&?&?&?&tr&Ht&Hp).
  exists (l1 ++ length (heap s) :: l2), tr. split_and!; auto.
  - lia.
  - intros i [?|[->|?]%elem_of_cons]%elem_of_app; auto;
      left; apply elem_of_app; auto.
  - intros i [?|?]%elem_of_app; left; apply elem_of_app; auto.
    right. by right.
  - intros i Hi. by apply (hostEvent_not_invoke _ _ Hp) in Hi.
Qed.

Lemma Evolves_cancel i s s' :
  unstable_cancelCallback i s = Some s' → Evolves s s'.
Proof.
  intros E l HQ. destruct (decide (i ∈ l)) as [Hi|Hi].
  - apply list_elem_of_split in Hi as (l1 & l2 & ->).
    destruct (unstable_cancelCallback_spec s l1 i l2 HQ)
      as (s'' & E' & HQ' & Hlen & Hdata & _ & Ht).
    rewrite E in E'. simplify_eq.
    exists (l1 ++ l2), [EvCancelled i]. split_and!; auto.
    + lia.
    + intros j [?|?]%elem_of_app; left; apply elem_of_app; auto.
      right. by right.
    + intros j [?|[->|?]%elem_of_cons]%elem_of_app.
      * left. apply elem_of_app; auto.
      * right; right. by left.
      * left. apply elem_of_app; auto.
    + intros j [[=]|[]%elem_of_nil]%elem_of_cons.
  - assert (i < length (heap s))%nat as Hlt.
    { unfold unstable_cancelCallback in E.
      destruct (heap s !! i) eqn:El; [|done]. by eapply lookup_lt_Some. }
    rewrite (unstable_cancelCallback_idle s l i HQ Hi Hlt) in E. simplify_eq.
    by apply Evolves_refl.
Qed.

Lemma Evolves_shouldYield s : Evolves s (unstable_shouldYield hostYield s).2.
Proof.
  unfold unstable_shouldYield. destruct (negb _); [|apply Evolves_refl].
  destruct (match firstExpirationTime s with Some _ => _ | None => _ end);
    [apply Evolves_refl|].
  apply (Evolves_same _ _ [EvShouldYieldToHost (hostYield (yieldReads s))]); try done.
  intros i [[=]|[]%elem_of_nil]%elem_of_cons.
Qed.

Lemma Evolves_yieldToHost s : Evolves s (shouldYieldToHost hostYield s).2.
Proof.
  apply (Evolves_same _ _ [EvShouldYieldToHost (hostYield (yieldReads s))]); try done.
  intros i [[=]|[]%elem_of_nil]%elem_of_cons.
Qed.

Lemma Evolves_pause s : Evolves s (unstable_pauseExecution s).
Proof. apply (Evolves_same _ _ []); try done. by intros i ?%elem_of_nil. Qed.

Lemma Evolves_continue s s' :
  unstable_continueExecution s = Some s' → Evolves s s'.
Proof.
  intros (Hh & Hf & Hu)%unstable_continueExecution_inv.
  destruct Hu as (?&?&?&?&?&?&?&?&tr&Ht&Hp).
  eapply Evolves_same; eauto using hostEvent_not_invoke.
Qed.

Lemma Evolves_now s : Evolves s (getCurrentTime clock s).2.
Proof. apply (Evolves_same _ _ []); try done. by intros i ?%elem_of_nil. Qed.

Lemma Evolves_immediate s s1 s2 :
  Evolves (set_isExecutingCallback true s) s1 →
  afterFlush (set_isExecutingCallback false s1) = Some s2 → Evolves s s2.
Proof.
  intros H1 (Hh & Hf & Hu)%afterFlush_inv.
  eapply Evolves_trans; [|eapply Evolves_trans].
  - apply (Evolves_same s (set_isExecutingCallback true s) []); try done.
    by intros i ?%elem_of_nil.
  - done.
  - destruct Hu as (?&?&?&?&?&?&?&?&tr&Ht&Hp).
    eapply Evolves_same; eauto using hostEvent_not_invoke.
Qed.

Lemma Evolves_event s pl s2 :
  Evolves (set_currentEventStartTime (clock (clockReads s))
             (set_currentPriorityLevel pl (set_clockReads (S (clockReads s)) s))) s2 →
  Evolves s (set_currentEventStartTime (currentEventStartTime s)
               (set_currentPriorityLevel (currentPriorityLevel s) s2)).
Proof.
  intros H. eapply Evolves_trans; [|eapply Evolves_trans; [exact H|]].
  - apply (Evolves_same _ _ []); try done. by intros i ?%elem_of_nil.
  - apply (Evolves_same _ _ []); try done. by intros i ?%elem_of_nil.
Qed.

Lemma Evolves_work s b s1 s2 :
  Evolves (set_currentDidTimeout b (set_isExecutingCallback true s)) s1 →
  afterFlush (set_currentDidTimeout (currentDidTimeout s)
                (set_isExecutingCallback false s1)) = Some s2 →
  Evolves s s2.
Proof.
  intros H1 (Hh & Hf & Hu)%afterFlush_inv.
  eapply Evolves_trans; [|eapply Evolves_trans; [exact H1|]].
  - apply (Evolves_same _ _ []); try done. by intros i ?%elem_of_nil.
  - destruct Hu as (?&?&?&?&?&?&?&?&tr&Ht&Hp).
    eapply Evolves_same; eauto using hostEvent_not_invoke.
Qed.
End EvolvesFacts.

(** The continuation of a callback enters the queue before the nodes of
    equal expiration. *)
Lemma insertContinuation_spec k pl e s l :
  Queue s l →
  ∃ s' l1 l2,
    insertContinuation k pl e s = Some s' ∧
    l = l1 ++ l2 ∧ Queue s' (l1 ++ length (heap s) :: l2) ∧
    (∀ i, i ∈ l1 → expirationOf (heap s) i < e) ∧
    (∀ i, i ∈ l2 → e ≤ expirationOf (heap s) i) ∧
    dataOf (heap s') (length (heap s)) = Some (k, pl, e) ∧
    length (heap s') = S (length (heap s)) ∧
    (∀ i, (i < length (heap s))%nat → dataOf (heap s') i = dataOf (heap s) i) ∧
    queueUpdate s s'.
Proof.
  intros HQ. unfold insertContinuation.
  set (nd := mkNode k pl e None None).
  assert (Queue (set_heap (heap s ++ [nd]) s) l) as HQ1 by (by apply Queue_alloc).
  assert (expirationOf (heap s ++ [nd]) (length (heap s)) = e) as He1.
  { unfold expirationOf. rewrite lookup_app_r by lia. by rewrite Nat.sub_diag. }
  destruct (insertNode_spec (λ e', e' >=? e) false (length (heap s))
              (set_heap (heap s ++ [nd]) s) l)
    as (s' & l1 & l2 & Hins & Hl & HQ' & H1 & H2 & Hlen & Hdata & Hu); try done.
  { intros Hin%(Queue_lt _ _ HQ). lia. }
  { simpl. rewrite length_app. simpl. lia. }
  { simpl. rewrite He1. intros e' ?. lia. }
  { simpl. rewrite He1. intros e' ?. lia. }
  simpl in *.
  assert (∀ i, i ∈ l → expirationOf (heap s ++ [nd]) i = expirationOf (heap s) i)
    as Hold.
  { intros i Hi%(Queue_lt _ _ HQ). apply expirationOf_data.
    by apply dataOf_app_old. }
  exists s', l1, l2. rewrite Hins. split_and!; try done.
  - intros i Hi. rewrite <- Hold by (subst l; apply elem_of_app; auto).
    apply (proj1 (Forall_forall _ _) H1) in Hi. simpl in Hi. lia.
  - intros i Hi. rewrite <- Hold by (subst l; apply elem_of_app; auto).
    destruct l2 as [|b l2]; [by apply elem_of_nil in Hi|].
    assert (e ≤ expirationOf (heap s ++ [nd]) b) by lia.
    apply elem_of_cons in Hi as [->|Hi]; [done|].
    pose proof (q_sorted _ _ _ HQ1) as Hs. simpl in Hs.
    rewrite Hl, fmap_app, fmap_cons in Hs.
    apply StronglySorted_app_1_r, StronglySorted_cons in Hs as [Hs _].
    etrans; [done|].
    apply (proj1 (Forall_forall _ _) Hs). by apply list_elem_of_fmap_2.
  - rewrite Hdata. apply dataOf_app_new.
  - rewrite Hlen, length_app. simpl. lia.
  - intros i Hi. rewrite Hdata. by apply dataOf_app_old.
Qed.

Lemma flushFirstCallback_unfold run s :
  flushFirstCallback run s =
  match unlinkFirst s with
  | None => None
  | Some (b, nd, s1) =>
      match run (callback nd) (enterCallback b nd s1) with
      | None => None
      | Some (s3, Thrown) => Some (leaveCallback s1 s3, Thrown)
      | Some (s3, Normal None) => Some (leaveCallback s1 s3, Normal None)
      | Some (s3, Normal (Some k)) =>
          match insertContinuation k (priorityLevel nd) (expirationTime nd)
                  (leaveCallback s1 s3) with
          | None => None
          | Some s5 => Some (s5, Normal None)
          end
      end
  end.
Proof.
  unfold flushFirstCallback. destruct (unlinkFirst s) as [[[b nd] s1]|]; [|done].
  unfold enterCallback, leaveCallback.
  destruct (run _ _) as [[s3 [[k|]|]]|]; done.
Qed.

Lemma Evolves_flushFirst run :
  (∀ p s s' c, run p s = Some (s', c) → Evolves s s') →
  ∀ s s' c, flushFirstCallback run s = Some (s', c) → Evolves s s'.
Proof.
  intros Hrun s s' c. rewrite flushFirstCallback_unfold.
  destruct (unlinkFirst s) as [[[b nd] s1]|] eqn:E1; [|done].
  destruct (run _ _) as [[s3 c3]|] eqn:E3; [|done].
  intros E l HQ.
  apply unlinkFirst_inv in E1 as Hinv. destruct Hinv as (Hf & Hnd & _ & _ & _).
  destruct l as [|b' l0]; [by rewrite (q_first _ _ _ HQ) in Hf|].
  rewrite (q_first _ _ _ HQ) in Hf. simpl in Hf. simplify_eq.
  destruct (unlinkFirst_spec s b l0 HQ)
    as (nd' & s1' & E1' & _ & HQ1 & Hlen1 & Hdata1 & _ & Ht1).
  assert (nd' = nd ∧ s1' = s1) as [-> ->] by (rewrite E1 in E1'; by simplify_eq).
  destruct (Hrun _ _ _ _ E3 l0) as (l3 & tr3 & HQ3 & Ht3 & Hlen3 & Hdata3 & Hi3 & Ho3 & Hv3).
  { by apply (Queue_ext s1). }
  simpl in Ht3, Hlen3, Hdata3, Hi3, Hv3. rewrite Ht1 in Ht3. rewrite Hlen1 in *.
  assert (Queue (leaveCallback s1 s3) l3) as HQ4 by (by apply (Queue_ext s3)).
  assert (∀ i, i ∈ b :: l0 →
            i ∈ l3 ∨ EvInvoke i ∈ tr3 ++ [EvInvoke b] ∨
            EvCancelled i ∈ tr3 ++ [EvInvoke b]) as Ho.
  { intros i [->|Hi]%elem_of_cons.
    - right; left. apply elem_of_app; right. by left.
    - apply Ho3 in Hi as [?|[?|?]]; auto; right; [left|right]; apply elem_of_app; auto. }
  assert (∀ i, EvInvoke i ∈ tr3 ++ [EvInvoke b] →
            i ∈ b :: l0 ∨ (length (heap s) ≤ i)%nat) as Hv.
  { intros i [Hi|[[= ->]|[]%elem_of_nil]%elem_of_cons]%elem_of_app.
    - apply Hv3 in Hi as [?|?]; auto. left. by right.
    - left. by left. }
  assert (∀ i, i ∈ l3 → i ∈ b :: l0 ∨ (length (heap s) ≤ i)%nat) as Hi.
  { intros i [?|?]%Hi3; auto. left. by right. }
  assert (trace s3 = (tr3 ++ [EvInvoke b]) ++ trace s) as Ht
    by (by rewrite <- app_assoc).
  assert (∀ i, (i < length (heap s))%nat → dataOf (heap s3) i = dataOf (heap s) i)
    as Hdata by (intros i Hlt; rewrite Hdata3 by done; apply Hdata1).
  destruct c3 as [[k|]|].
  - destruct (insertContinuation_spec k (priorityLevel nd) (expirationTime nd)
                (leaveCallback s1 s3) l3 HQ4)
      as (s5 & l1 & l2 & E5 & -> & HQ5 & _ & _ & _ & Hlen5 & Hdata5 & Hu5).
    rewrite E5 in E. simplify_eq. simpl in *.
    destruct Hu5 as (?&?&?&?&?&?&?&?&tr5&Ht5&Hp5). simpl in Ht5.
    exists (l1 ++ length (heap s3) :: l2), (tr5 ++ tr3 ++ [EvInvoke b]).
    split_and!.
    + done.
    + rewrite Ht5, Ht. by rewrite <- !app_assoc.
    + lia.
    + intros i Hlt. rewrite Hdata5 by lia. by apply Hdata.
    + intros i [?|[->|?]%elem_of_cons]%elem_of_app.
      * apply Hi, elem_of_app; auto.
      * right. lia.
      * apply Hi, elem_of_app; auto.
    + intros i [Hin|[?|?]]%Ho.
      * left. apply elem_of_app in Hin as [?|?]; apply elem_of_app; auto.
        right. by right.
      * right; left. apply elem_of_app; auto.
      * right; right. apply elem_of_app; auto.
    + intros i [Hin|Hin]%elem_of_app; [|by apply Hv].
      by apply (hostEvent_not_invoke _ _ Hp5) in Hin.
  - simplify_eq. exists l3, (tr3 ++ [EvInvoke b]). split_and!; auto; simpl; lia.
  - simplify_eq. exists l3, (tr3 ++ [EvInvoke b]). split_and!; auto; simpl; lia.
Qed.

Section EvolvesExec.
Variable enableSchedulerDebugging : bool.
Variable clock : nat → Z.
Variable hostYield : nat → bool.

(** Every run of a function body keeps the queue well formed. *)
Theorem exec_Evolves n p s s' c :
  exec clock hostYield n p s = Some (s', c) → Evolves s s'.
Proof.
  exact (exec_rel clock hostYield Evolves Evolves_refl Evolves_trans
           (Evolves_schedule clock) Evolves_cancel (Evolves_shouldYield hostYield)
           Evolves_pause Evolves_continue (Evolves_now clock) Evolves_flushFirst
           Evolves_immediate (Evolves_event clock) n p s s' c).
Qed.

Theorem flushWork_Evolves n didTimeout s s' c :
  flushWork enableSchedulerDebugging clock hostYield n didTimeout s = Some (s', c) →
  Evolves s s'.
Proof.
  exact (flushWork_rel clock hostYield Evolves Evolves_refl Evolves_trans
           (Evolves_schedule clock) Evolves_cancel (Evolves_shouldYield hostYield)
           Evolves_pause Evolves_continue (Evolves_now clock) Evolves_flushFirst
           Evolves_immediate (Evolves_event clock) enableSchedulerDebugging
           (Evolves_yieldToHost hostYield) Evolves_work n didTimeout s s' c).
Qed.
End EvolvesExec.

Lemma Queue_initial : Queue initialState [].
Proof.
  split; try done.
  - constructor.
  - by intros x y ?%elem_of_nil.
  - constructor.
Qed.

Lemma dataOf_expiration h i cb pl e :
  dataOf h i = Some (cb, pl, e) →
  ∃ nd, h !! i = Some nd ∧ callback nd = cb ∧ priorityLevel nd = pl ∧
        expirationTime nd = e.
Proof.
  unfold dataOf. destruct (h !! i) as [nd|]; [|done].
  intros [= <- <- <-]. by exists nd.
Qed.

(** C4: unstable_scheduleCallback gives the new node the expiration
    start time + timeout, where the timeout is the explicit numeric
    options.timeout when there is one, and otherwise the default of the
    ambient priority level: Immediate -1, UserBlocking 250, Normal 5000,
    Low 10000, Idle 1073741823. *)
Theorem C4_scheduleCallback_expiration (clock : nat → Z) cb options s l :
  Queue s l →
  let startTime :=
    if bool_decide (currentEventStartTime s = -1) then clock (clockReads s)
    else currentEventStartTime s in
  ∃ s' nd,
    unstable_scheduleCallback clock cb options s = Some (s', length (heap s)) ∧
    heap s' !! length (heap s) = Some nd ∧ callback nd = cb ∧
    match options with
    | Some timeout => expirationTime nd = startTime + timeout
    | None =>
        (currentPriorityLevel s = ImmediatePriority →
         expirationTime nd = startTime + -1) ∧
        (currentPriorityLevel s = UserBlockingPriority →
         expirationTime nd = startTime + 250) ∧
        (currentPriorityLevel s = NormalPriority →
         expirationTime nd = startTime + 5000) ∧
        (currentPriorityLevel s = LowPriority →
         expirationTime nd = startTime + 10000) ∧
        (currentPriorityLevel s = IdlePriority →
         expirationTime nd = startTime + 1073741823)
    end.
Proof.
  intros HQ startTime.
  destruct (unstable_scheduleCallback_spec clock cb options s l HQ)
    as (s' & l1 & l2 & E & _ & _ & _ & _ & Hd & _).
  apply dataOf_expiration in Hd as (nd & Hnd & Hcb & _ & He).
  exists s', nd. split_and!; try done.
  assert (scheduledStart clock s = startTime) as Hst.
  { unfold scheduledStart, startTime.
    case_bool_decide as Hb; destruct (Z.eqb_spec (currentEventStartTime s) (-1)); done. }
  unfold scheduledExpiration in He. rewrite Hst in He.
  destruct options as [timeout|]; [done|].
  split_and!; intros Hp; rewrite Hp in He; exact He.
Qed.

Lemma C4_scheduleCallback_expiration_witness :
  Queue initialState [] ∧
  ∃ s' nd,
    unstable_scheduleCallback (λ _, 100) Return None initialState = Some (s', 0%nat) ∧
    heap s' !! 0%nat = Some nd ∧ expirationTime nd = 5100.
Proof.
  split; [exact Queue_initial|].
  destruct (C4_scheduleCallback_expiration (λ _, 100) Return None initialState []
              Queue_initial) as (s' & nd & E & Hnd & _ & _ & _ & H & _).
  exists s', nd. split_and!; [exact E|exact Hnd|exact (H eq_refl)].
Defined.

(** C6: unstable_shouldYield answers true exactly when the timeout flag
    currentDidTimeout is not set and either the queue is not empty and its
    first item, which is the earliest, expires strictly before
    currentExpirationTime, or shouldYieldToHost says to yield. *)
Theorem C6_shouldYield (hostYield : nat → bool) s l :
  Queue s l →
  (unstable_shouldYield hostYield s).1 = true ↔
  currentDidTimeout s = false ∧
  ((∃ a l', l = a :: l' ∧
            (∀ i, i ∈ l → expirationOf (heap s) a ≤ expirationOf (heap s) i) ∧
            expirationOf (heap s) a < currentExpirationTime s) ∨
   hostYield (yieldReads s) = true).
Proof.
  intros HQ. unfold unstable_shouldYield.
  destruct (currentDidTimeout s); simpl; [naive_solver|].
  destruct l as [|a l'].
  - unfold firstExpirationTime. rewrite (q_first _ _ _ HQ). simpl. naive_solver.
  - rewrite (firstExpirationTime_Some s a);
      [|by rewrite (q_first _ _ _ HQ)|eapply Queue_lt; [done|by left]].
    assert (∀ i, i ∈ a :: l' → expirationOf (heap s) a ≤ expirationOf (heap s) i) as Hmin.
    { intros i [->|Hi]%elem_of_cons; [done|].
      pose proof (q_sorted _ _ _ HQ) as Hs. rewrite fmap_cons in Hs.
      apply StronglySorted_cons in Hs as [Hs _].
      apply (proj1 (Forall_forall _ _) Hs). by apply list_elem_of_fmap_2. }
    destruct (Z.ltb_spec (expirationOf (heap s) a) (currentExpirationTime s)); simpl.
    + split; [|done]. intros _. split; [done|]. left. by exists a, l'.
    + split.
      * intros ->. by split; [|right].
      * intros [_ [(a' & l'' & [= <- <-] & _ & ?)|?]]; [lia|done].
Qed.

Lemma C6_shouldYield_witness :
  Queue initialState [] ∧ (unstable_shouldYield (λ _, true) initialState).1 = true.
Proof.
  split; [exact Queue_initial|].
  apply (C6_shouldYield (λ _, true) initialState [] Queue_initial).
  split; [reflexivity|]. right. reflexivity.
Defined.

Lemma expirationOf_dataOf h i cb pl e :
  dataOf h i = Some (cb, pl, e) → expirationOf h i = e.
Proof.
  intros (nd & Hnd & _ & _ & <-)%dataOf_expiration.
  by apply expirationOf_lookup.
Qed.

(** C10: while an event is active (currentEventStartTime is not -1), the
    expiration that unstable_scheduleCallback gives is the event start time
    plus the timeout, whatever the clock says; so two items scheduled in
    the same event with the same options, with any scheduler calls in
    between, get the same expiration. *)
Theorem C10_same_event_same_expiration (clock : nat → Z) (hostYield : nat → bool)
    cb1 cb2 options s l :
  Queue s l → currentEventStartTime s ≠ -1 →
  let timeout :=
    match options with
    | Some t => t
    | None =>
        if currentPriorityLevel s =? ImmediatePriority then -1
        else if currentPriorityLevel s =? UserBlockingPriority then 250
        else if currentPriorityLevel s =? IdlePriority then 1073741823
        else if currentPriorityLevel s =? LowPriority then 10000
        else 5000
    end in
  ∃ s1,
    unstable_scheduleCallback clock cb1 options s = Some (s1, length (heap s)) ∧
    expirationOf (heap s1) (length (heap s)) = currentEventStartTime s + timeout ∧
    ∀ n mid s2 c,
      exec clock hostYield n mid s1 = Some (s2, c) →
      ∃ s3,
        unstable_scheduleCallback clock cb2 options s2
          = Some (s3, length (heap s2)) ∧
        length (heap s) ≠ length (heap s2) ∧
        expirationOf (heap s3) (length (heap s))
          = currentEventStartTime s + timeout ∧
        expirationOf (heap s3) (length (heap s2))
          = currentEventStartTime s + timeout.
Proof.
  intros HQ Hev timeout.
  assert (∀ s0, currentEventStartTime s0 = currentEventStartTime s →
                currentPriorityLevel s0 = currentPriorityLevel s →
                scheduledExpiration clock options s0 =
                currentEventStartTime s + timeout) as Hexp.
  { intros s0 He Hp. unfold scheduledExpiration, scheduledStart, timeout.
    rewrite He, Hp. destruct (Z.eqb_spec (currentEventStartTime s) (-1)); [done|].
    simpl. destruct options; [done|].
    unfold IMMEDIATE_PRIORITY_TIMEOUT, USER_BLOCKING_PRIORITY, IDLE_PRIORITY,
      LOW_PRIORITY_TIMEOUT, NORMAL_PRIORITY_TIMEOUT, maxSigned31BitInt.
    repeat case_match; done. }
  (* the first item *)
  destruct (unstable_scheduleCallback_spec clock cb1 options s l HQ)
    as (s1 & l1 & l2 & E1 & _ & HQ1 & _ & _ & Hd1 & Hlen1 & _ & Hu1).
  destruct Hu1 as (_&_&Hp1&He1&_).
  exists s1. split; [done|]. split.
  { erewrite expirationOf_dataOf; [apply (Hexp s); done|exact Hd1]. }
  (* the calls in between *)
  intros n mid s2 c Emid.
  pose proof (exec_Framed clock hostYield false _ _ _ _ _ Emid) as (Hp2&He2&_).
  destruct (exec_Evolves clock hostYield _ _ _ _ _ Emid _ HQ1)
    as (l' & tr & HQ2 & _ & Hlen2 & Hd2 & _).
  (* the second item *)
  destruct (unstable_scheduleCallback_spec clock cb2 options s2 l' HQ2)
    as (s3 & l3 & l4 & E2 & _ & HQ3 & _ & _ & Hd3 & Hlen3 & Hd3' & _).
  exists s3. split; [done|]. split; [lia|]. split.
  - erewrite expirationOf_dataOf; [apply (Hexp s); done|].
    rewrite Hd3' by lia. rewrite Hd2 by lia. exact Hd1.
  - erewrite expirationOf_dataOf; [|exact Hd3].
    apply Hexp; congruence.
Qed.

Lemma Queue_empty_ext s :
  heap s = [] → firstCallbackNode s = None → Queue s [].
Proof. intros Hh Hf. apply (Queue_ext initialState); [exact Queue_initial|done|done]. Qed.

Lemma C10_same_event_same_expiration_witness :
  ∃ s3 : State,
    expirationOf (heap s3) 0%nat = 5007 ∧ expirationOf (heap s3) 1%nat = 5007.
Proof.
  pose (clock := λ k : nat, 1000 * Z.of_nat k).
  pose (s := set_currentEventStartTime 7 initialState).
  assert (Queue s []) as HQ by (apply Queue_empty_ext; reflexivity).
  assert (currentEventStartTime s ≠ -1) as Hev by (simpl; lia).
  destruct (C10_same_event_same_expiration clock (λ _, false) Return Return None
              s [] HQ Hev) as (s1 & E1 & _ & H).
  vm_compute in E1. injection E1 as <-.
  destruct (H 1%nat (Now (λ _, Return)) _ _ eq_refl) as (s3 & _ & _ & H1 & H2).
  exists s3. split; [exact H1|exact H2].
Defined.

Section PriorityReads.
Variable clock : nat → Z.
Variable hostYield : nat → bool.

Lemma level_Framed q s s' :
  Framed q s s' → currentPriorityLevel s' = currentPriorityLevel s.
Proof. by intros (? & _). Qed.

Lemma withEvent_Framed n pl h s s' c :
  withEvent clock (exec clock hostYield n) n pl
    (exec clock hostYield (S n) h) s = Some (s', c) →
  Framed false s s'.
Proof.
  intros E.
  assert (∃ c', exec clock hostYield (S n) (CallWrapped pl h Return) s = Some (s', c'))
    as [c' Hc'].
  { rewrite exec_unfold. unfold execBody, callWrapped. rewrite E.
    destruct c; [|by eexists]. rewrite exec_unfold. by eexists. }
  by apply (exec_Framed clock hostYield false) in Hc'.
Qed.

Lemma exec_answerLevel P n fn : ∀ s,
  currentPriorityLevel s = P →
  exec clock hostYield n (answerLevel P fn) s = exec clock hostYield n fn s.
Proof.
  destruct n as [|n]; [done|].
  induction fn as [|c _| |cb _ o k IH|i k IH|pl h _ k IH|h _ k IH|pl cb _ k IH
                   |k IH|k IH|k IH|k IH|k IH|k IH|body IHb k IH];
    intros s Hs; simpl.
  - done.
  - done.
  - done.
  - rewrite !exec_unfold. simpl.
    destruct (unstable_scheduleCallback _ _ _ _) as [[s1 i]|] eqn:E; [|done].
    apply IH. apply (Framed_schedule clock false), level_Framed in E. congruence.
  - rewrite !exec_unfold. simpl.
    destruct (unstable_cancelCallback _ _) as [s1|] eqn:E; [|done].
    apply IH. apply (Framed_cancel false), level_Framed in E. congruence.
  - rewrite !exec_unfold. simpl.
    destruct (unstable_runWithPriority _ _ _ _ _ _) as [[s1 [v|]]|] eqn:E; try done.
    apply IH. apply withEvent_Framed, level_Framed in E. congruence.
  - rewrite !exec_unfold. simpl.
    destruct (unstable_next _ _ _ _ _) as [[s1 [v|]]|] eqn:E; try done.
    apply IH. apply withEvent_Framed, level_Framed in E. congruence.
  - rewrite !exec_unfold. simpl.
    destruct (callWrapped _ _ _ _ _ _) as [[s1 [v|]]|] eqn:E; try done.
    apply IH. apply withEvent_Framed, level_Framed in E. congruence.
  - rewrite (exec_unfold _ _ _ (GetCurrentPriorityLevel k)). simpl.
    unfold unstable_getCurrentPriorityLevel. rewrite Hs. by apply IH.
  - rewrite !exec_unfold. simpl.
    pose proof (Framed_shouldYield hostYield false s) as HF.
    destruct (unstable_shouldYield hostYield s) as [b s1].
    apply IH. apply level_Framed in HF. simpl in HF. congruence.
  - rewrite !exec_unfold. simpl. by apply IH.
  - rewrite !exec_unfold. simpl.
    destruct (unstable_continueExecution s) as [s1|] eqn:E; [|done].
    apply IH. apply (Framed_continue false), level_Framed in E. congruence.
  - rewrite !exec_unfold. simpl. by apply IH.
  - rewrite !exec_unfold. simpl. by apply IH.
  - rewrite !exec_unfold. simpl. rewrite IHb by done.
    destruct (exec clock hostYield (S n) body s) as [[s1 c1]|] eqn:E; [|done].
    apply IH. apply (exec_Framed clock hostYield false), level_Framed in E.
    congruence.
Qed.

(** The try/finally that unstable_runWithPriority, unstable_next and the
    wrapped callbacks share: the handler is called in [enterEvent clock P s],
    where the level is [P]; every call of unstable_getCurrentPriorityLevel
    that the handler makes answers [P], and the level is still [P] when the
    handler is done; the call then ends as [finishEvent] says, with the
    level and the event start time of [s]. *)
Lemma withEvent_handler n P fn s :
  unstable_getCurrentPriorityLevel (enterEvent clock P s) = P ∧
  withEvent clock (exec clock hostYield n) n P
    (exec clock hostYield (S n) fn) s =
    match exec clock hostYield (S n) fn (enterEvent clock P s) with
    | None => None
    | Some (s2, c) => finishEvent (exec clock hostYield n) n s s2 c
    end ∧
  exec clock hostYield (S n) (answerLevel P fn) (enterEvent clock P s) =
    exec clock hostYield (S n) fn (enterEvent clock P s) ∧
  (∀ s2 c,
     exec clock hostYield (S n) fn (enterEvent clock P s) = Some (s2, c) →
     unstable_getCurrentPriorityLevel s2 = P ∧
     unstable_getCurrentPriorityLevel (leaveEvent s s2)
       = unstable_getCurrentPriorityLevel s ∧
     currentEventStartTime (leaveEvent s s2) = currentEventStartTime s) ∧
  (∀ s' c,
     withEvent clock (exec clock hostYield n) n P
       (exec clock hostYield (S n) fn) s = Some (s', c) →
     unstable_getCurrentPriorityLevel s' = unstable_getCurrentPriorityLevel s ∧
     currentEventStartTime s' = currentEventStartTime s).
Proof.
  split; [done|]. split.
  { unfold withEvent, getCurrentTime, finishEvent, enterEvent, leaveEvent.
    by destruct (exec clock hostYield (S n) fn _) as [[s2 c]|]. }
  split; [by apply exec_answerLevel|]. split.
  - intros s2 c E. split; [|done].
    by apply (exec_Framed clock hostYield false), level_Framed in E.
  - intros s' c E. apply withEvent_Framed in E as (Hp & He & _). done.
Qed.

(** C8: unstable_runWithPriority(P, fn), for a valid priority level P,
    calls fn in a state where unstable_getCurrentPriorityLevel() is P (the
    state of the call with the level set to P and the event start time set
    to a fresh reading of the clock).  Every call of
    unstable_getCurrentPriorityLevel made by fn answers P (fn behaves as it
    does with these calls replaced by the constant P), and the level is
    still P when fn is done.  What unstable_runWithPriority does is what fn
    does followed by the finally block: the level and the event start time
    of before the call are put back, whether fn returned or threw, and the
    immediate work is flushed; fn's completion is that of the call unless
    an Immediate callback throws.  When unstable_runWithPriority completes,
    by a return or by a throw, the ambient priority level is what it was
    before the call. *)
Theorem C8_runWithPriority n P fn s :
  P = ImmediatePriority ∨ P = UserBlockingPriority ∨ P = NormalPriority ∨
  P = LowPriority ∨ P = IdlePriority →
  let s1 := enterEvent clock P s in
  unstable_getCurrentPriorityLevel s1 = P ∧
  unstable_runWithPriority clock (exec clock hostYield n) n P
    (exec clock hostYield (S n) fn) s =
    match exec clock hostYield (S n) fn s1 with
    | None => None
    | Some (s2, c) => finishEvent (exec clock hostYield n) n s s2 c
    end ∧
  exec clock hostYield (S n) (answerLevel P fn) s1 =
    exec clock hostYield (S n) fn s1 ∧
  (∀ s2 c,
     exec clock hostYield (S n) fn s1 = Some (s2, c) →
     unstable_getCurrentPriorityLevel s2 = P ∧
     unstable_getCurrentPriorityLevel (leaveEvent s s2)
       = unstable_getCurrentPriorityLevel s) ∧
  unstable_runWithPriority clock (exec clock hostYield n) n P
    (exec clock hostYield (S n) (answerLevel P fn)) s =
  unstable_runWithPriority clock (exec clock hostYield n) n P
    (exec clock hostYield (S n) fn) s ∧
  ∀ s' c,
    unstable_runWithPriority clock (exec clock hostYield n) n P
      (exec clock hostYield (S n) fn) s = Some (s', c) →
    unstable_getCurrentPriorityLevel s' = unstable_getCurrentPriorityLevel s.
Proof.
  intros HP s1.
  assert (∀ h, unstable_runWithPriority clock (exec clock hostYield n) n P h s =
               withEvent clock (exec clock hostYield n) n P h s) as Hrun.
  { intros h. unfold unstable_runWithPriority.
    assert ((P =? ImmediatePriority) || (P =? UserBlockingPriority)
            || (P =? NormalPriority) || (P =? LowPriority)
            || (P =? IdlePriority) = true) as ->; [|done].
    destruct HP as [->|[->|[->|[->| ->]]]]; reflexivity. }
  destruct (withEvent_handler n P fn s) as (Hl & Hw & Ha & Hfn & Hend).
  split; [exact Hl|]. split; [by rewrite Hrun|]. split; [exact Ha|].
  split; [intros s2 c E; destruct (Hfn s2 c E) as (? & ? & _); done|].
  split.
  - rewrite !Hrun. unfold withEvent, getCurrentTime.
    by rewrite exec_answerLevel.
  - intros s' c E. rewrite Hrun in E. by destruct (Hend s' c E).
Qed.

End PriorityReads.

Lemma C8_runWithPriority_witness :
  ∃ s2 s',
    exec (λ _, 0) (λ _, false) 2
      (GetCurrentPriorityLevel (λ v, if v =? 1 then Throw else Return))
      (enterEvent (λ _, 0) ImmediatePriority initialState) = Some (s2, Thrown) ∧
    unstable_getCurrentPriorityLevel s2 = ImmediatePriority ∧
    unstable_runWithPriority (λ _, 0) (exec (λ _, 0) (λ _, false) 1) 1
      ImmediatePriority
      (exec (λ _, 0) (λ _, false) 2
         (GetCurrentPriorityLevel (λ v, if v =? 1 then Throw else Return)))
      initialState = Some (s', Thrown) ∧
    unstable_getCurrentPriorityLevel s' = NormalPriority.
Proof.
  pose proof (C8_runWithPriority (λ _, 0) (λ _, false) 1 ImmediatePriority
                (GetCurrentPriorityLevel (λ v, if v =? 1 then Throw else Return))
                initialState (or_introl eq_refl)) as (_ & Hrun & _ & Hfn & _ & Hend).
  eexists. eexists. split; [vm_compute; reflexivity|].
  split; [refine (proj1 (Hfn _ Thrown _)); vm_compute; reflexivity|].
  split; [vm_compute; reflexivity|].
  refine (Hend _ Thrown _). vm_compute; reflexivity.
Defined.

Lemma Queue_checked s l : bool_decide (QueueChecks s l) = true → Queue s l.
Proof.
  intros (Hf & Hnd & Hring & Hfree & Hs)%bool_decide_eq_true_1. split; try done.
  - intros x y Hxy. by apply (proj1 (Forall_forall _ _) Hring) in Hxy.
  - intros i Hi. destruct (decide (i < length (heap s))%nat) as [Hlt|Hge].
    + assert (i ∈ seq 0 (length (heap s))) as Hin by (apply elem_of_seq; lia).
      by apply (proj1 (Forall_forall _ _) Hfree) in Hin as [?|?].
    + unfold nextOf, previousOf. by rewrite lookup_ge_None_2 by lia.
Qed.

(** C9: flushFirstCallback takes the first node out of the queue and
    clears its links before it calls the callback, so the callback runs on a
    well-formed queue without the node.  flushFirstCallback throws exactly
    when the callback throws, and then it ends in the state the callback
    left with currentPriorityLevel and currentExpirationTime set back (the
    event start time and the timeout flag are unchanged as well): the call
    of the callback is on record, the queue is well formed, the node is not
    in it and its links are null; the other nodes that were queued are
    still queued unless they were called or cancelled meanwhile, and every
    node keeps its callback, priority level and expiration. *)
Theorem C9_callback_throws (clock : nat → Z) (hostYield : nat → bool) n s b l0 :
  Queue s (b :: l0) →
  ∃ nd s1,
    heap s !! b = Some nd ∧ unlinkFirst s = Some (b, nd, s1) ∧
    Queue (enterCallback b nd s1) l0 ∧ (b ∉ l0) ∧
    nextOf (heap (enterCallback b nd s1)) b = None ∧
    previousOf (heap (enterCallback b nd s1)) b = None ∧
    (∀ s',
       flushFirstCallback (exec clock hostYield n) s = Some (s', Thrown) →
       ∃ s3, exec clock hostYield n (callback nd) (enterCallback b nd s1)
               = Some (s3, Thrown) ∧
             s' = leaveCallback s1 s3) ∧
    ∀ s3,
      exec clock hostYield n (callback nd) (enterCallback b nd s1) = Some (s3, Thrown) →
      ∃ s' l' tr,
        flushFirstCallback (exec clock hostYield n) s = Some (s', Thrown) ∧
        s' = leaveCallback s1 s3 ∧
        trace s' = tr ++ EvInvoke b :: trace s ∧
        Queue s' l' ∧ (b ∉ l') ∧
        nextOf (heap s') b = None ∧ previousOf (heap s') b = None ∧
        (∀ i, i ∈ l0 → i ∈ l' ∨ EvInvoke i ∈ tr ∨ EvCancelled i ∈ tr) ∧
        (∀ i, i ∈ l' → i ∈ l0 ∨ (length (heap s) ≤ i)%nat) ∧
        (∀ i, (i < length (heap s))%nat →
              dataOf (heap s') i = dataOf (heap s) i) ∧
        currentPriorityLevel s' = currentPriorityLevel s ∧
        currentExpirationTime s' = currentExpirationTime s ∧
        currentEventStartTime s' = currentEventStartTime s ∧
        currentDidTimeout s' = currentDidTimeout s.
Proof.
  intros HQ.
  destruct (unlinkFirst_spec s b l0 HQ)
    as (nd & s1 & E1 & Hnd & HQ1 & Hlen1 & Hd1 & Hu & Ht1).
  pose proof (q_nodup _ _ _ HQ) as [Hb _]%NoDup_cons.
  assert (Queue (enterCallback b nd s1) l0) as HQe by (by apply (Queue_ext s1)).
  destruct (q_free _ _ _ HQe b Hb) as [Hn Hp].
  assert (b < length (heap s))%nat as Hblt.
  { apply (Queue_lt s _ HQ). by left. }
  exists nd, s1. split_and!; try done.
  - (* it throws only when the callback throws *)
    intros s'. rewrite flushFirstCallback_unfold, E1.
    destruct (exec _ _ _ _ _) as [[s3 [[k|]|]]|]; try done.
    + by destruct (insertContinuation _ _ _ _).
    + intros [= <-]. by exists s3.
  - intros s3 E3.
    destruct (exec_Evolves clock hostYield _ _ _ _ _ E3 l0 HQe)
      as (l3 & tr & HQ3 & Ht3 & Hlen3 & Hd3 & Hin3 & Hout3 & _).
    pose proof (exec_Framed clock hostYield false _ _ _ _ _ E3)
      as (_ & He3 & _ & Hdt3 & _).
    exists (leaveCallback s1 s3), l3, tr.
    rewrite flushFirstCallback_unfold, E1, E3.
    destruct Hu as (Hdt1 & _ & Hp1 & Hev1 & He1 & _).
    assert (b ∉ l3) as Hb3.
    { intros [?|Hge]%Hin3; [done|]. simpl in Hge. lia. }
    destruct (q_free _ _ _ HQ3 b Hb3) as [Hn3 Hp3].
    split; [done|]. split; [done|]. split.
    { simpl. rewrite Ht3. simpl. by rewrite Ht1. }
    split; [done|]. split; [done|]. split; [done|]. split; [done|].
    split; [done|]. split.
    { intros i [?|Hge]%Hin3; [by left|right]. simpl in Hge. lia. }
    split.
    { intros i Hi. simpl. rewrite Hd3 by (simpl; lia). simpl. apply Hd1. }
    simpl. simpl in He3, Hdt3. split_and!; congruence.
Qed.

Lemma C9_callback_throws_witness :
  ∃ s s',
    unstable_scheduleCallback (λ _, 0) Throw None initialState = Some (s, 0%nat) ∧
    flushFirstCallback (exec (λ _, 0) (λ _, false) 1) s = Some (s', Thrown) ∧
    trace s' = EvInvoke 0 :: trace s ∧ Queue s' [] ∧
    nextOf (heap s') 0%nat = None ∧
    currentPriorityLevel s' = NormalPriority ∧ currentExpirationTime s' = -1.
Proof.
  eexists. eexists. split; [vm_compute; reflexivity|].
  match goal with
  | |- flushFirstCallback _ ?s = _ ∧ _ =>
      assert (Queue s [0%nat]) as HQ
        by (apply Queue_checked; vm_compute; reflexivity);
      destruct (C9_callback_throws (λ _, 0) (λ _, false) 1 s 0%nat [] HQ)
        as (nd & s1 & Hnd & E1 & _ & _ & _ & _ & _ & H)
  end.
  vm_compute in Hnd. injection Hnd as <-.
  vm_compute in E1. injection E1 as <-.
  destruct (H _ eq_refl)
    as (s'' & l' & tr & E & -> & Ht & HQ' & _ & Hn & _ & _ & Hin & _ & Hp & He & _).
  split; [exact E|]. split; [reflexivity|].
  assert (l' = []) as ->.
  { destruct l' as [|i l']; [done|].
    destruct (Hin i (list_elem_of_here _ _)) as [[]%elem_of_nil|Hge].
    pose proof (Queue_lt _ _ HQ' i (list_elem_of_here _ _)) as Hlt.
    vm_compute in Hge, Hlt. lia. }
  split; [exact HQ'|]. split; [exact Hn|]. split; [exact Hp|exact He].
Defined.

Section OpsFacts.
Variable enableSchedulerDebugging : bool.
Variable clock : nat → Z.
Variable hostYield : nat → bool.

Lemma runOps_Evolves n ops : ∀ s s',
  runOps enableSchedulerDebugging clock hostYield n ops s = Some s' → Evolves s s'.
Proof.
  induction ops as [|o ops IH]; intros s s'; simpl.
  - intros [= <-]. apply Evolves_refl.
  - destruct (runOp enableSchedulerDebugging clock hostYield n o s) as [[s1 c]|] eqn:E; [|done].
    intros H%IH. eapply Evolves_trans; [|done].
    destruct o; simpl in E.
    + by eapply flushWork_Evolves.
    + by eapply exec_Evolves.
Qed.

End OpsFacts.


Section QueueOrder.
Variable enableSchedulerDebugging : bool.
Variable clock : nat → Z.
Variable hostYield : nat → bool.

(** C1: every state that calls from outside can reach has a queue sorted
    by ascending expiration; unstable_scheduleCallback puts the new node
    after every node whose expiration is smaller or equal, before those
    whose expiration is greater; flushFirstCallback gives the continuation
    that a callback returned a node with the priority level and
    expiration of the node just run, and puts it after the nodes whose
    expiration is smaller, before every node whose expiration is equal or
    greater. *)
Theorem C1_queue_sorted :
  (∀ n ops s,
     runOps enableSchedulerDebugging clock hostYield n ops initialState = Some s →
     ∃ l, Queue s l ∧ StronglySorted Z.le (expirationOf (heap s) <$> l)) ∧
  (∀ cb options s l,
     Queue s l →
     ∃ s' l1 l2,
       unstable_scheduleCallback clock cb options s = Some (s', length (heap s)) ∧
       l = l1 ++ l2 ∧ Queue s' (l1 ++ length (heap s) :: l2) ∧
       (∀ i, i ∈ l1 →
             expirationOf (heap s') i ≤ expirationOf (heap s') (length (heap s))) ∧
       (∀ i, i ∈ l2 →
             expirationOf (heap s') (length (heap s)) < expirationOf (heap s') i)) ∧
  (∀ s b l0,
     Queue s (b :: l0) →
     ∃ nd s1,
       heap s !! b = Some nd ∧ unlinkFirst s = Some (b, nd, s1) ∧
       ∀ n s3 k,
         exec clock hostYield n (callback nd) (enterCallback b nd s1)
           = Some (s3, Normal (Some k)) →
         ∃ s' l1 l2,
           flushFirstCallback (exec clock hostYield n) s
             = Some (s', Normal None) ∧
           Queue s3 (l1 ++ l2) ∧ Queue s' (l1 ++ length (heap s3) :: l2) ∧
           dataOf (heap s') (length (heap s3)) =
             Some (k, priorityLevel nd, expirationTime nd) ∧
           (∀ i, i ∈ l1 → expirationOf (heap s') i < expirationTime nd) ∧
           (∀ i, i ∈ l2 → expirationTime nd ≤ expirationOf (heap s') i)).
Proof.
  split; [|split].
  - intros n ops s Hops.
    destruct (runOps_Evolves _ _ _ _ _ _ _ Hops _ Queue_initial) as (l & _ & HQ & _).
    exists l. split; [done|]. apply HQ.
  - intros cb options s l HQ.
    destruct (unstable_scheduleCallback_spec clock cb options s l HQ)
      as (s' & l1 & l2 & E & Hl & HQ' & H1 & H2 & Hd & _ & Hold & _).
    exists s', l1, l2. split_and!; try done.
    + intros i Hi. rewrite (expirationOf_dataOf _ _ _ _ _ Hd).
      rewrite (expirationOf_data (heap s) (heap s')); [by apply H1|].
      apply Hold. eapply Queue_lt; [done|]. subst l. apply elem_of_app; auto.
    + intros i Hi. rewrite (expirationOf_dataOf _ _ _ _ _ Hd).
      rewrite (expirationOf_data (heap s) (heap s') i); [by apply H2|].
      apply Hold. eapply Queue_lt; [done|]. subst l. apply elem_of_app; auto.
  - intros s b l0 HQ.
    destruct (unlinkFirst_spec s b l0 HQ) as (nd & s1 & E1 & Hnd & HQ1 & _).
    exists nd, s1. split; [done|]. split; [done|]. intros n s3 k E3.
    destruct (exec_Evolves clock hostYield _ _ _ _ _ E3 l0) as (l3 & _ & HQ3 & _).
    { by apply (Queue_ext s1). }
    assert (Queue (leaveCallback s1 s3) l3) as HQ4 by (by apply (Queue_ext s3)).
    destruct (insertContinuation_spec k (priorityLevel nd) (expirationTime nd)
                (leaveCallback s1 s3) l3 HQ4)
      as (s5 & l1 & l2 & E5 & -> & HQ5 & H1 & H2 & Hd & _ & Hold & _).
    simpl in *.
    exists s5, l1, l2. rewrite flushFirstCallback_unfold, E1, E3, E5.
    split_and!; try done.
    + intros i Hi. rewrite (expirationOf_data (heap s3) (heap s5)); [by apply H1|].
      apply Hold. eapply Queue_lt; [done|]. apply elem_of_app; auto.
    + intros i Hi. rewrite (expirationOf_data (heap s3) (heap s5)); [by apply H2|].
      apply Hold. eapply Queue_lt; [done|]. apply elem_of_app; auto.
Qed.
End QueueOrder.

Lemma C1_queue_sorted_witness :
  (∃ s l,
     runOps false (λ _, 0) (λ _, false) 2
       [AppCall (ScheduleCallback (ReturnFn Return) None (λ _, Return));
        HostFlushWork false] initialState = Some s ∧
     Queue s l ∧ StronglySorted Z.le (expirationOf (heap s) <$> l)) ∧
  (∃ s s',
     unstable_scheduleCallback (λ _, 0) Return None initialState = Some (s, 0%nat) ∧
     unstable_scheduleCallback (λ _, 0) Return None s = Some (s', 1%nat) ∧
     Queue s' [0%nat; 1%nat]).
Proof.
  pose proof (C1_queue_sorted false (λ _, 0) (λ _, false)) as (Ha & Hb & _).
  split.
  - eexists.
    match goal with
    | |- ∃ l, runOps ?d ?c ?h ?n ?ops ?s0 = Some ?s ∧ _ =>
        assert (runOps d c h n ops s0 = Some s) as E by (vm_compute; reflexivity);
        destruct (Ha n ops _ E) as (l & HQ & Hs)
    end.
    exists l. split; [exact E|]. split; [exact HQ|exact Hs].
  - eexists. eexists. split; [vm_compute; reflexivity|].
    match goal with
    | |- unstable_scheduleCallback _ _ _ ?s = _ ∧ _ =>
        assert (Queue s [0%nat]) as HQ
          by (apply Queue_checked; vm_compute; reflexivity);
        destruct (Hb Return None s [0%nat] HQ)
          as (s' & l1 & l2 & E & Hl & HQ' & H1 & H2)
    end.
    vm_compute in E. injection E as <-. split; [reflexivity|].
    destruct l1 as [|a [|a' l1]]; simpl in Hl.
    + subst l2. exfalso. specialize (H2 0%nat (list_elem_of_here _ _)).
      vm_compute in H2. discriminate H2.
    + destruct l2; [|discriminate Hl]. injection Hl as <-. exact HQ'.
    + destruct l1; discriminate Hl.
Defined.

(** ** flushWork and the immediate work *)

Section ImmediateWork.
Variable enableSchedulerDebugging : bool.
Variable clock : nat → Z.
Variable hostYield : nat → bool.

Lemma Framed_yieldToHost s : Framed false s (shouldYieldToHost hostYield s).2.
Proof.
  unfold Framed; split_and!; try done.
  by exists [EvShouldYieldToHost (hostYield (yieldReads s))].
Qed.

Lemma flushWorkTry_Framed n didTimeout s s' c :
  flushWorkTry enableSchedulerDebugging clock hostYield n didTimeout s
    = Some (s', c) →
  Framed false s s'.
Proof.
  exact (flushWorkTry_rel clock hostYield (Framed false) (Framed_refl false)
           (Framed_trans false) (Framed_schedule clock false) (Framed_cancel false)
           (Framed_shouldYield hostYield false) (Framed_pause false)
           (Framed_continue false) (Framed_now clock false)
           (Framed_flushFirst false) (Framed_immediate false)
           (Framed_event clock false) enableSchedulerDebugging
           Framed_yieldToHost n didTimeout s s' c).
Qed.

Lemma flushImmediateLoop_exit run budget : ∀ s s' v,
  flushImmediateLoop run budget s = Some (s', Normal v) →
  firstIsImmediate s' = false.
Proof.
  induction budget as [|budget IH]; intros s s' v; simpl; [done|].
  destruct (flushFirstCallback run s) as [[s1 [v1|]]|]; try done.
  destruct (firstIsImmediate s1) eqn:E; [apply IH|].
  by intros [= <- <-].
Qed.

Lemma firstIsImmediate_ext s s' :
  heap s' = heap s → firstCallbackNode s' = firstCallbackNode s →
  firstIsImmediate s' = firstIsImmediate s.
Proof. unfold firstIsImmediate, firstPriorityLevel. by intros -> ->. Qed.

Lemma flushImmediateWork_exit run budget s s' v :
  currentEventStartTime s = -1 →
  flushImmediateWork run budget s = Some (s', Normal v) →
  firstIsImmediate s' = false.
Proof.
  intros Hev. unfold flushImmediateWork. rewrite Hev. simpl.
  destruct (firstIsImmediate s) eqn:E; [|by intros [= <- <-]].
  destruct (flushImmediateLoop _ _ _) as [[s1 c1]|] eqn:E1; [|done].
  destruct (afterFlush _) as [s2|] eqn:E2; [|done]. intros [= <- ->].
  apply flushImmediateLoop_exit in E1.
  apply afterFlush_inv in E2 as (Hh & Hf & _).
  by rewrite (firstIsImmediate_ext s1 s2).
Qed.

End ImmediateWork.

(** C5: flushWork does not drain the Immediate items that are queued
    behind an item of another priority.  Two items of Normal priority are
    scheduled at times 0 and 1 (they expire at 5000 and 5001); at time 5500
    an item is scheduled inside unstable_runWithPriority(ImmediatePriority,
    ...): it expires at 5499, so it is queued behind the two, and the flush
    at the end of unstable_runWithPriority leaves it there.  Then the host
    calls flushWork(false) with no event active: the first item is called,
    the host asks to yield, and flushWork returns normally after asking the
    host for another callback; flushImmediateWork, which looks at the first
    node only, has called nothing, and the Immediate item is still queued
    behind the second Normal item. *)
Lemma C5_late_immediate_not_drained :
  ∃ s s',
    runOps false clockLateImmediate (λ _, true) 3 [AppCall lateImmediate]
      initialState = Some s ∧
    Queue s [0%nat; 1%nat; 2%nat] ∧
    priorityOf (heap s) 2%nat = ImmediatePriority ∧
    currentEventStartTime s = -1 ∧
    flushWork false clockLateImmediate (λ _, true) 3 false s
      = Some (s', Normal None) ∧
    trace s' = [EvRequestHostCallback 5001; EvCancelHostCallback;
                EvShouldYieldToHost true; EvInvoke 0] ++ trace s ∧
    Queue s' [1%nat; 2%nat] ∧
    priorityOf (heap s') 2%nat = ImmediatePriority.
Proof.
  eexists. eexists. split; [vm_compute; reflexivity|].
  split; [apply Queue_checked; vm_compute; reflexivity|].
  split; [reflexivity|]. split; [reflexivity|].
  split; [vm_compute; reflexivity|]. split; [reflexivity|].
  split; [apply Queue_checked; vm_compute; reflexivity|reflexivity].
Qed.

(** ** flushWork after a timeout *)

Section TimedOut.
Variable enableSchedulerDebugging : bool.
Variable clock : nat → Z.
Variable hostYield : nat → bool.














End TimedOut.



(** ** Expiration buckets *)

Module ExpirationTimeFacts.
Import ExpirationTime.
Local Open Scope Q_scope.

Lemma truncate_comp x y : x == y → truncate x = truncate y.
Proof.
  intros H. unfold truncate.
  assert (Qle_bool 0 x = Qle_bool 0 y) as ->.
  { destruct (Qle_bool 0 x) eqn:E1, (Qle_bool 0 y) eqn:E2; try reflexivity.
    - apply Qle_bool_iff in E1. rewrite H in E1. apply Qle_bool_iff in E1. congruence.
    - apply Qle_bool_iff in E2. rewrite <- H in E2. apply Qle_bool_iff in E2. congruence. }
  destruct (Qle_bool 0 y); [by apply Qfloor_comp|by apply Qceiling_comp].
Qed.

Lemma truncate_div (a b : Z) :
  (0 ≤ a)%Z → (0 < b)%Z → truncate (inject_Z a / inject_Z b) = (a / b)%Z.
Proof.
  intros Ha Hb. unfold truncate.
  assert (Qle_bool 0 (inject_Z a / inject_Z b) = true) as ->.
  { apply Qle_bool_iff. apply Qle_shift_div_l.
    - change 0 with (inject_Z 0). rewrite <- Zlt_Qlt. done.
    - rewrite Qmult_0_l. change 0 with (inject_Z 0). rewrite <- Zle_Qle. done. }
  symmetry. apply Zdiv_Qdiv.
Qed.

Lemma toInt32_small z : (-2147483648 ≤ z < 2147483648)%Z → toInt32 z = z.
Proof. intros H. unfold toInt32. rewrite Z.mod_small; lia. Qed.

(** On integer anchors, with an offset and a batch size that are whole
    numbers of units, the bucket is computed in integers. *)
Lemma computeExpirationBucket_Z (t e b : Z) :
  (0 < b)%Z → (0 ≤ 1073741822 - t + e)%Z →
  ((1073741822 - t + e) / b < 2147483648)%Z →
  computeExpirationBucket (inject_Z t) (inject_Z (10 * e)) (inject_Z (10 * b)) ==
  inject_Z (1073741822 - ((1073741822 - t + e) / b + 1) * b).
Proof.
  intros Hb HX Hr. unfold computeExpirationBucket, ceiling, bitorZero.
  assert (inject_Z (10 * e) / UNIT_SIZE == inject_Z e) as He.
  { unfold UNIT_SIZE. rewrite inject_Z_mult. field. }
  assert (inject_Z (10 * b) / UNIT_SIZE == inject_Z b) as Hb'.
  { unfold UNIT_SIZE. rewrite inject_Z_mult. field. }
  assert (MAGIC_NUMBER_OFFSET - inject_Z t + inject_Z (10 * e) / UNIT_SIZE ==
          inject_Z (1073741822 - t + e)) as HN.
  { rewrite He. change MAGIC_NUMBER_OFFSET with (inject_Z 1073741822).
    rewrite inject_Z_plus.
    replace (1073741822 - t)%Z with (1073741822 + - t)%Z by lia.
    rewrite inject_Z_plus, inject_Z_opp. ring. }
  rewrite (truncate_comp _ (inject_Z (1073741822 - t + e) / inject_Z b)).
  2:{ rewrite HN, Hb'. reflexivity. }
  rewrite truncate_div by done.
  rewrite toInt32_small.
  2:{ split; [|done]. pose proof (Z.div_pos _ _ HX Hb). lia. }
  rewrite Hb'. change MAGIC_NUMBER_OFFSET with (inject_Z 1073741822).
  set (q := ((1073741822 - t + e) / b)%Z).
  replace (1073741822 - (q + 1) * b)%Z with (1073741822 + - ((q + 1) * b))%Z by lia.
  rewrite inject_Z_plus, inject_Z_opp, inject_Z_mult, inject_Z_plus. ring.
Qed.
End ExpirationTimeFacts.

(** C3, as the code has it.  The bucketing is done by
    computeExpirationBucket on expiration-time anchors, not by
    unstable_scheduleCallback.  For an integer anchor t, an offset of e
    units and a batch of b units, the combined value 1073741822 - t + e is
    moved up to the next multiple of b strictly above it (floor division
    plus one: a value that is already a multiple moves up by a whole
    batch) and subtracted from 1073741822.  So computeAsyncExpiration gives
    two anchors of one batch window the same value, and anchors of
    different windows different values in the order of the anchors.
    unstable_scheduleCallback adds the timeout to the start time: two
    requests at one priority level, outside any event, get expirations
    that differ by exactly the difference of the clock readings. *)
Theorem C3_expiration_buckets :
  (∀ t e b : Z,
     (0 < b)%Z → (0 ≤ 1073741822 - t + e)%Z →
     ((1073741822 - t + e) / b < 2147483648)%Z →
     ∃ c : Z,
       (ExpirationTime.computeExpirationBucket
          (inject_Z t) (inject_Z (10 * e)) (inject_Z (10 * b))
        == inject_Z (1073741822 - c))%Q ∧
       c = (((1073741822 - t + e) / b + 1) * b)%Z ∧
       (c mod b = 0)%Z ∧
       (1073741822 - t + e < c ≤ 1073741822 - t + e + b)%Z) ∧
  (∀ t1 t2 : Z,
     (0 ≤ t1 ≤ 1073741822)%Z → (0 ≤ t2 ≤ 1073741822)%Z →
     let bucket (t : Z) := ((1073741822 - t + 500) / 25)%Z in
     (bucket t1 = bucket t2 →
      (ExpirationTime.computeAsyncExpiration (inject_Z t1)
       == ExpirationTime.computeAsyncExpiration (inject_Z t2))%Q) ∧
     (bucket t1 ≠ bucket t2 → (t1 < t2)%Z →
      (ExpirationTime.computeAsyncExpiration (inject_Z t1)
       < ExpirationTime.computeAsyncExpiration (inject_Z t2))%Q)) ∧
  (∀ (clock : nat → Z) cb1 cb2 options s1 l1 s2 l2,
     Queue s1 l1 → Queue s2 l2 →
     currentEventStartTime s1 = -1 → currentEventStartTime s2 = -1 →
     currentPriorityLevel s1 = currentPriorityLevel s2 →
     ∃ s1' s2' nd1 nd2,
       unstable_scheduleCallback clock cb1 options s1 = Some (s1', length (heap s1)) ∧
       unstable_scheduleCallback clock cb2 options s2 = Some (s2', length (heap s2)) ∧
       heap s1' !! length (heap s1) = Some nd1 ∧
       heap s2' !! length (heap s2) = Some nd2 ∧
       expirationTime nd2 - expirationTime nd1 =
         clock (clockReads s2) - clock (clockReads s1)).
Proof.
  split; [|split].
  - intros t e b Hb HX Hr. eexists. split; [|split; [reflexivity|]].
    + by apply ExpirationTimeFacts.computeExpirationBucket_Z.
    + split; [apply Z.mod_mul; lia|].
      pose proof (Z.mul_div_le (1073741822 - t + e) b Hb).
      pose proof (Z.mod_pos_bound (1073741822 - t + e) b Hb).
      pose proof (Z.div_mod (1073741822 - t + e) b). nia.
  - intros t1 t2 H1 H2 bucket.
    assert (∀ t, (0 ≤ t ≤ 1073741822)%Z →
              (ExpirationTime.computeAsyncExpiration (inject_Z t)
               == inject_Z (1073741822 - (bucket t + 1) * 25))%Q) as Hasync.
    { intros t Ht. unfold ExpirationTime.computeAsyncExpiration.
      apply (ExpirationTimeFacts.computeExpirationBucket_Z t 500 25); [lia|lia|].
      apply Z.div_lt_upper_bound; lia. }
    split.
    + intros Hbk. rewrite !Hasync by done. by rewrite Hbk.
    + intros Hbk Hlt. rewrite !Hasync by done. rewrite <- Zlt_Qlt.
      assert (bucket t2 ≤ bucket t1)%Z by (apply Z.div_le_mono; lia). lia.
  - intros clock cb1 cb2 options s1 l1 s2 l2 HQ1 HQ2 He1 He2 Hp.
    destruct (unstable_scheduleCallback_spec clock cb1 options s1 l1 HQ1)
      as (s1' & _ & _ & E1 & _ & _ & _ & _ & Hd1 & _).
    destruct (unstable_scheduleCallback_spec clock cb2 options s2 l2 HQ2)
      as (s2' & _ & _ & E2 & _ & _ & _ & _ & Hd2 & _).
    apply dataOf_expiration in Hd1 as (nd1 & Hnd1 & _ & _ & Hx1).
    apply dataOf_expiration in Hd2 as (nd2 & Hnd2 & _ & _ & Hx2).
    exists s1', s2', nd1, nd2. split_and!; try done.
    rewrite Hx1, Hx2. unfold scheduledExpiration, scheduledStart.
    rewrite He1, He2, Hp. simpl. destruct options; [lia|].
    repeat case_match; lia.
Qed.

Lemma C3_expiration_buckets_witness :
  (ExpirationTime.computeAsyncExpiration (inject_Z 1000)
   == ExpirationTime.computeAsyncExpiration (inject_Z 1010))%Q ∧
  (ExpirationTime.computeAsyncExpiration (inject_Z 1000)
   < ExpirationTime.computeAsyncExpiration (inject_Z 1030))%Q.
Proof.
  pose proof (proj1 (proj2 C3_expiration_buckets)) as H.
  split.
  - refine (proj1 (H 1000%Z 1010%Z _ _) _); [lia|lia|reflexivity].
  - refine (proj2 (H 1000%Z 1030%Z _ _) _ _); [lia|lia|vm_compute; discriminate|lia].
Defined.

(** C3, as stated, fails for unstable_scheduleCallback: two requests at
    Normal priority, 50ms apart and outside any event, get the expirations
    5000 and 5050. *)
Lemma C3_counterexample :
  ∃ s s',
    unstable_scheduleCallback (λ k, 50 * Z.of_nat k) Return None initialState
      = Some (s, 0%nat) ∧
    unstable_scheduleCallback (λ k, 50 * Z.of_nat k) Return None s
      = Some (s', 1%nat) ∧
    currentPriorityLevel initialState = NormalPriority ∧
    currentPriorityLevel s = NormalPriority ∧
    expirationOf (heap s') 0%nat = 5000 ∧
    expirationOf (heap s') 1%nat = 5050.
Proof.
  eexists. eexists. split; [vm_compute; reflexivity|].
  split; [vm_compute; reflexivity|]. by split_and!.
Qed.

(** * Further properties of the code *)

(** ** Milliseconds and expiration times *)

Module ExpirationUnits.
Import ExpirationTime.
Local Open Scope Q_scope.

Lemma div_UNIT_SIZE (x : Q) : x / inject_Z 10 == x * (1 # 10).
Proof. reflexivity. Qed.

Lemma truncate_nonneg x : 0 <= x → truncate x = Qfloor x.
Proof. intros H. unfold truncate. by apply Qle_bool_iff in H as ->. Qed.

Lemma truncate_nonpos x : x <= 0 → truncate x = Qceiling x.
Proof.
  intros H. unfold truncate. destruct (Qle_bool 0 x) eqn:E; [|done].
  apply Qle_bool_iff in E. assert (x == 0) as Hx by lra.
  rewrite (Qfloor_comp _ _ Hx), (Qceiling_comp _ _ Hx). done.
Qed.

Lemma Qfloor_bounds x (a b : Z) :
  inject_Z a <= x → x < inject_Z b → (a ≤ Qfloor x < b)%Z.
Proof.
  intros Ha Hb. split.
  - rewrite <- (Qfloor_Z a). by apply Qfloor_resp_le.
  - rewrite Zlt_Qlt. pose proof (Qfloor_le x). lra.
Qed.

Lemma Qceiling_bounds x (a b : Z) :
  inject_Z a < x → x <= inject_Z b → (a < Qceiling x ≤ b)%Z.
Proof.
  intros Ha Hb. split.
  - rewrite Zlt_Qlt. pose proof (Qle_ceiling x). lra.
  - rewrite <- (Qceiling_Z b). by apply Qceiling_resp_le.
Qed.

(** [ms / UNIT_SIZE | 0] for a time that fits. *)
Lemma units_nonneg ms :
  0 <= ms → ms < 21474836480 →
  bitorZero (ms / UNIT_SIZE) = inject_Z (Qfloor (ms / UNIT_SIZE)) ∧
  (0 ≤ Qfloor (ms / UNIT_SIZE) < 2147483648)%Z.
Proof.
  intros H0 H1. unfold bitorZero, UNIT_SIZE.
  assert (0 <= ms / inject_Z 10) as Hq by (rewrite div_UNIT_SIZE; lra).
  assert (ms / inject_Z 10 < inject_Z 2147483648) as Hq'.
  { rewrite div_UNIT_SIZE. change (inject_Z 2147483648) with (2147483648 # 1). lra. }
  pose proof (Qfloor_bounds _ 0 2147483648 Hq Hq') as Hb.
  rewrite truncate_nonneg by done. rewrite ExpirationTimeFacts.toInt32_small; [done|lia].
Qed.

Lemma units_nonpos ms :
  -21474836480 < ms → ms <= 0 →
  bitorZero (ms / UNIT_SIZE) = inject_Z (Qceiling (ms / UNIT_SIZE)) ∧
  (-2147483648 < Qceiling (ms / UNIT_SIZE) ≤ 0)%Z.
Proof.
  intros H0 H1. unfold bitorZero, UNIT_SIZE.
  assert (ms / inject_Z 10 <= inject_Z 0) as Hq.
  { rewrite div_UNIT_SIZE. change (inject_Z 0) with 0. lra. }
  assert (inject_Z (-2147483648) < ms / inject_Z 10) as Hq'.
  { rewrite div_UNIT_SIZE. change (inject_Z (-2147483648)) with (-2147483648 # 1). lra. }
  pose proof (Qceiling_bounds _ _ _ Hq' Hq) as Hb.
  rewrite truncate_nonpos by done.
  rewrite ExpirationTimeFacts.toInt32_small; [done|lia].
Qed.

Lemma truncate_Z z : truncate (inject_Z z) = z.
Proof. unfold truncate. destruct (Qle_bool 0 (inject_Z z)); [apply Qfloor_Z|apply Qceiling_Z]. Qed.

Lemma msToExpirationTime_comp x y : x == y → msToExpirationTime x == msToExpirationTime y.
Proof.
  intros H. unfold msToExpirationTime, bitorZero.
  rewrite (ExpirationTimeFacts.truncate_comp (x / UNIT_SIZE) (y / UNIT_SIZE)); [reflexivity|].
  by rewrite H.
Qed.

(** The unit a time falls in. *)
Lemma units_of ms (k : Z) :
  inject_Z (10 * k) <= ms → ms < inject_Z (10 * k + 10) →
  (0 ≤ k)%Z → truncate (ms / UNIT_SIZE) = k.
Proof.
  intros Hl Hu Hk. rewrite inject_Z_plus, inject_Z_mult in Hu.
  rewrite inject_Z_mult in Hl. change (inject_Z 10) with (10 # 1) in Hl, Hu.
  unfold UNIT_SIZE.
  rewrite (ExpirationTimeFacts.truncate_comp _ _ (div_UNIT_SIZE ms)).
  assert (0 <= inject_Z k) as Hk'.
  { change 0 with (inject_Z 0). by rewrite <- Zle_Qle. }
  rewrite truncate_nonneg by lra.
  assert (k ≤ Qfloor (ms * (1 # 10)) < k + 1)%Z; [|lia].
  apply Qfloor_bounds; [lra|]. rewrite inject_Z_plus. change (inject_Z 1) with 1. lra.
Qed.

Lemma toInt32_wrap z :
  (2147483648 ≤ z < 4294967296)%Z → toInt32 z = (z - 4294967296)%Z.
Proof.
  intros H. unfold toInt32.
  assert ((z + 2147483648) mod 4294967296 = z - 2147483648)%Z as ->; [|lia].
  symmetry. apply (Z.mod_unique _ _ 1); lia.
Qed.

End ExpirationUnits.

(** X1: a time in milliseconds that is turned into an expiration time and
    back comes out rounded toward zero to a whole number of 10ms units, so
    less than 10ms are lost; an integer expiration time that is turned into
    milliseconds and back comes out unchanged. *)
Theorem X1_ms_round_trip :
  (∀ ms : Q,
     (0 <= ms)%Q → (ms < 21474836480)%Q →
     let back := ExpirationTime.expirationTimeToMs
                   (ExpirationTime.msToExpirationTime ms) in
     (back == inject_Z (10 * Qfloor (ms / ExpirationTime.UNIT_SIZE)))%Q ∧
     (back <= ms)%Q ∧ (ms < back + 10)%Q) ∧
  (∀ ms : Q,
     (-21474836480 < ms)%Q → (ms <= 0)%Q →
     let back := ExpirationTime.expirationTimeToMs
                   (ExpirationTime.msToExpirationTime ms) in
     (back == inject_Z (10 * Qceiling (ms / ExpirationTime.UNIT_SIZE)))%Q ∧
     (ms <= back)%Q ∧ (back < ms + 10)%Q) ∧
  (∀ e : Z,
     (-2147483648 ≤ 1073741822 - e < 2147483648)%Z →
     (ExpirationTime.msToExpirationTime
        (ExpirationTime.expirationTimeToMs (inject_Z e)) == inject_Z e)%Q).
Proof.
  split; [|split].
  - intros ms H0 H1 back.
    destruct (ExpirationUnits.units_nonneg ms H0 H1) as [Hb Hr].
    assert (back == inject_Z (10 * Qfloor (ms / ExpirationTime.UNIT_SIZE)))%Q as Hback.
    { unfold back, ExpirationTime.expirationTimeToMs,
        ExpirationTime.msToExpirationTime.
      rewrite Hb, inject_Z_mult. unfold ExpirationTime.UNIT_SIZE. ring. }
    split; [done|]. rewrite Hback, inject_Z_mult.
    unfold ExpirationTime.UNIT_SIZE.
    rewrite (Qfloor_comp _ _ (ExpirationUnits.div_UNIT_SIZE ms)).
    pose proof (Qfloor_le (ms * (1 # 10))) as Hl.
    pose proof (Qlt_floor (ms * (1 # 10))) as Hu.
    rewrite inject_Z_plus in Hu.
    change (inject_Z 10) with (10 # 1). change (inject_Z 1) with 1%Q in Hu.
    split; lra.
  - intros ms H0 H1 back.
    destruct (ExpirationUnits.units_nonpos ms H0 H1) as [Hb Hr].
    assert (back == inject_Z (10 * Qceiling (ms / ExpirationTime.UNIT_SIZE)))%Q as Hback.
    { unfold back, ExpirationTime.expirationTimeToMs,
        ExpirationTime.msToExpirationTime.
      rewrite Hb, inject_Z_mult. unfold ExpirationTime.UNIT_SIZE. ring. }
    split; [done|]. rewrite Hback, inject_Z_mult.
    unfold ExpirationTime.UNIT_SIZE.
    rewrite (Qceiling_comp _ _ (ExpirationUnits.div_UNIT_SIZE ms)).
    pose proof (Qle_ceiling (ms * (1 # 10))) as Hl.
    pose proof (Qceiling_lt (ms * (1 # 10))) as Hu.
    replace (Qceiling (ms * (1 # 10)) - 1)%Z
      with (Qceiling (ms * (1 # 10)) + -1)%Z in Hu by lia.
    rewrite inject_Z_plus in Hu.
    change (inject_Z 10) with (10 # 1). change (inject_Z (-1)) with (-1 # 1) in Hu.
    split; lra.
  - intros e He.
    unfold ExpirationTime.msToExpirationTime, ExpirationTime.expirationTimeToMs,
      ExpirationTime.bitorZero.
    rewrite (ExpirationTimeFacts.truncate_comp _ (inject_Z (1073741822 - e))).
    2:{ change ExpirationTime.MAGIC_NUMBER_OFFSET with (inject_Z 1073741822).
        unfold ExpirationTime.UNIT_SIZE.
        replace (1073741822 - e)%Z with (1073741822 + - e)%Z by lia.
        rewrite inject_Z_plus, inject_Z_opp. field. }
    rewrite ExpirationUnits.truncate_Z, ExpirationTimeFacts.toInt32_small by done.
    change ExpirationTime.MAGIC_NUMBER_OFFSET with (inject_Z 1073741822).
    replace (1073741822 - e)%Z with (1073741822 + - e)%Z by lia.
    rewrite inject_Z_plus, inject_Z_opp. ring.
Qed.

Lemma X1_ms_round_trip_witness :
  (ExpirationTime.expirationTimeToMs (ExpirationTime.msToExpirationTime 2515)
   == 2510)%Q ∧
  (ExpirationTime.expirationTimeToMs (ExpirationTime.msToExpirationTime (-2515))
   == -2510)%Q ∧
  (ExpirationTime.msToExpirationTime (ExpirationTime.expirationTimeToMs 1073741571)
   == 1073741571)%Q.
Proof.
  destruct X1_ms_round_trip as (H1 & H2 & H3). split; [|split].
  - refine (proj1 (H1 2515%Q _ _)); [discriminate|reflexivity].
  - refine (proj1 (H2 (-2515)%Q _ _)); [reflexivity|discriminate].
  - refine (H3 1073741571%Z _). lia.
Defined.

(** X2: all the times of one 10ms unit get the same expiration time, the
    offset minus the number of the unit, so a later time never gets a
    larger expiration time; this holds up to 21474836480 ms, where the
    number of units no longer fits in 32 bits: from there on [| 0] wraps,
    and the expiration time lies above the offset. *)
Theorem X2_msToExpirationTime_units :
  (∀ (k : Z) (ms : Q),
     (0 ≤ k < 2147483648)%Z →
     (inject_Z (10 * k) <= ms)%Q → (ms < inject_Z (10 * k + 10))%Q →
     (ExpirationTime.msToExpirationTime ms == inject_Z (1073741822 - k))%Q) ∧
  (∀ ms1 ms2 : Q,
     (0 <= ms1)%Q → (ms1 <= ms2)%Q → (ms2 < 21474836480)%Q →
     (ExpirationTime.msToExpirationTime ms2
      <= ExpirationTime.msToExpirationTime ms1)%Q) ∧
  (∀ (k : Z) (ms : Q),
     (2147483648 ≤ k < 4294967296)%Z →
     (inject_Z (10 * k) <= ms)%Q → (ms < inject_Z (10 * k + 10))%Q →
     (ExpirationTime.msToExpirationTime ms
      == inject_Z (1073741822 + (4294967296 - k)))%Q ∧
     (ExpirationTime.MAGIC_NUMBER_OFFSET
      < ExpirationTime.msToExpirationTime ms)%Q).
Proof.
  split; [|split].
  - intros k ms Hk Hl Hu.
    unfold ExpirationTime.msToExpirationTime, ExpirationTime.bitorZero.
    rewrite (ExpirationUnits.units_of ms k) by (done || lia).
    rewrite ExpirationTimeFacts.toInt32_small by lia.
    change ExpirationTime.MAGIC_NUMBER_OFFSET with (inject_Z 1073741822).
    replace (1073741822 - k)%Z with (1073741822 + - k)%Z by lia.
    rewrite inject_Z_plus, inject_Z_opp. ring.
  - intros ms1 ms2 H0 H12 H2.
    destruct (ExpirationUnits.units_nonneg ms1) as [E1 _]; [lra|lra|].
    destruct (ExpirationUnits.units_nonneg ms2) as [E2 _]; [lra|lra|].
    unfold ExpirationTime.msToExpirationTime. rewrite E1, E2.
    assert (Qfloor (ms1 / ExpirationTime.UNIT_SIZE)
            ≤ Qfloor (ms2 / ExpirationTime.UNIT_SIZE))%Z as Hle.
    { apply Qfloor_resp_le. unfold ExpirationTime.UNIT_SIZE.
      rewrite !ExpirationUnits.div_UNIT_SIZE. lra. }
    rewrite Zle_Qle in Hle. lra.
  - intros k ms Hk Hl Hu.
    assert (ExpirationTime.msToExpirationTime ms
            == inject_Z (1073741822 + (4294967296 - k)))%Q as E.
    { unfold ExpirationTime.msToExpirationTime, ExpirationTime.bitorZero.
      rewrite (ExpirationUnits.units_of ms k) by (done || lia).
      rewrite ExpirationUnits.toInt32_wrap by lia.
      change ExpirationTime.MAGIC_NUMBER_OFFSET with (inject_Z 1073741822).
      replace (k - 4294967296)%Z with (- (4294967296 - k))%Z by lia.
      rewrite inject_Z_plus, inject_Z_opp. ring. }
    split; [done|]. rewrite E.
    change ExpirationTime.MAGIC_NUMBER_OFFSET with (inject_Z 1073741822).
    rewrite <- Zlt_Qlt. lia.
Qed.

Lemma X2_msToExpirationTime_units_witness :
  (ExpirationTime.msToExpirationTime 2515 == 1073741571)%Q ∧
  (ExpirationTime.msToExpirationTime 2515
   <= ExpirationTime.msToExpirationTime 1000)%Q ∧
  (ExpirationTime.msToExpirationTime 21474836480 == 3221225470)%Q.
Proof.
  destruct X2_msToExpirationTime_units as (H1 & H2 & H3). split; [|split].
  - refine (H1 251%Z 2515%Q _ _ _); [lia|discriminate|reflexivity].
  - refine (H2 1000%Q 2515%Q _ _ _); [discriminate|discriminate|reflexivity].
  - refine (proj1 (H3 2147483648%Z 21474836480%Q _ _ _));
      [lia|discriminate|reflexivity].
Defined.

(** The bucket of an integer anchor, with the distance to the anchor. *)
Lemma computeExpirationBucket_window (t e b : Z) :
  (0 < b)%Z → (0 ≤ 1073741822 - t + e)%Z →
  ((1073741822 - t + e) / b < 2147483648)%Z →
  ∃ d : Z,
    (ExpirationTime.computeExpirationBucket
       (inject_Z t) (inject_Z (10 * e)) (inject_Z (10 * b))
     == inject_Z (t - d))%Q ∧
    (e < d ≤ e + b)%Z.
Proof.
  intros Hb HX Hr.
  exists (((1073741822 - t + e) / b + 1) * b - 1073741822 + t)%Z. split.
  - rewrite ExpirationTimeFacts.computeExpirationBucket_Z by done.
    apply inject_Z_injective. lia.
  - pose proof (Z.mul_div_le (1073741822 - t + e) b Hb).
    pose proof (Z.mod_pos_bound (1073741822 - t + e) b Hb).
    pose proof (Z.div_mod (1073741822 - t + e) b). nia.
Qed.

Lemma expirationTimeToMs_diff (t d : Z) :
  (ExpirationTime.expirationTimeToMs (inject_Z (t - d))
   - ExpirationTime.expirationTimeToMs (inject_Z t) == inject_Z (10 * d))%Q.
Proof.
  unfold ExpirationTime.expirationTimeToMs, ExpirationTime.UNIT_SIZE.
  replace (t - d)%Z with (t + - d)%Z by lia.
  rewrite inject_Z_plus, inject_Z_opp, inject_Z_mult. ring.
Qed.

(** X3: measured in milliseconds from the current time, the expiration
    that computeAsyncExpiration gives lies more than 5000 and at most 5250
    ahead, and the one that computeInteractiveExpiration gives more than
    150 and at most 250 ahead (500 and 600 in development); so an
    interactive update always expires before an asynchronous one computed
    at the same time, and both expire after the current time. *)
Theorem X3_expiration_windows (DEV : bool) (t : Z) :
  (0 ≤ t ≤ 1073741822)%Z →
  let currentTime := inject_Z t in
  let msUntil (expirationTime : Q) : Q :=
    (ExpirationTime.expirationTimeToMs expirationTime
     - ExpirationTime.expirationTimeToMs currentTime)%Q in
  let async := ExpirationTime.computeAsyncExpiration currentTime in
  let interactive := ExpirationTime.computeInteractiveExpiration DEV currentTime in
  (5000 < msUntil async)%Q ∧ (msUntil async <= 5250)%Q ∧
  (ExpirationTime.HIGH_PRIORITY_EXPIRATION DEV < msUntil interactive)%Q ∧
  (msUntil interactive <= ExpirationTime.HIGH_PRIORITY_EXPIRATION DEV + 100)%Q ∧
  (async < interactive)%Q ∧ (interactive < currentTime)%Q.
Proof.
  intros Ht currentTime msUntil async interactive.
  destruct (computeExpirationBucket_window t 500 25) as (da & Ea & Hda);
    [lia|lia|apply Z.div_lt_upper_bound; lia|].
  assert (∃ di : Z,
            (interactive == inject_Z (t - di))%Q ∧
            ((if DEV then 50 else 15) < di ≤ (if DEV then 50 else 15) + 10)%Z)
    as (di & Ei & Hdi).
  { unfold interactive, ExpirationTime.computeInteractiveExpiration.
    destruct DEV.
    - apply (computeExpirationBucket_window t 50 10);
        [lia|lia|apply Z.div_lt_upper_bound; lia].
    - apply (computeExpirationBucket_window t 15 10);
        [lia|lia|apply Z.div_lt_upper_bound; lia]. }
  change (async == inject_Z (t - da))%Q in Ea.
  assert (msUntil async == inject_Z (10 * da))%Q as Ma.
  { unfold msUntil. rewrite <- expirationTimeToMs_diff.
    unfold ExpirationTime.expirationTimeToMs. by rewrite Ea. }
  assert (msUntil interactive == inject_Z (10 * di))%Q as Mi.
  { unfold msUntil. rewrite <- expirationTimeToMs_diff.
    unfold ExpirationTime.expirationTimeToMs. by rewrite Ei. }
  rewrite Ma, Mi, Ea, Ei. unfold currentTime.
  change 5000%Q with (inject_Z 5000). change 5250%Q with (inject_Z 5250).
  assert (ExpirationTime.HIGH_PRIORITY_EXPIRATION DEV
          = inject_Z (10 * (if DEV then 50 else 15))) as -> by (by destruct DEV).
  change 100%Q with (inject_Z 100). rewrite <- inject_Z_plus.
  rewrite <- !Zlt_Qlt, <- !Zle_Qle. destruct DEV; lia.
Qed.

Lemma X3_expiration_windows_witness :
  (ExpirationTime.computeAsyncExpiration 1073741000
   < ExpirationTime.computeInteractiveExpiration false 1073741000)%Q ∧
  (ExpirationTime.computeInteractiveExpiration false 1073741000 < 1073741000)%Q.
Proof.
  assert (0 ≤ 1073741000 ≤ 1073741822)%Z as Ht by lia.
  pose proof (X3_expiration_windows false 1073741000 Ht) as H.
  exact (proj2 (proj2 (proj2 (proj2 H)))).
Defined.

(** ** Inferring a priority level back (ReactFiberExpirationTime.old.js) *)

Module ExpirationOldFacts.
Import ExpirationTimeOld.
Local Open Scope Q_scope.

Lemma Qle_bool_comp x x' y y' : x == x' → y == y' → Qle_bool x y = Qle_bool x' y'.
Proof.
  intros Hx Hy.
  destruct (Qle_bool x y) eqn:E1, (Qle_bool x' y') eqn:E2; try reflexivity.
  - apply Qle_bool_iff in E1. rewrite Hx, Hy in E1. apply Qle_bool_iff in E1.
    congruence.
  - apply Qle_bool_iff in E2. rewrite <- Hx, <- Hy in E2. apply Qle_bool_iff in E2.
    congruence.
Qed.

Lemma inferPriorityFromExpirationTime_comp I U N L DEV c e e' :
  e == e' →
  inferPriorityFromExpirationTime I U N L DEV c e
  = inferPriorityFromExpirationTime I U N L DEV c e'.
Proof.
  intros H. unfold inferPriorityFromExpirationTime.
  rewrite !(Qeqb_comp e e' H _ _ (Qeq_refl _)).
  assert (expirationTimeToMs e - expirationTimeToMs c
          == expirationTimeToMs e' - expirationTimeToMs c) as Hm.
  { unfold expirationTimeToMs. by rewrite H. }
  by rewrite !(Qle_bool_comp _ _ _ _ Hm (Qeq_refl _)).
Qed.

Lemma computeExpirationBucket_old_window (t e b : Z) :
  (0 < b)%Z → (0 ≤ 1073741821 - t + e)%Z →
  ((1073741821 - t + e) / b < 2147483648)%Z →
  ∃ d : Z,
    computeExpirationBucket (inject_Z t) (inject_Z (10 * e)) (inject_Z (10 * b))
    == inject_Z (t - d) ∧
    (e < d ≤ e + b)%Z.
Proof.
  intros Hb HX Hr.
  exists (((1073741821 - t + e) / b + 1) * b - 1073741821 + t)%Z. split.
  - unfold computeExpirationBucket, ceiling, ExpirationTime.bitorZero.
    assert (inject_Z (10 * e) / UNIT_SIZE == inject_Z e) as He.
    { unfold UNIT_SIZE. rewrite inject_Z_mult. field. }
    assert (inject_Z (10 * b) / UNIT_SIZE == inject_Z b) as Hb'.
    { unfold UNIT_SIZE. rewrite inject_Z_mult. field. }
    assert (MAGIC_NUMBER_OFFSET - inject_Z t + inject_Z (10 * e) / UNIT_SIZE ==
            inject_Z (1073741821 - t + e)) as HN.
    { rewrite He. change MAGIC_NUMBER_OFFSET with (inject_Z 1073741821).
      rewrite inject_Z_plus.
      replace (1073741821 - t)%Z with (1073741821 + - t)%Z by lia.
      rewrite inject_Z_plus, inject_Z_opp. ring. }
    rewrite (ExpirationTimeFacts.truncate_comp _
               (inject_Z (1073741821 - t + e) / inject_Z b)).
    2:{ rewrite HN, Hb'. reflexivity. }
    rewrite ExpirationTimeFacts.truncate_div by done.
    rewrite ExpirationTimeFacts.toInt32_small.
    2:{ split; [|done]. pose proof (Z.div_pos _ _ HX Hb). lia. }
    rewrite Hb'. change MAGIC_NUMBER_OFFSET with (inject_Z 1073741821).
    set (q := ((1073741821 - t + e) / b)%Z).
    replace (t - ((q + 1) * b - 1073741821 + t))%Z
      with (1073741821 + - ((q + 1) * b))%Z by lia.
    rewrite inject_Z_plus, inject_Z_opp, inject_Z_mult, inject_Z_plus. ring.
  - pose proof (Z.mul_div_le (1073741821 - t + e) b Hb).
    pose proof (Z.mod_pos_bound (1073741821 - t + e) b Hb).
    pose proof (Z.div_mod (1073741821 - t + e) b). nia.
Qed.

(** The priority level inferred for an integer expiration time that lies
    [d] units before the integer current time. *)
Lemma inferPriorityFromExpirationTime_Z I U N L DEV (t d : Z) :
  (2 < t - d < 1073741823)%Z →
  inferPriorityFromExpirationTime I U N L DEV (inject_Z t) (inject_Z (t - d))
  = if (d <=? 0)%Z then I
    else if (d <=? (if DEV then 60 else 25))%Z then U
    else if (d <=? 525)%Z then N
    else L.
Proof.
  intros Hr. unfold inferPriorityFromExpirationTime.
  assert (∀ a b : Z, a ≠ b → Qeq_bool (inject_Z a) (inject_Z b) = false) as Hne.
  { intros a b Hab. destruct (Qeq_bool _ _) eqn:E; [|done].
    apply Qeq_bool_iff in E. unfold Qeq in E. simpl in E. lia. }
  rewrite !Hne by (unfold Sync, Never, Idle, MAX_SIGNED_31_BIT_INT; lia). simpl.
  assert (expirationTimeToMs (inject_Z (t - d)) - expirationTimeToMs (inject_Z t)
          == inject_Z (10 * d)) as Hm.
  { unfold expirationTimeToMs, UNIT_SIZE.
    replace (t - d)%Z with (t + - d)%Z by lia.
    rewrite inject_Z_plus, inject_Z_opp, inject_Z_mult. ring. }
  assert (∀ a b : Z, Qle_bool (inject_Z a) (inject_Z b) = (a <=? b)%Z) as Hle.
  { intros a b. destruct (Z.leb_spec a b) as [H|H].
    - apply Qle_bool_iff. by rewrite <- Zle_Qle.
    - destruct (Qle_bool _ _) eqn:E; [|done].
      apply Qle_bool_iff in E. rewrite <- Zle_Qle in E. lia. }
  rewrite (Qle_bool_comp _ (inject_Z (10 * d)) 0 (inject_Z 0) Hm) by reflexivity.
  rewrite (Qle_bool_comp _ (inject_Z (10 * d))
             (HIGH_PRIORITY_EXPIRATION DEV + HIGH_PRIORITY_BATCH_SIZE)
             (inject_Z (if DEV then 600 else 250)) Hm) by (by destruct DEV).
  rewrite (Qle_bool_comp _ (inject_Z (10 * d))
             (LOW_PRIORITY_EXPIRATION + LOW_PRIORITY_BATCH_SIZE)
             (inject_Z 5250) Hm) by reflexivity.
  rewrite !Hle.
  destruct DEV;
    destruct (Z.leb_spec d 0), (Z.leb_spec (10 * d) 0); try lia; try done;
    destruct (Z.leb_spec d 60), (Z.leb_spec (10 * d) 600),
             (Z.leb_spec d 25), (Z.leb_spec (10 * d) 250); try lia; try done;
    destruct (Z.leb_spec d 525), (Z.leb_spec (10 * d) 5250); try lia; done.
Qed.

End ExpirationOldFacts.

(** X4: inferPriorityFromExpirationTime recovers the kind of update from
    the expiration time that was computed for it at the same current time:
    NormalPriority from computeAsyncExpiration, UserBlockingPriority from
    computeInteractiveExpiration, and ImmediatePriority from an expiration
    time that is not after the current time.  The current time must be
    above 527, so that the computed expiration time is not one of the
    reserved values Never and Idle. *)
Theorem X4_inferPriority_round_trip
    (ImmediatePriority UserBlockingPriority NormalPriority IdlePriority : Z)
    (DEV : bool) (t : Z) :
  (528 ≤ t ≤ 1073741821)%Z →
  let infer :=
    ExpirationTimeOld.inferPriorityFromExpirationTime
      ImmediatePriority UserBlockingPriority NormalPriority IdlePriority DEV
      (inject_Z t) in
  infer (ExpirationTimeOld.computeAsyncExpiration (inject_Z t)) = NormalPriority ∧
  infer (ExpirationTimeOld.computeInteractiveExpiration DEV (inject_Z t))
    = UserBlockingPriority ∧
  (∀ e : Z, (t ≤ e ≤ 1073741823)%Z → infer (inject_Z e) = ImmediatePriority).
Proof.
  intros Ht infer. split; [|split].
  - destruct (ExpirationOldFacts.computeExpirationBucket_old_window t 500 25)
      as (d & E & Hd); [lia|lia|apply Z.div_lt_upper_bound; lia|].
    unfold infer.
    rewrite (ExpirationOldFacts.inferPriorityFromExpirationTime_comp
               _ _ _ _ _ _ _ _ E).
    rewrite ExpirationOldFacts.inferPriorityFromExpirationTime_Z by lia.
    destruct DEV; repeat case_match; try done; lia.
  - assert (∃ d : Z,
              (ExpirationTimeOld.computeInteractiveExpiration DEV (inject_Z t)
               == inject_Z (t - d))%Q ∧
              ((if DEV then 50 else 15) < d ≤ (if DEV then 60 else 25))%Z)
      as (d & E & Hd).
    { unfold ExpirationTimeOld.computeInteractiveExpiration. destruct DEV.
      - apply (ExpirationOldFacts.computeExpirationBucket_old_window t 50 10);
          [lia|lia|apply Z.div_lt_upper_bound; lia].
      - apply (ExpirationOldFacts.computeExpirationBucket_old_window t 15 10);
          [lia|lia|apply Z.div_lt_upper_bound; lia]. }
    unfold infer.
    rewrite (ExpirationOldFacts.inferPriorityFromExpirationTime_comp
               _ _ _ _ _ _ _ _ E).
    rewrite ExpirationOldFacts.inferPriorityFromExpirationTime_Z
      by (destruct DEV; lia).
    destruct DEV; repeat case_match; try done; lia.
  - intros e He. unfold infer.
    destruct (decide (e = 1073741823)) as [->|Hne].
    + reflexivity.
    + replace e with (t - (t - e))%Z by lia.
      rewrite ExpirationOldFacts.inferPriorityFromExpirationTime_Z by lia.
      case_match; [done|lia].
Qed.

Lemma X4_inferPriority_round_trip_witness :
  ExpirationTimeOld.inferPriorityFromExpirationTime 99 98 97 95 false 1073741000
    (ExpirationTimeOld.computeAsyncExpiration 1073741000) = 97%Z ∧
  ExpirationTimeOld.inferPriorityFromExpirationTime 99 98 97 95 false 1073741000
    (ExpirationTimeOld.computeInteractiveExpiration false 1073741000) = 98%Z.
Proof.
  assert (528 ≤ 1073741000 ≤ 1073741821)%Z as Ht by lia.
  pose proof (X4_inferPriority_round_trip 99 98 97 95 false 1073741000 Ht) as H.
  split; [exact (proj1 H)|exact (proj1 (proj2 H))].
Defined.

(** ** The requestAnimationFrame polyfill *)

Lemma Polyfill_requests_lookup times : ∀ lastTime i c,
  times !! i = Some c →
  ∃ r prev,
    Polyfill.requests times lastTime !! i = Some r ∧
    prev = match i with
           | O => lastTime
           | S j => default lastTime
                      (Polyfill.timestamp <$> Polyfill.requests times lastTime !! j)
           end ∧
    Polyfill.timestamp r = Z.max c (prev + 16) ∧
    Polyfill.timeToCall r = Polyfill.timestamp r - c.
Proof.
  induction times as [|c0 times IH]; intros lastTime i c Hi; [done|].
  destruct i as [|i]; simpl in *.
  - injection Hi as ->. eexists _, _. split; [done|]. split; [done|].
    simpl. lia.
  - destruct (IH (c0 + Z.max 0 (16 - (c0 - lastTime))) i c Hi)
      as (r & prev & Hr & Hprev & Ht & Hc).
    exists r, prev. split; [done|]. split; [|done].
    rewrite Hprev. destruct i as [|j]; simpl; [done|].
    destruct (lookup_lt_is_Some_2
                (Polyfill.requests times (c0 + Z.max 0 (16 - (c0 - lastTime)))) j)
      as [r' Hr']; [|by rewrite Hr'].
    apply lookup_lt_Some in Hr. lia.
Qed.

(** X5: the polyfill never calls a callback in the past nor less than
    16ms after the time it gave to the previous callback: the timestamp of
    a request is the larger of the clock reading at the request and the
    previous timestamp plus 16, and the timer delay is the distance from
    the clock reading to it, at most 16ms when the clock has reached the
    previous timestamp. *)
Theorem X5_polyfill_frame_spacing (times : list Z) (lastTime : Z) (i : nat) (c : Z) :
  times !! i = Some c →
  ∃ r : Polyfill.Request,
    Polyfill.requests times lastTime !! i = Some r ∧
    let prev :=
      match i with
      | O => lastTime
      | S j => default lastTime
                 (Polyfill.timestamp <$> Polyfill.requests times lastTime !! j)
      end in
    Polyfill.timestamp r = Z.max c (prev + 16) ∧
    Polyfill.timestamp r = c + Polyfill.timeToCall r ∧
    prev + 16 ≤ Polyfill.timestamp r ∧
    0 ≤ Polyfill.timeToCall r ∧
    (prev ≤ c → Polyfill.timeToCall r ≤ 16).
Proof.
  intros Hi.
  destruct (Polyfill_requests_lookup times lastTime i c Hi)
    as (r & prev & Hr & -> & Ht & Hc).
  exists r. split; [done|]. simpl. lia.
Qed.

Lemma X5_polyfill_frame_spacing_witness :
  Polyfill.timestamp <$> Polyfill.requests [0; 12; 30; 60; 100] 0
  = [16; 32; 48; 64; 100] ∧
  Polyfill.timeToCall <$> Polyfill.requests [0; 12; 30; 60; 100] 0
  = [16; 20; 18; 4; 0] ∧
  ∃ r, Polyfill.requests [0; 12; 30; 60; 100] 0 !! 3%nat = Some r ∧
       Polyfill.timestamp r = Z.max 60 (48 + 16).
Proof.
  split; [reflexivity|]. split; [reflexivity|].
  destruct (X5_polyfill_frame_spacing [0; 12; 30; 60; 100] 0 3 60 eq_refl)
    as (r & Hr & Ht & _).
  exists r. split; [exact Hr|exact Ht].
Defined.

(** ** The priority level that handlers run at *)

Section HandlerLevel.
Variable clock : nat → Z.
Variable hostYield : nat → bool.

(** X6: unstable_next calls its handler at NormalPriority when the ambient
    priority level is Immediate, UserBlocking or Normal, and at the ambient
    level otherwise.  The handler is called in the state of the call with
    that level and a fresh reading of the clock as event start time; every
    call of unstable_getCurrentPriorityLevel that it makes answers that
    level, and the level is the same when it is done.  unstable_next does
    what the handler does, followed by the finally block: the level and the
    event start time of before the call are put back and the immediate work
    is flushed.  When unstable_next completes, by a return or by a throw,
    the ambient priority level and the event start time are what they were
    before. *)
Theorem X6_next_lowers_priority n fn s :
  let P :=
    if bool_decide (currentPriorityLevel s = ImmediatePriority
                    ∨ currentPriorityLevel s = UserBlockingPriority
                    ∨ currentPriorityLevel s = NormalPriority)
    then NormalPriority else currentPriorityLevel s in
  let s1 := enterEvent clock P s in
  unstable_getCurrentPriorityLevel s1 = P ∧
  unstable_next clock (exec clock hostYield n) n
    (exec clock hostYield (S n) fn) s =
    match exec clock hostYield (S n) fn s1 with
    | None => None
    | Some (s2, c) => finishEvent (exec clock hostYield n) n s s2 c
    end ∧
  exec clock hostYield (S n) (answerLevel P fn) s1 =
    exec clock hostYield (S n) fn s1 ∧
  (∀ s2 c,
     exec clock hostYield (S n) fn s1 = Some (s2, c) →
     unstable_getCurrentPriorityLevel s2 = P ∧
     unstable_getCurrentPriorityLevel (leaveEvent s s2)
       = unstable_getCurrentPriorityLevel s ∧
     currentEventStartTime (leaveEvent s s2) = currentEventStartTime s) ∧
  ∀ s' c,
    unstable_next clock (exec clock hostYield n) n
      (exec clock hostYield (S n) fn) s = Some (s', c) →
    unstable_getCurrentPriorityLevel s' = unstable_getCurrentPriorityLevel s ∧
    currentEventStartTime s' = currentEventStartTime s.
Proof.
  intros P s1.
  assert (∀ h, unstable_next clock (exec clock hostYield n) n h s
               = withEvent clock (exec clock hostYield n) n P h s) as E.
  { intros h. unfold unstable_next, P.
    unfold ImmediatePriority, UserBlockingPriority, NormalPriority.
    case_bool_decide as H.
    - destruct H as [->|[->| ->]]; reflexivity.
    - destruct (Z.eqb_spec (currentPriorityLevel s) 1); [tauto|].
      destruct (Z.eqb_spec (currentPriorityLevel s) 2); [tauto|].
      destruct (Z.eqb_spec (currentPriorityLevel s) 3); [tauto|]. done. }
  destruct (withEvent_handler clock hostYield n P fn s)
    as (Hl & Hw & Ha & Hfn & Hend).
  rewrite !E. done.
Qed.

(** X7: the function that unstable_wrapCallback returns calls the callback
    at the priority level that was ambient when it was wrapped, whatever
    the level is when it is called.  The callback is called in the state of
    the call with the level of the wrapping and a fresh reading of the
    clock as event start time; every call of
    unstable_getCurrentPriorityLevel that it makes answers the level of the
    wrapping, and the level is the same when it is done.  The call does
    what the callback does, followed by the finally block: the caller's
    level and event start time are put back and the immediate work is
    flushed.  When the call completes, by a return or by a throw, the
    caller's priority level and event start time are back. *)
Theorem X7_wrapCallback_priority n cb s0 s :
  let wrapped := unstable_wrapCallback cb s0 in
  let s1 := enterEvent clock (currentPriorityLevel s0) s in
  unstable_getCurrentPriorityLevel s1 = unstable_getCurrentPriorityLevel s0 ∧
  callWrapped clock (exec clock hostYield n) n wrapped.1
    (exec clock hostYield (S n) wrapped.2) s =
    match exec clock hostYield (S n) cb s1 with
    | None => None
    | Some (s2, c) => finishEvent (exec clock hostYield n) n s s2 c
    end ∧
  exec clock hostYield (S n) (answerLevel (currentPriorityLevel s0) cb) s1 =
    exec clock hostYield (S n) cb s1 ∧
  (∀ s2 c,
     exec clock hostYield (S n) cb s1 = Some (s2, c) →
     unstable_getCurrentPriorityLevel s2 = unstable_getCurrentPriorityLevel s0 ∧
     unstable_getCurrentPriorityLevel (leaveEvent s s2)
       = unstable_getCurrentPriorityLevel s ∧
     currentEventStartTime (leaveEvent s s2) = currentEventStartTime s) ∧
  ∀ s' c,
    callWrapped clock (exec clock hostYield n) n wrapped.1
      (exec clock hostYield (S n) wrapped.2) s = Some (s', c) →
    unstable_getCurrentPriorityLevel s' = unstable_getCurrentPriorityLevel s ∧
    currentEventStartTime s' = currentEventStartTime s.
Proof.
  intros wrapped s1. unfold wrapped, unstable_wrapCallback, callWrapped. simpl.
  exact (withEvent_handler clock hostYield n (currentPriorityLevel s0) cb s).
Qed.

(** X8: unstable_runWithPriority called with a value that is none of the
    five priority levels calls the handler at NormalPriority, not at that
    value.  The handler is called in the state of the call with the level
    NormalPriority and a fresh reading of the clock as event start time;
    every call of unstable_getCurrentPriorityLevel that it makes answers
    NormalPriority, and the level is still NormalPriority when it is done.
    The call does what the handler does, followed by the finally block,
    and when it completes, by a return or by a throw, the ambient priority
    level and the event start time are what they were before. *)
Theorem X8_runWithPriority_unknown_level n P fn s :
  P ≠ ImmediatePriority → P ≠ UserBlockingPriority → P ≠ NormalPriority →
  P ≠ LowPriority → P ≠ IdlePriority →
  let s1 := enterEvent clock NormalPriority s in
  unstable_getCurrentPriorityLevel s1 = NormalPriority ∧
  unstable_runWithPriority clock (exec clock hostYield n) n P
    (exec clock hostYield (S n) fn) s =
    match exec clock hostYield (S n) fn s1 with
    | None => None
    | Some (s2, c) => finishEvent (exec clock hostYield n) n s s2 c
    end ∧
  exec clock hostYield (S n) (answerLevel NormalPriority fn) s1 =
    exec clock hostYield (S n) fn s1 ∧
  (∀ s2 c,
     exec clock hostYield (S n) fn s1 = Some (s2, c) →
     unstable_getCurrentPriorityLevel s2 = NormalPriority ∧
     unstable_getCurrentPriorityLevel (leaveEvent s s2)
       = unstable_getCurrentPriorityLevel s ∧
     currentEventStartTime (leaveEvent s s2) = currentEventStartTime s) ∧
  ∀ s' c,
    unstable_runWithPriority clock (exec clock hostYield n) n P
      (exec clock hostYield (S n) fn) s = Some (s', c) →
    unstable_getCurrentPriorityLevel s' = unstable_getCurrentPriorityLevel s ∧
    currentEventStartTime s' = currentEventStartTime s.
Proof.
  intros H1 H2 H3 H4 H5 s1.
  assert (∀ h, unstable_runWithPriority clock (exec clock hostYield n) n P h s
               = withEvent clock (exec clock hostYield n) n NormalPriority h s) as E.
  { intros h. unfold unstable_runWithPriority.
    destruct (Z.eqb_spec P ImmediatePriority); [done|].
    destruct (Z.eqb_spec P UserBlockingPriority); [done|].
    destruct (Z.eqb_spec P NormalPriority); [done|].
    destruct (Z.eqb_spec P LowPriority); [done|].
    destruct (Z.eqb_spec P IdlePriority); [done|]. done. }
  rewrite !E.
  exact (withEvent_handler clock hostYield n NormalPriority fn s).
Qed.

End HandlerLevel.

Lemma X6_next_lowers_priority_witness :
  ∃ s2 s',
    exec (λ _, 0) (λ _, false) 2
      (GetCurrentPriorityLevel (λ v, if v =? 3 then Throw else Return))
      (enterEvent (λ _, 0) NormalPriority
         (set_currentPriorityLevel ImmediatePriority initialState))
      = Some (s2, Thrown) ∧
    unstable_getCurrentPriorityLevel s2 = NormalPriority ∧
    unstable_next (λ _, 0) (exec (λ _, 0) (λ _, false) 1) 1
      (exec (λ _, 0) (λ _, false) 2
         (GetCurrentPriorityLevel (λ v, if v =? 3 then Throw else Return)))
      (set_currentPriorityLevel ImmediatePriority initialState)
    = Some (s', Thrown) ∧
    unstable_getCurrentPriorityLevel s' = ImmediatePriority.
Proof.
  pose proof (X6_next_lowers_priority (λ _, 0) (λ _, false) 1
                (GetCurrentPriorityLevel (λ v, if v =? 3 then Throw else Return))
                (set_currentPriorityLevel ImmediatePriority initialState))
    as (_ & _ & _ & Hfn & Hend).
  eexists. eexists. split; [vm_compute; reflexivity|].
  split; [refine (proj1 (Hfn _ Thrown _)); vm_compute; reflexivity|].
  split; [vm_compute; reflexivity|].
  refine (proj1 (Hend _ Thrown _)). vm_compute; reflexivity.
Defined.

Lemma X7_wrapCallback_priority_witness :
  ∃ s2 s',
    exec (λ _, 0) (λ _, false) 2
      (GetCurrentPriorityLevel (λ v, if v =? 2 then Throw else Return))
      (enterEvent (λ _, 0) UserBlockingPriority initialState)
      = Some (s2, Thrown) ∧
    unstable_getCurrentPriorityLevel s2 = UserBlockingPriority ∧
    callWrapped (λ _, 0) (exec (λ _, 0) (λ _, false) 1) 1
      (unstable_wrapCallback
         (GetCurrentPriorityLevel (λ v, if v =? 2 then Throw else Return))
         (set_currentPriorityLevel UserBlockingPriority initialState)).1
      (exec (λ _, 0) (λ _, false) 2
         (unstable_wrapCallback
            (GetCurrentPriorityLevel (λ v, if v =? 2 then Throw else Return))
            (set_currentPriorityLevel UserBlockingPriority initialState)).2)
      initialState
    = Some (s', Thrown) ∧
    unstable_getCurrentPriorityLevel s' = NormalPriority.
Proof.
  pose proof (X7_wrapCallback_priority (λ _, 0) (λ _, false) 1
                (GetCurrentPriorityLevel (λ v, if v =? 2 then Throw else Return))
                (set_currentPriorityLevel UserBlockingPriority initialState)
                initialState)
    as (_ & _ & _ & Hfn & Hend).
  eexists. eexists. split; [vm_compute; reflexivity|].
  split; [refine (proj1 (Hfn _ Thrown _)); vm_compute; reflexivity|].
  split; [vm_compute; reflexivity|].
  refine (proj1 (Hend _ Thrown _)). vm_compute; reflexivity.
Defined.

Lemma X8_runWithPriority_unknown_level_witness :
  ∃ s2 s',
    exec (λ _, 0) (λ _, false) 2
      (GetCurrentPriorityLevel (λ v, if v =? 3 then Throw else Return))
      (enterEvent (λ _, 0) NormalPriority
         (set_currentPriorityLevel LowPriority initialState))
      = Some (s2, Thrown) ∧
    unstable_getCurrentPriorityLevel s2 = NormalPriority ∧
    unstable_runWithPriority (λ _, 0) (exec (λ _, 0) (λ _, false) 1) 1 7
      (exec (λ _, 0) (λ _, false) 2
         (GetCurrentPriorityLevel (λ v, if v =? 3 then Throw else Return)))
      (set_currentPriorityLevel LowPriority initialState)
    = Some (s', Thrown) ∧
    unstable_getCurrentPriorityLevel s' = LowPriority.
Proof.
  pose proof (X8_runWithPriority_unknown_level (λ _, 0) (λ _, false) 1 7
                (GetCurrentPriorityLevel (λ v, if v =? 3 then Throw else Return))
                (set_currentPriorityLevel LowPriority initialState)
                ltac:(vm_compute; discriminate) ltac:(vm_compute; discriminate)
                ltac:(vm_compute; discriminate) ltac:(vm_compute; discriminate)
                ltac:(vm_compute; discriminate))
    as (_ & _ & _ & Hfn & Hend).
  eexists. eexists. split; [vm_compute; reflexivity|].
  split; [refine (proj1 (Hfn _ Thrown _)); vm_compute; reflexivity|].
  split; [vm_compute; reflexivity|].
  refine (proj1 (Hend _ Thrown _)). vm_compute; reflexivity.
Defined.

(** ** What is restored when control leaves the scheduler *)

Lemma Restores_refl s : Restores s s.
Proof. split; [apply Framed_refl|done]. Qed.

Lemma Restores_trans s1 s2 s3 : Restores s1 s2 → Restores s2 s3 → Restores s1 s3.
Proof. intros [? ?] [? ?]. split; [by eapply Framed_trans|auto]. Qed.

Lemma stateUpdate_Restores P s s' :
  (∀ e, P e → notYield e) → stateUpdate P s s' → Restores s s'.
Proof.
  intros HP H. split; [by eapply stateUpdate_Framed|].
  destruct H as (_&_&_&_&_&He&_). congruence.
Qed.

Lemma queueUpdate_Restores s s' : queueUpdate s s' → Restores s s'.
Proof. apply stateUpdate_Restores, hostEvent_notYield. Qed.

Section RestoresFacts.
Variable enableSchedulerDebugging : bool.
Variable clock : nat → Z.
Variable hostYield : nat → bool.

Lemma Restores_schedule cb options s s' i :
  unstable_scheduleCallback clock cb options s = Some (s', i) → Restores s s'.
Proof. intros [? _]%unstable_scheduleCallback_inv. by apply queueUpdate_Restores. Qed.

Lemma Restores_cancel i s s' :
  unstable_cancelCallback i s = Some s' → Restores s s'.
Proof.
  intros [H _]%unstable_cancelCallback_inv.
  eapply stateUpdate_Restores; [|done]. by intros ? ->.
Qed.

Lemma Restores_shouldYield s : Restores s (unstable_shouldYield hostYield s).2.
Proof.
  split; [apply Framed_shouldYield|]. unfold unstable_shouldYield.
  repeat case_match; simplify_eq/=; done.
Qed.

Lemma Restores_pause s : Restores s (unstable_pauseExecution s).
Proof. split; [apply Framed_pause|done]. Qed.

Lemma Restores_continue s s' :
  unstable_continueExecution s = Some s' → Restores s s'.
Proof.
  intros E. split; [by eapply Framed_continue|].
  apply unstable_continueExecution_inv in E as (_ & _ & H).
  destruct H as (_&_&_&_&_&He&_). simpl in He. congruence.
Qed.

Lemma Restores_now s : Restores s (getCurrentTime clock s).2.
Proof. split; [apply Framed_now|done]. Qed.

Lemma Restores_yieldToHost s : Restores s (shouldYieldToHost hostYield s).2.
Proof. split; [apply Framed_yieldToHost|done]. Qed.

Lemma Restores_flushFirst run :
  (∀ p, preserves Restores (run p)) → preserves Restores (flushFirstCallback run).
Proof.
  intros Hrun s s' c E. split.
  { eapply (Framed_flushFirst false run); [|done].
    intros p s0 s0' c0 E0. by apply Hrun in E0 as [? _]. }
  revert E. rewrite flushFirstCallback_unfold.
  destruct (unlinkFirst s) as [[[b nd] s1]|] eqn:E1; [|done].
  apply unlinkFirst_inv in E1 as (_ & _ & Hu & _ & _).
  destruct Hu as (_&_&_&_&_&He1&_).
  destruct (run _ _) as [[s3 c3]|] eqn:E3; [|done].
  apply Hrun in E3 as [_ He3]. simpl in He3.
  destruct c3 as [[k|]|]; try (intros [= <- <-]; simpl; intros; apply He3; congruence).
  destruct (insertContinuation _ _ _ _) as [s5|] eqn:E5; [|done].
  intros [= <- <-]. unfold insertContinuation in E5.
  apply insertNode_inv in E5 as (_&_&_&_&_&He5&_). simpl in He5.
  intros. rewrite He5. apply He3. congruence.
Qed.

Lemma Restores_immediate s s1 s2 :
  Restores (set_isExecutingCallback true s) s1 →
  afterFlush (set_isExecutingCallback false s1) = Some s2 → Restores s s2.
Proof.
  intros [H1 _] E. split; [by eapply Framed_immediate|].
  apply afterFlush_inv in E as (_ & _ & H).
  destruct H as (_&_&_&_&_&He&_). by intros _.
Qed.

Lemma Restores_event s pl s2 :
  Restores (set_currentEventStartTime (clock (clockReads s))
              (set_currentPriorityLevel pl (set_clockReads (S (clockReads s)) s))) s2 →
  Restores s (set_currentEventStartTime (currentEventStartTime s)
                (set_currentPriorityLevel (currentPriorityLevel s) s2)).
Proof. intros [H1 H2]. split; [by apply (Framed_event clock false s pl)|done]. Qed.

Lemma Restores_work s b s1 s2 :
  Restores (set_currentDidTimeout b (set_isExecutingCallback true s)) s1 →
  afterFlush
    (set_currentDidTimeout (currentDidTimeout s)
       (set_isExecutingCallback false s1)) = Some s2 →
  Restores s s2.
Proof.
  intros [(H1 & H2 & H3 & _ & tr & H5 & _) _] E.
  apply afterFlush_inv in E as (_ & _ & H).
  destruct H as (Hd&_&Hp&Hs&Hx&He&_&_&tr'&Ht&_). simpl in *.
  split; [|by intros _].
  unfold Framed; split_and!; try congruence.
  exists (tr' ++ tr). split; [|done]. rewrite Ht, H5, <- app_assoc. done.
Qed.

Lemma exec_Restores n p : preserves Restores (exec clock hostYield n p).
Proof.
  exact (exec_rel clock hostYield Restores Restores_refl Restores_trans
           Restores_schedule Restores_cancel Restores_shouldYield Restores_pause
           Restores_continue Restores_now Restores_flushFirst Restores_immediate
           Restores_event n p).
Qed.

Lemma flushWork_Restores n didTimeout :
  preserves Restores
    (flushWork enableSchedulerDebugging clock hostYield n didTimeout).
Proof.
  exact (flushWork_rel clock hostYield Restores Restores_refl Restores_trans
           Restores_schedule Restores_cancel Restores_shouldYield Restores_pause
           Restores_continue Restores_now Restores_flushFirst Restores_immediate
           Restores_event enableSchedulerDebugging Restores_yieldToHost
           Restores_work n didTimeout).
Qed.

Lemma runOps_Restores n ops : ∀ s s',
  runOps enableSchedulerDebugging clock hostYield n ops s = Some s' → Restores s s'.
Proof.
  induction ops as [|o ops IH]; intros s s'; simpl.
  - intros [= <-]. apply Restores_refl.
  - destruct (runOp enableSchedulerDebugging clock hostYield n o s)
      as [[s1 c]|] eqn:E; [|done].
    intros H%IH. eapply Restores_trans; [|done].
    destruct o; simpl in E.
    + by eapply flushWork_Restores.
    + by eapply exec_Restores.
Qed.

(** X9: whatever the host and the application do, and however the
    callbacks and handlers end (by a return or by a throw), when control
    is back outside the scheduler the ambient priority level, the event
    start time, the current expiration time and the timeout flag are what
    they were before, and isExecutingCallback is false if it was.  From
    the state of the freshly loaded module they are NormalPriority, -1, -1,
    false and false after every sequence of calls. *)
Theorem X9_ambient_state_restored n ops s s' :
  runOps enableSchedulerDebugging clock hostYield n ops s = Some s' →
  currentPriorityLevel s' = currentPriorityLevel s ∧
  currentEventStartTime s' = currentEventStartTime s ∧
  currentExpirationTime s' = currentExpirationTime s ∧
  currentDidTimeout s' = currentDidTimeout s ∧
  (isExecutingCallback s = false → isExecutingCallback s' = false) ∧
  (s = initialState →
   currentPriorityLevel s' = NormalPriority ∧ currentEventStartTime s' = -1 ∧
   currentExpirationTime s' = -1 ∧ currentDidTimeout s' = false ∧
   isExecutingCallback s' = false).
Proof.
  intros [(H1 & H2 & H3 & H4 & _) H5]%runOps_Restores.
  split_and!; try done. intros ->. rewrite H1, H2, H3, H4, H5; done.
Qed.

End RestoresFacts.

Lemma X9_ambient_state_restored_witness :
  ∃ s',
    runOps false (λ _, 7) (λ _, false) 3
      [AppCall (ScheduleCallback
                  (RunWithPriority ImmediatePriority Throw Return) None
                  (λ _, Return));
       HostFlushWork false] initialState = Some s' ∧
    invoked (trace s') = [0%nat] ∧
    currentPriorityLevel s' = NormalPriority ∧ currentEventStartTime s' = -1 ∧
    currentExpirationTime s' = -1 ∧ currentDidTimeout s' = false ∧
    isExecutingCallback s' = false.
Proof.
  eexists. split; [vm_compute; reflexivity|]. split; [vm_compute; reflexivity|].
  refine (proj2 (proj2 (proj2 (proj2 (proj2
            (X9_ambient_state_restored false (λ _, 7) (λ _, false) 3
               [AppCall (ScheduleCallback
                           (RunWithPriority ImmediatePriority Throw Return) None
                           (λ _, Return));
                HostFlushWork false] initialState _ _))))) eq_refl).
  vm_compute; reflexivity.
Defined.

(** ** No callback is called twice *)

Lemma elem_of_invoked i tr : i ∈ invoked tr ↔ EvInvoke i ∈ tr.
Proof.
  unfold invoked. rewrite list_elem_of_omap. split.
  - intros (e & He & Heq). destruct e; simplify_eq. done.
  - intros H. by exists (EvInvoke i).
Qed.

Lemma invoked_app tr1 tr2 : invoked (tr1 ++ tr2) = invoked tr1 ++ invoked tr2.
Proof. apply omap_app. Qed.

Lemma invoked_nil_Forall (P : Event → Prop) tr :
  (∀ e, P e → ∀ i, e ≠ EvInvoke i) → Forall P tr → invoked tr = [].
Proof.
  intros HP. induction 1 as [|e tr He _ IH]; [done|].
  unfold invoked in *. destruct e; simpl; try done.
  by destruct (HP _ He node).
Qed.

Lemma invoked_hostEvent tr : Forall hostEvent tr → invoked tr = [].
Proof. apply invoked_nil_Forall. by intros [] ? ?. Qed.

(** The nodes of the queue are the nodes with a next link. *)
Lemma Queue_elem s l i : Queue s l → i ∈ l ↔ is_Some (nextOf (heap s) i).
Proof.
  intros HQ. split.
  - intros (l1 & l2 & ->)%list_elem_of_split.
    pose proof (cyc_succ l1 i l2) as Hc.
    apply (q_ring _ _ _ HQ) in Hc as [Hn _]. by rewrite Hn.
  - intros [j Hj]. destruct (decide (i ∈ l)) as [|Hn]; [done|].
    apply (q_free _ _ _ HQ) in Hn as [Hn _]. congruence.
Qed.

Lemma Queue_same_elems s l l' i : Queue s l → Queue s l' → i ∈ l → i ∈ l'.
Proof. intros H1 H2. rewrite (Queue_elem s l i H1), (Queue_elem s l' i H2). done. Qed.

Lemma Once_refl s : Once s s.
Proof.
  split; [apply Evolves_refl|]. intros l l' tr _ _ Ht.
  assert (tr = []) as ->.
  { apply (f_equal length) in Ht. rewrite length_app in Ht.
    destruct tr; [done|simpl in Ht; lia]. }
  split; [constructor|]. by intros i ?%elem_of_nil.
Qed.

Lemma Once_trans s1 s2 s3 : Once s1 s2 → Once s2 s3 → Once s1 s3.
Proof.
  intros [E12 O12] [E23 O23]. split; [by eapply Evolves_trans|].
  intros l1 l3 tr HQ1 HQ3 Ht.
  destruct (E12 l1 HQ1) as (l2 & tr1 & HQ2 & Ht1 & Hl1 & _ & _ & _ & _).
  destruct (E23 l2 HQ2) as (l3' & tr2 & HQ3' & Ht2 & Hl2 & _ & Hi2 & _ & Hv2).
  destruct (O12 l1 l2 tr1 HQ1 HQ2 Ht1) as [Hn1 Hm1].
  destruct (O23 l2 l3 tr2 HQ2 HQ3 Ht2) as [Hn2 Hm2].
  assert (tr = tr2 ++ tr1) as ->.
  { apply (app_inv_tail (trace s1)). rewrite <- Ht, Ht2, Ht1. by rewrite app_assoc. }
  rewrite invoked_app. split.
  - apply NoDup_app. split; [done|]. split; [|done].
    intros i Hi2' Hi1. apply Hm1 in Hi1 as [Hi1 Hlt].
    apply elem_of_invoked, Hv2 in Hi2' as [?|?]; [done|lia].
  - intros i [Hi|Hi]%elem_of_app; [by apply Hm2|].
    apply Hm1 in Hi as [Hi Hlt]. split; [|lia].
    intros Hin. apply (Queue_same_elems s3 l3 l3') in Hin; [|done|done].
    apply Hi2 in Hin as [?|?]; [done|lia].
Qed.

(** A step that calls no callback. *)
Lemma Once_quiet s s' :
  Evolves s s' → (∀ tr, trace s' = tr ++ trace s → invoked tr = []) → Once s s'.
Proof.
  intros HE Hq. split; [done|]. intros l l' tr _ _ Ht.
  rewrite (Hq tr Ht). split; [constructor|]. by intros i ?%elem_of_nil.
Qed.

Lemma stateUpdate_quiet (P : Event → Prop) s s' :
  (∀ e, P e → ∀ i, e ≠ EvInvoke i) → stateUpdate P s s' →
  ∀ tr, trace s' = tr ++ trace s → invoked tr = [].
Proof.
  intros HP (_&_&_&_&_&_&_&_&tr0&Ht0&Hf) tr Ht.
  assert (tr = tr0) as -> by (apply (app_inv_tail (trace s)); congruence).
  by eapply invoked_nil_Forall.
Qed.

Lemma queueUpdate_quiet s s' :
  queueUpdate s s' → ∀ tr, trace s' = tr ++ trace s → invoked tr = [].
Proof. apply stateUpdate_quiet. by intros [] ? ?. Qed.

Lemma same_trace_quiet (s s' : State) :
  trace s' = trace s → ∀ tr, trace s' = tr ++ trace s → invoked tr = [].
Proof.
  intros He tr Ht. rewrite He in Ht.
  apply (f_equal length) in Ht. rewrite length_app in Ht.
  destruct tr; [done|simpl in Ht; lia].
Qed.

Section OnceFacts.
Variable enableSchedulerDebugging : bool.
Variable clock : nat → Z.
Variable hostYield : nat → bool.

Lemma Once_schedule cb options s s' i :
  unstable_scheduleCallback clock cb options s = Some (s', i) → Once s s'.
Proof.
  intros E. apply Once_quiet; [by eapply Evolves_schedule|].
  apply unstable_scheduleCallback_inv in E as [Hu _]. by apply queueUpdate_quiet.
Qed.

Lemma Once_cancel i s s' : unstable_cancelCallback i s = Some s' → Once s s'.
Proof.
  intros E. apply Once_quiet; [by eapply Evolves_cancel|].
  apply unstable_cancelCallback_inv in E as [Hu _].
  eapply stateUpdate_quiet; [|done]. by intros ? -> ?.
Qed.

Lemma Once_yieldToHost s : Once s (shouldYieldToHost hostYield s).2.
Proof.
  apply Once_quiet; [apply Evolves_yieldToHost|]. simpl. intros tr Ht.
  assert (tr = [EvShouldYieldToHost (hostYield (yieldReads s))]) as ->; [|done].
  apply (app_inv_tail (trace s)). by rewrite <- Ht.
Qed.

Lemma Once_shouldYield s : Once s (unstable_shouldYield hostYield s).2.
Proof.
  apply Once_quiet; [apply Evolves_shouldYield|].
  unfold unstable_shouldYield.
  destruct (negb _); [|by apply same_trace_quiet].
  destruct (match firstExpirationTime s with Some _ => _ | None => _ end);
    [by apply same_trace_quiet|].
  simpl. intros tr Ht.
  assert (tr = [EvShouldYieldToHost (hostYield (yieldReads s))]) as ->; [|done].
  apply (app_inv_tail (trace s)). by rewrite <- Ht.
Qed.

Lemma Once_pause s : Once s (unstable_pauseExecution s).
Proof. apply Once_quiet; [apply Evolves_pause|]. by apply same_trace_quiet. Qed.

Lemma Once_continue s s' : unstable_continueExecution s = Some s' → Once s s'.
Proof.
  intros E. apply Once_quiet; [by eapply Evolves_continue|].
  apply unstable_continueExecution_inv in E as (_ & _ & Hu).
  intros tr Ht. by apply (queueUpdate_quiet _ _ Hu).
Qed.

Lemma Once_now s : Once s (getCurrentTime clock s).2.
Proof. apply Once_quiet; [apply Evolves_now|]. by apply same_trace_quiet. Qed.

(** Steps that change neither the store, the first node nor the trace. *)
Lemma Once_fields s s' :
  heap s' = heap s → firstCallbackNode s' = firstCallbackNode s →
  trace s' = trace s → Once s s'.
Proof.
  intros Hh Hf Ht. apply Once_quiet; [|by apply same_trace_quiet].
  apply (Evolves_same _ _ []); try done. by intros i ?%elem_of_nil.
Qed.

Lemma Once_immediate s s1 s2 :
  Once (set_isExecutingCallback true s) s1 →
  afterFlush (set_isExecutingCallback false s1) = Some s2 → Once s s2.
Proof.
  intros H1 E. apply afterFlush_inv in E as (Hh & Hf & Hu).
  eapply Once_trans; [by apply (Once_fields s (set_isExecutingCallback true s))|].
  eapply Once_trans; [exact H1|].
  eapply Once_trans; [by apply (Once_fields s1 (set_isExecutingCallback false s1))|].
  apply Once_quiet; [by apply Evolves_queueUpdate|by apply queueUpdate_quiet].
Qed.

Lemma Once_event s pl s2 :
  Once (set_currentEventStartTime (clock (clockReads s))
          (set_currentPriorityLevel pl (set_clockReads (S (clockReads s)) s))) s2 →
  Once s (set_currentEventStartTime (currentEventStartTime s)
            (set_currentPriorityLevel (currentPriorityLevel s) s2)).
Proof.
  intros H. eapply Once_trans; [|eapply Once_trans; [exact H|]];
    by apply Once_fields.
Qed.

Lemma Once_work s b s1 s2 :
  Once (set_currentDidTimeout b (set_isExecutingCallback true s)) s1 →
  afterFlush (set_currentDidTimeout (currentDidTimeout s)
                (set_isExecutingCallback false s1)) = Some s2 →
  Once s s2.
Proof.
  intros H1 E. apply afterFlush_inv in E as (Hh & Hf & Hu).
  eapply Once_trans; [|eapply Once_trans; [exact H1|]].
  - by apply Once_fields.
  - eapply Once_trans;
      [by apply (Once_fields s1 (set_currentDidTimeout (currentDidTimeout s)
                                   (set_isExecutingCallback false s1)))|].
    apply Once_quiet; [by apply Evolves_queueUpdate|by apply queueUpdate_quiet].
Qed.

Lemma Once_flushFirst run :
  (∀ p, preserves Once (run p)) → preserves Once (flushFirstCallback run).
Proof.
  intros Hrun s s' c E.
  assert (Evolves s s') as HE.
  { eapply (Evolves_flushFirst run); [|done].
    intros p s0 s0' c0 E0. by apply Hrun in E0 as [? _]. }
  split; [done|]. intros l l' tr HQ HQ' Ht.
  revert E. rewrite flushFirstCallback_unfold.
  destruct (unlinkFirst s) as [[[b nd] s1]|] eqn:E1; [|done].
  destruct (run _ _) as [[s3 c3]|] eqn:E3; [|done].
  intros E.
  apply unlinkFirst_inv in E1 as Hinv. destruct Hinv as (Hf & Hnd & _ & _ & _).
  destruct l as [|b' l0]; [by rewrite (q_first _ _ _ HQ) in Hf|].
  rewrite (q_first _ _ _ HQ) in Hf. simpl in Hf. simplify_eq.
  destruct (unlinkFirst_spec s b l0 HQ)
    as (nd' & s1' & E1' & _ & HQ1 & Hlen1 & _ & _ & Ht1).
  assert (nd' = nd ∧ s1' = s1) as [-> ->] by (rewrite E1 in E1'; by simplify_eq).
  assert (Queue (enterCallback b nd s1) l0) as HQe by (by apply (Queue_ext s1)).
  apply Hrun in E3 as [E3 O3].
  destruct (E3 l0 HQe) as (l3 & tr3 & HQ3 & Ht3 & Hlen3 & _ & Hi3 & _ & Hv3).
  destruct (O3 l0 l3 tr3 HQe HQ3 Ht3) as [Hn3 Hm3].
  simpl in Ht3, Hlen3, Hi3, Hv3. rewrite Ht1 in Ht3. rewrite Hlen1 in *.
  assert ((b ∉ l0) ∧ (b < length (heap s))%nat) as [Hb0 Hblt].
  { split; [by apply NoDup_cons_1_1, (q_nodup _ _ _ HQ)|].
    apply (Queue_lt s _ HQ). by left. }
  assert (b ∉ invoked tr3) as Hb3.
  { intros [?|?]%elem_of_invoked%Hv3; [done|lia]. }
  assert (b ∉ l3) as Hbl3 by (intros [?|?]%Hi3; [done|lia]).
  assert (NoDup (invoked (tr3 ++ [EvInvoke b]))) as Hnd'.
  { rewrite invoked_app. apply NoDup_app. split; [done|]. split.
    - intros i Hi [->|[]%elem_of_nil]%elem_of_cons. done.
    - apply NoDup_singleton. }
  assert (∀ i, i ∈ invoked (tr3 ++ [EvInvoke b]) →
            (i ∉ l3) ∧ (i < length (heap s3))%nat) as Hm.
  { intros i. rewrite invoked_app.
    intros [Hi|[->|[]%elem_of_nil]%elem_of_cons]%elem_of_app; [by apply Hm3|].
    split; [done|lia]. }
  assert (trace s3 = (tr3 ++ [EvInvoke b]) ++ trace s) as Ht3'
    by (by rewrite <- app_assoc).
  assert (Queue (leaveCallback s1 s3) l3) as HQ4 by (by apply (Queue_ext s3)).
  destruct c3 as [[k|]|].
  - destruct (insertContinuation_spec k (priorityLevel nd) (expirationTime nd)
                (leaveCallback s1 s3) l3 HQ4)
      as (s5 & l1 & l2 & E5 & -> & HQ5 & _ & _ & _ & Hlen5 & _ & Hu5).
    rewrite E5 in E. simplify_eq. simpl in *.
    destruct Hu5 as (_&_&_&_&_&_&_&_&tr5&Ht5&Hp5). simpl in Ht5.
    assert (tr = tr5 ++ tr3 ++ [EvInvoke b]) as ->.
    { apply (app_inv_tail (trace s)). rewrite <- Ht, Ht5, Ht3'.
      by rewrite <- !app_assoc. }
    rewrite invoked_app, (invoked_hostEvent tr5 Hp5). simpl.
    split; [done|]. intros i Hi. destruct (Hm i Hi) as [Hi3' Hlt].
    split; [|lia]. intros Hin.
    apply (Queue_same_elems s' l' (l1 ++ length (heap s3) :: l2)) in Hin;
      [|done|done].
    apply elem_of_app in Hin as [?|[->|?]%elem_of_cons].
    + apply Hi3', elem_of_app. auto.
    + lia.
    + apply Hi3', elem_of_app. auto.
  - simplify_eq.
    assert (tr = tr3 ++ [EvInvoke b]) as ->.
    { apply (app_inv_tail (trace s)). by rewrite <- Ht, <- Ht3'. }
    split; [done|]. intros i Hi. destruct (Hm i Hi) as [Hi3' Hlt].
    split; [|done]. intros Hin. apply Hi3'.
    by apply (Queue_same_elems (leaveCallback s1 s3) l' l3).
  - simplify_eq.
    assert (tr = tr3 ++ [EvInvoke b]) as ->.
    { apply (app_inv_tail (trace s)). by rewrite <- Ht, <- Ht3'. }
    split; [done|]. intros i Hi. destruct (Hm i Hi) as [Hi3' Hlt].
    split; [|done]. intros Hin. apply Hi3'.
    by apply (Queue_same_elems (leaveCallback s1 s3) l' l3).
Qed.

Lemma exec_Once n p : preserves Once (exec clock hostYield n p).
Proof.
  exact (exec_rel clock hostYield Once Once_refl Once_trans Once_schedule
           Once_cancel Once_shouldYield Once_pause Once_continue Once_now
           Once_flushFirst Once_immediate Once_event n p).
Qed.

Lemma flushWork_Once n didTimeout :
  preserves Once (flushWork enableSchedulerDebugging clock hostYield n didTimeout).
Proof.
  exact (flushWork_rel clock hostYield Once Once_refl Once_trans Once_schedule
           Once_cancel Once_shouldYield Once_pause Once_continue Once_now
           Once_flushFirst Once_immediate Once_event enableSchedulerDebugging
           Once_yieldToHost Once_work n didTimeout).
Qed.

Lemma runOps_Once n ops : ∀ s s',
  runOps enableSchedulerDebugging clock hostYield n ops s = Some s' → Once s s'.
Proof.
  induction ops as [|o ops IH]; intros s s'; simpl.
  - intros [= <-]. apply Once_refl.
  - destruct (runOp enableSchedulerDebugging clock hostYield n o s)
      as [[s1 c]|] eqn:E; [|done].
    intros H%IH. eapply Once_trans; [|done].
    destruct o; simpl in E.
    + by eapply flushWork_Once.
    + by eapply exec_Once.
Qed.

(** X10: no callback node is ever called twice.  In every sequence of
    calls by the host and the application that starts from the freshly
    loaded module, the nodes whose callback flushFirstCallback has called
    are pairwise distinct; each of them is a node that
    unstable_scheduleCallback or a continuation created, and none of them
    is in the queue any more (its next link is null), so it will not be
    called again either. *)
Theorem X10_callback_called_at_most_once n ops s' :
  runOps enableSchedulerDebugging clock hostYield n ops initialState = Some s' →
  NoDup (invoked (trace s')) ∧
  ∀ i, i ∈ invoked (trace s') →
    (i < length (heap s'))%nat ∧ nextOf (heap s') i = None ∧
    unstable_cancelCallback i s' = Some s'.
Proof.
  intros [HE HO]%runOps_Once.
  destruct (HE [] Queue_initial) as (l' & tr & HQ' & Ht & _).
  simpl in Ht. rewrite app_nil_r in Ht. subst tr.
  destruct (HO [] l' (trace s') Queue_initial HQ') as [Hn Hm].
  { simpl. by rewrite app_nil_r. }
  split; [done|]. intros i Hi. destruct (Hm i Hi) as [Hil Hlt].
  split; [done|]. split.
  - by apply (q_free _ _ _ HQ').
  - by apply (unstable_cancelCallback_idle s' l').
Qed.

End OnceFacts.

Lemma X10_callback_called_at_most_once_witness :
  ∃ s',
    runOps false (λ _, 0) (λ _, false) 3
      [AppCall (ScheduleCallback (ReturnFn Return) None (λ _,
                ScheduleCallback Throw None (λ _, Return)));
       HostFlushWork false; HostFlushWork false] initialState = Some s' ∧
    invoked (trace s') = [1; 2; 0]%nat ∧ NoDup (invoked (trace s')).
Proof.
  eexists. split; [vm_compute; reflexivity|]. split; [vm_compute; reflexivity|].
  refine (proj1 (X10_callback_called_at_most_once false (λ _, 0) (λ _, false) 3
                   [AppCall (ScheduleCallback (ReturnFn Return) None (λ _,
                             ScheduleCallback Throw None (λ _, Return)));
                    HostFlushWork false; HostFlushWork false] _ _)).
  vm_compute; reflexivity.
Defined.

(** ** flushWork asks the host again *)

Section FlushWorkRequests.
Variable enableSchedulerDebugging : bool.
Variable clock : nat → Z.
Variable hostYield : nat → bool.

Lemma afterFlush_requests s s' :
  isExecutingCallback s = false → afterFlush s = Some s' →
  isExecutingCallback s' = false ∧
  match firstCallbackNode s' with
  | None => isHostCallbackScheduled s' = false
  | Some _ =>
      isHostCallbackScheduled s' = true ∧
      ∃ e tr, firstExpirationTime s' = Some e ∧
              trace s' = EvRequestHostCallback e :: tr
  end.
Proof.
  intros Hx. unfold afterFlush, ensureHostCallbackIsScheduled. rewrite Hx.
  destruct (firstCallbackNode s) as [f|] eqn:Ef.
  - destruct (firstExpirationTime s) as [e|] eqn:Ee; [|done]. intros [= <-].
    assert (∀ s0, firstCallbackNode s0 = firstCallbackNode s → heap s0 = heap s →
                  firstExpirationTime s0 = Some e) as Hfe.
    { intros s0 H1 H2. unfold firstExpirationTime in *. by rewrite H1, H2. }
    destruct (isHostCallbackScheduled s) eqn:Eh; simpl; rewrite Ef;
      (split; [done|]); (split; [done|]); eexists _, _; (split; [by apply Hfe|done]).
  - intros [= <-]. simpl. by rewrite Ef.
Qed.

(** X11: flushWork never leaves queued work without a wake-up.  Unless the
    scheduler is paused, when flushWork completes, by a return or because
    a callback threw, isExecutingCallback is false and either the queue is
    empty and isHostCallbackScheduled is false, or isHostCallbackScheduled
    is true and the last thing flushWork did was to call
    requestHostCallback with the expiration time of the first node of the
    queue. *)
Theorem X11_flushWork_requests_host n didTimeout s s' c :
  paused enableSchedulerDebugging s = false →
  flushWork enableSchedulerDebugging clock hostYield n didTimeout s = Some (s', c) →
  isExecutingCallback s' = false ∧
  match firstCallbackNode s' with
  | None => isHostCallbackScheduled s' = false
  | Some _ =>
      isHostCallbackScheduled s' = true ∧
      ∃ e tr, firstExpirationTime s' = Some e ∧
              trace s' = EvRequestHostCallback e :: tr
  end.
Proof.
  intros Hp. unfold flushWork, flushWorkFinally. rewrite Hp.
  destruct (flushWorkTry _ _ _ _ _ _) as [[s1 c1]|]; [|done].
  destruct (afterFlush _) as [s2|] eqn:E2; [|done].
  apply afterFlush_requests in E2; [|done].
  unfold flushImmediateWork.
  destruct (_ && _).
  - destruct (flushImmediateLoop _ _ _) as [[s3 c3]|]; [|done].
    destruct (afterFlush _) as [s4|] eqn:E4; [|done].
    apply afterFlush_requests in E4; [|done].
    destruct c3; intros [= <- <-]; done.
  - intros [= <- <-]. done.
Qed.

End FlushWorkRequests.

Lemma X11_flushWork_requests_host_witness :
  ∃ s s',
    exec (λ _, 0) (λ _, false) 1
      (ScheduleCallback Throw None (λ _, ScheduleCallback Return None (λ _, Return)))
      initialState = Some (s, Normal None) ∧
    flushWork false (λ _, 0) (λ _, false) 2 false s = Some (s', Thrown) ∧
    firstCallbackNode s' = Some 1%nat ∧
    isHostCallbackScheduled s' = true ∧
    ∃ tr, trace s' = EvRequestHostCallback 5000 :: tr.
Proof.
  eexists. eexists. split; [vm_compute; reflexivity|].
  match goal with
  | |- flushWork _ _ _ _ _ ?s = _ ∧ _ =>
      pose proof (X11_flushWork_requests_host false (λ _, 0) (λ _, false) 2 false s)
        as H
  end.
  split; [vm_compute; reflexivity|]. split; [vm_compute; reflexivity|].
  match goal with
  | |- context [trace ?s'] =>
      specialize (H s' Thrown eq_refl ltac:(vm_compute; reflexivity))
  end.
  destruct H as (_ & H). simpl in H. destruct H as (Hh & e & tr & He & Ht).
  split; [exact Hh|]. exists tr. vm_compute in He. injection He as <-. exact Ht.
Defined.

(** ** The order in which flushWork calls the callbacks *)

Lemma Ran_refl s l : Queue s l → Ran s l 0 s.
Proof. intros HQ. unfold Ran. rewrite drop_0, take_0. split_and!; try done. lia. Qed.

Lemma Ran_trans s l k s1 j s2 :
  Ran s l k s1 → Ran s1 (drop k l) j s2 → Ran s l (k + j) s2.
Proof.
  intros (Hk & HQ1 & Ht1 & Hd1 & Hp1) (Hj & HQ2 & Ht2 & Hd2 & Hp2).
  rewrite length_drop in Hj. rewrite drop_drop in HQ2.
  unfold Ran. split; [lia|]. split; [done|]. split.
  { rewrite Ht2, Ht1, app_assoc. f_equal.
    rewrite <- rev_app_distr. f_equal. by rewrite take_take_drop. }
  split; [intros i; by rewrite Hd2|]. congruence.
Qed.

(** Steps that leave the queue and the calls alone. *)
Lemma Ran_same s l k s1 s2 :
  Ran s l k s1 →
  heap s2 = heap s1 → firstCallbackNode s2 = firstCallbackNode s1 →
  invoked (trace s2) = invoked (trace s1) →
  isSchedulerPaused s2 = isSchedulerPaused s1 →
  Ran s l k s2.
Proof.
  intros (Hk & HQ1 & Ht1 & Hd1 & Hp1) Hh Hf Ht Hp.
  unfold Ran. split_and!; try congruence. by apply (Queue_ext s1).
Qed.

(** The callbacks of the nodes of [l] return without calling the
    scheduler. *)
Lemma returns_Ran s l k s' :
  Ran s l k s' →
  (∀ i, i ∈ l → ∃ pl e, dataOf (heap s) i = Some (Return, pl, e)) →
  ∀ i, i ∈ drop k l → ∃ pl e, dataOf (heap s') i = Some (Return, pl, e).
Proof.
  intros (_ & _ & _ & Hd & _) H i Hi. rewrite Hd. apply H.
  rewrite <- (take_drop k l). apply elem_of_app. by right.
Qed.

Section RunsInOrder.
Variable enableSchedulerDebugging : bool.
Variable clock : nat → Z.
Variable hostYield : nat → bool.

(** A callback that returns without calling the scheduler. *)
Lemma flushFirstCallback_Return m s b l0 pl e :
  Queue s (b :: l0) → dataOf (heap s) b = Some (Return, pl, e) →
  ∃ s1, flushFirstCallback (exec clock hostYield (S m)) s = Some (s1, Normal None) ∧
        Ran s (b :: l0) 1 s1.
Proof.
  intros HQ Hd. rewrite flushFirstCallback_unfold.
  destruct (unlinkFirst_spec s b l0 HQ)
    as (nd & s1 & E1 & Hnd & HQ1 & Hlen1 & Hdata1 & Hu & Ht1).
  rewrite E1.
  assert (callback nd = Return) as ->.
  { unfold dataOf in Hd. rewrite Hnd in Hd. simpl in Hd. congruence. }
  rewrite exec_unfold. simpl.
  eexists. split; [done|].
  destruct Hu as (Ho&Hp&_&He&_&Hx&_&_&_).
  unfold Ran. simpl. rewrite Ht1. split_and!; try done; try lia.
Qed.

Lemma flushUntilYield_returns m : ∀ budget l s,
  Queue s l → l ≠ [] →
  (∀ i, i ∈ l → ∃ pl e, dataOf (heap s) i = Some (Return, pl, e)) →
  paused enableSchedulerDebugging s = false →
  (length l ≤ budget)%nat →
  ∃ s' k,
    flushUntilYield enableSchedulerDebugging clock hostYield (S m) budget s
      = Some (s', Normal None) ∧
    Ran s l k s' ∧ (1 ≤ k)%nat ∧
    ((∀ j, hostYield j = false) → k = length l).
Proof.
  induction budget as [|budget IH]; intros l s HQ Hne Hret Hp Hlen.
  { destruct l; [done|simpl in Hlen; lia]. }
  destruct l as [|b l0]; [done|]. simpl. rewrite Hp.
  destruct (Hret b) as (pl & e & Hb); [by left|].
  destruct (flushFirstCallback_Return m s b l0 pl e HQ Hb) as (s1 & -> & HR1).
  pose proof HR1 as (_ & HQ1 & _ & _ & Hp1). simpl in HQ1.
  rewrite (q_first _ _ _ HQ1).
  destruct l0 as [|c l1]; simpl.
  { exists s1, 1%nat. split; [done|]. split; [done|]. split; [lia|done]. }
  unfold shouldYieldToHost.
  set (s2 := emit _ _).
  assert (Ran s (b :: c :: l1) 1 s2) as HR2 by (by apply (Ran_same _ _ _ s1)).
  destruct (hostYield (yieldReads s1)) eqn:Ey; simpl.
  - exists s2, 1%nat. split; [done|]. split; [done|]. split; [lia|].
    intros Hy. by rewrite Hy in Ey.
  - destruct (IH (c :: l1) s2) as (s' & k & E & HR & Hk & Hall).
    + by apply (Queue_ext s1).
    + done.
    + apply (returns_Ran _ _ _ _ HR2 Hret).
    + unfold paused in *. simpl. by rewrite Hp1.
    + simpl in *. lia.
    + exists s', (1 + k)%nat. split; [done|]. split; [|split; [lia|]].
      * by apply (Ran_trans _ _ _ s2).
      * intros Hy. rewrite (Hall Hy). done.
Qed.

Lemma flushImmediateLoop_returns m : ∀ budget l s,
  Queue s l → l ≠ [] →
  (∀ i, i ∈ l → ∃ pl e, dataOf (heap s) i = Some (Return, pl, e)) →
  (length l ≤ budget)%nat →
  ∃ s' k,
    flushImmediateLoop (exec clock hostYield (S m)) budget s
      = Some (s', Normal None) ∧
    Ran s l k s' ∧ (1 ≤ k)%nat.
Proof.
  induction budget as [|budget IH]; intros l s HQ Hne Hret Hlen.
  { destruct l; [done|simpl in Hlen; lia]. }
  destruct l as [|b l0]; [done|]. simpl.
  destruct (Hret b) as (pl & e & Hb); [by left|].
  destruct (flushFirstCallback_Return m s b l0 pl e HQ Hb) as (s1 & -> & HR1).
  pose proof HR1 as (_ & HQ1 & _). simpl in HQ1.
  destruct (firstIsImmediate s1) eqn:Ei.
  - destruct l0 as [|c l1].
    { unfold firstIsImmediate, firstPriorityLevel in Ei.
      by rewrite (q_first _ _ _ HQ1) in Ei. }
    destruct (IH (c :: l1) s1) as (s' & k & E & HR & Hk); try done.
    + apply (returns_Ran _ _ _ _ HR1 Hret).
    + simpl in *. lia.
    + exists s', (1 + k)%nat. split; [done|]. split; [|lia].
      by apply (Ran_trans _ _ _ s1).
  - exists s1, 1%nat. split; [done|]. split; [done|lia].
Qed.

Lemma flushExpired_returns m currentTime : ∀ budget l s,
  Queue s l → l ≠ [] →
  (∀ i, i ∈ l → ∃ pl e, dataOf (heap s) i = Some (Return, pl, e)) →
  (length l ≤ budget)%nat →
  ∃ s' k,
    flushExpired enableSchedulerDebugging clock hostYield (S m) budget
      currentTime s = Some (s', Normal None) ∧
    Ran s l k s' ∧ (1 ≤ k)%nat.
Proof.
  induction budget as [|budget IH]; intros l s HQ Hne Hret Hlen.
  { destruct l; [done|simpl in Hlen; lia]. }
  destruct l as [|b l0]; [done|]. simpl.
  destruct (Hret b) as (pl & e & Hb); [by left|].
  destruct (flushFirstCallback_Return m s b l0 pl e HQ Hb) as (s1 & -> & HR1).
  pose proof HR1 as (_ & HQ1 & _). simpl in HQ1.
  destruct (match firstExpirationTime s1 with Some _ => _ | None => _ end) eqn:Ec.
  - destruct l0 as [|c l1].
    { unfold firstExpirationTime in Ec. by rewrite (q_first _ _ _ HQ1) in Ec. }
    destruct (IH (c :: l1) s1) as (s' & k & E & HR & Hk); try done.
    + apply (returns_Ran _ _ _ _ HR1 Hret).
    + simpl in *. lia.
    + exists s', (1 + k)%nat. split; [done|]. split; [|lia].
      by apply (Ran_trans _ _ _ s1).
  - exists s1, 1%nat. split; [done|]. split; [done|lia].
Qed.

Lemma flushTimedOut_returns m : ∀ budget l s,
  Queue s l →
  (∀ i, i ∈ l → ∃ pl e, dataOf (heap s) i = Some (Return, pl, e)) →
  (length l < budget)%nat →
  ∃ s' k,
    flushTimedOut enableSchedulerDebugging clock hostYield (S m) budget s
      = Some (s', Normal None) ∧
    Ran s l k s'.
Proof.
  induction budget as [|budget IH]; intros l s HQ Hret Hlen; [lia|].
  simpl. rewrite (q_first _ _ _ HQ).
  destruct l as [|b l0]; simpl.
  { exists s, 0%nat. split; [done|]. by apply Ran_refl. }
  destruct (paused enableSchedulerDebugging s).
  { exists s, 0%nat. split; [done|]. by apply Ran_refl. }
  set (s1 := set_clockReads _ s).
  assert (Queue s1 (b :: l0)) as HQ1 by (by apply (Queue_ext s)).
  assert (Ran s (b :: l0) 0 s1) as HR1.
  { apply (Ran_same _ _ _ s); try done. by apply Ran_refl. }
  rewrite (firstExpirationTime_Some s1 b).
  2:{ by rewrite (q_first _ _ _ HQ1). }
  2:{ apply (Queue_lt s1 _ HQ1). by left. }
  destruct (_ <=? _).
  - destruct (flushExpired_returns m (clock (clockReads s)) budget (b :: l0) s1)
      as (s2 & k & -> & HR2 & Hk); try done.
    { simpl in *. lia. }
    pose proof HR2 as (Hkl & HQ2 & _).
    destruct (IH (drop k (b :: l0)) s2) as (s' & j & E & HR); try done.
    + apply (returns_Ran _ _ _ _ HR2). intros i Hi. apply Hret in Hi as (pl & e & Hi).
      by exists pl, e.
    + rewrite length_drop. simpl in *. lia.
    + exists s', (k + j)%nat. split; [done|].
      apply (Ran_trans _ _ _ s2); [|done].
      apply (Ran_trans s (b :: l0) 0 s1 k s2); done.
  - exists s1, 0%nat. split; [done|]. done.
Qed.

Lemma afterFlush_total s l :
  Queue s l →
  ∃ s', afterFlush s = Some s' ∧ heap s' = heap s ∧
        firstCallbackNode s' = firstCallbackNode s ∧ queueUpdate s s'.
Proof.
  intros HQ. unfold afterFlush. pose proof (q_first _ _ _ HQ) as Hf.
  destruct l as [|b l0]; simpl in Hf; rewrite Hf.
  - eexists. split; [done|]. split; [done|]. split; [done|]. queueUpdate_now.
  - destruct (ensureHostCallbackIsScheduled_spec s) as (s' & E & Hh & Hf' & Hu).
    { right. rewrite (firstExpirationTime_Some s b Hf); [done|].
      apply (Queue_lt s _ HQ). by left. }
    exists s'. split; [done|]. split; [done|]. split; [congruence|done].
Qed.

(** After a flushing loop, the finally block. *)
Lemma Ran_afterFlush s l k s1 s1' s2 :
  Ran s l k s1 →
  heap s1' = heap s1 → firstCallbackNode s1' = firstCallbackNode s1 →
  trace s1' = trace s1 → isSchedulerPaused s1' = isSchedulerPaused s1 →
  afterFlush s1' = Some s2 →
  Ran s l k s2.
Proof.
  intros HR Hh Hf Ht Hp E. apply afterFlush_inv in E as (Hh2 & Hf2 & Hu).
  destruct Hu as (_&Hp2&_&_&_&_&_&_&tr&Ht2&Htr).
  apply (Ran_same _ _ _ s1); try congruence.
  rewrite Ht2, invoked_app, (invoked_hostEvent _ Htr), Ht. done.
Qed.

(** X12: flushWork calls the callbacks in the order of the queue.  When
    the callbacks of the queued nodes return without calling the scheduler
    (and return no continuation), flushWork, with a budget above the
    length of the queue, completes normally; the callbacks it has called
    are those of the first k nodes of the queue, each once and in the
    order of the queue, and the other nodes are left queued in their
    order.  Without a timeout it calls at least the first one, and all of
    them when the host never asks to yield. *)
Theorem X12_flushWork_runs_queue_prefix n didTimeout s l :
  Queue s l →
  (∀ i, i ∈ l → ∃ pl e, dataOf (heap s) i = Some (Return, pl, e)) →
  paused enableSchedulerDebugging s = false →
  (length l < n)%nat →
  ∃ s' k,
    flushWork enableSchedulerDebugging clock hostYield n didTimeout s
      = Some (s', Normal None) ∧
    (k ≤ length l)%nat ∧
    invoked (trace s') = rev (take k l) ++ invoked (trace s) ∧
    Queue s' (drop k l) ∧
    (didTimeout = false → l ≠ [] → (1 ≤ k)%nat) ∧
    (didTimeout = false → (∀ j, hostYield j = false) →
     k = length l ∧ firstCallbackNode s' = None).
Proof.
  intros HQ Hret Hp Hn. destruct n as [|m]; [lia|].
  unfold flushWork. rewrite Hp.
  set (s0 := set_currentDidTimeout didTimeout (set_isExecutingCallback true s)).
  assert (Queue s0 l) as HQ0 by (by apply (Queue_ext s)).
  (* the try block *)
  assert (∃ s1 k1,
            flushWorkTry enableSchedulerDebugging clock hostYield (S m)
              didTimeout s0 = Some (s1, Normal None) ∧
            Ran s0 l k1 s1 ∧
            (didTimeout = false → l ≠ [] → (1 ≤ k1)%nat) ∧
            (didTimeout = false → (∀ j, hostYield j = false) → k1 = length l))
    as (s1 & k1 & -> & HR1 & Hk1 & Hall1).
  { unfold flushWorkTry. destruct didTimeout.
    - destruct (flushTimedOut_returns m (S m) l s0) as (s1 & k1 & E & HR);
        try done.
      exists s1, k1. by split_and!.
    - rewrite (q_first _ _ _ HQ0). destruct l as [|b l0]; simpl.
      + exists s0, 0%nat. split_and!; try done; try (by apply Ran_refl).
      + destruct (flushUntilYield_returns m (S m) (b :: l0) s0)
          as (s1 & k1 & E & HR & Hk & Hall); try done.
        { simpl in *. lia. }
        exists s1, k1. by split_and!. }
  (* the finally block *)
  unfold flushWorkFinally.
  set (s1' := set_currentDidTimeout _ (set_isExecutingCallback false s1)).
  pose proof HR1 as (Hk1l & HQ1 & _).
  destruct (afterFlush_total s1' (drop k1 l)) as (s2 & E2 & Hh2 & Hf2 & Hu2).
  { by apply (Queue_ext s1). }
  rewrite E2.
  assert (Ran s0 l k1 s2) as HR2 by (by apply (Ran_afterFlush _ _ _ s1 s1')).
  pose proof HR2 as (_ & HQ2 & _).
  unfold flushImmediateWork.
  destruct (_ && firstIsImmediate s2) eqn:Ei.
  - (* immediate work *)
    apply andb_true_iff in Ei as [_ Ei].
    assert (drop k1 l ≠ []) as Hne.
    { intros Hd. rewrite Hd in HQ2. unfold firstIsImmediate, firstPriorityLevel in Ei.
      by rewrite (q_first _ _ _ HQ2) in Ei. }
    destruct (flushImmediateLoop_returns m (S m) (drop k1 l)
                (set_isExecutingCallback true s2))
      as (s3 & k2 & -> & HR3 & Hk2); try done.
    { apply (returns_Ran s0 l k1); [|done].
      apply (Ran_same _ _ _ s2); done. }
    { rewrite length_drop. lia. }
    pose proof HR3 as (Hk2l & HQ3 & _). rewrite length_drop in Hk2l.
    destruct (afterFlush_total (set_isExecutingCallback false s3)
                (drop k2 (drop k1 l))) as (s4 & E4 & _).
    { by apply (Queue_ext s3). }
    rewrite E4.
    assert (Ran s0 l (k1 + k2) s4) as HR4.
    { apply (Ran_trans _ _ _ (set_isExecutingCallback true s2)).
      - apply (Ran_same _ _ _ s2); done.
      - by apply (Ran_afterFlush _ _ _ s3 (set_isExecutingCallback false s3)). }
    destruct HR4 as (Hk4 & HQ4 & Ht4 & _).
    exists s4, (k1 + k2)%nat. split_and!; try done.
    + intros Hd Hl. specialize (Hk1 Hd Hl). lia.
    + intros Hd Hy. specialize (Hall1 Hd Hy). subst k1.
      rewrite drop_all in Hne. done.
  - destruct HR2 as (Hk2 & HQ2' & Ht2 & _).
    exists s2, k1. split_and!; try done.
    intros Hd Hy. specialize (Hall1 Hd Hy). subst k1. split; [done|].
    rewrite drop_all in HQ2. by rewrite (q_first _ _ _ HQ2).
Qed.

End RunsInOrder.

Lemma X12_flushWork_runs_queue_prefix_witness :
  ∃ s s',
    exec (λ k, Z.of_nat k) (λ _, false) 1
      (ScheduleCallback Return (Some 30) (λ _,
       ScheduleCallback Return (Some 10) (λ _,
       ScheduleCallback Return (Some 20) (λ _, Return))))
      initialState = Some (s, Normal None) ∧
    flushWork false (λ k, Z.of_nat k) (λ _, false) 4 false s
      = Some (s', Normal None) ∧
    invoked (trace s') = [0; 2; 1]%nat ∧ firstCallbackNode s' = None.
Proof.
  eexists. eexists. split; [vm_compute; reflexivity|].
  match goal with
  | |- flushWork _ _ _ _ _ ?s = _ ∧ _ =>
      assert (Queue s [1; 2; 0]%nat) as HQ
        by (apply Queue_checked; vm_compute; reflexivity);
      destruct (X12_flushWork_runs_queue_prefix false (λ k, Z.of_nat k) (λ _, false)
                  4 false s [1; 2; 0]%nat HQ) as (s' & k & E & _ & Ht & _ & _ & Hall)
  end.
  - intros i Hi. vm_compute.
    repeat (apply elem_of_cons in Hi as [->|Hi]; [by eexists _, _|]).
    by apply elem_of_nil in Hi.
  - reflexivity.
  - simpl. lia.
  - destruct (Hall eq_refl (λ _, eq_refl)) as [-> Hf].
    vm_compute in E. injection E as <-.
    split; [vm_compute; reflexivity|]. split; [exact Ht|exact Hf].
Defined.

(** ** The host in a browser *)

Module DOMHostFacts.
Import DOMHost.

Lemma removeId_singleton (a : nat) : removeId a [a] = [].
Proof.
  unfold removeId. rewrite filter_cons.
  destruct (decide (a ≠ a)) as [H|_]; [by destruct H|done].
Qed.

Lemma cancelId_singleton (a : nat) : cancelId (Some a) [a] = [].
Proof. apply removeId_singleton. Qed.

Lemma cancelId_nil id : cancelId id [] = [].
Proof. by destruct id. Qed.

Section Facts.
Context {Callback : Type}.
Implicit Types s : State Callback.

Lemma FramesKept_requestHostCallback cb t s :
  FramesKept s → FramesKept (requestHostCallback cb t s).
Proof.
  intros [Hb Hf]. unfold requestHostCallback. simpl.
  destruct (isFlushingHostCallback s || (t <? 0)); [done|].
  destruct (isAnimationFrameScheduled s) eqn:Ea; simpl.
  - split; [done|]. simpl. by rewrite Ea.
  - destruct Hf as [Hfa Hft]. split; [done|]. simpl. rewrite Hfa, Hft.
    eexists _, _. split_and!; try done; lia.
Qed.

Lemma Awaited_requestHostCallback cb t s :
  Awaited s → Awaited (requestHostCallback cb t s).
Proof.
  intros [Hm Hw]. unfold requestHostCallback. simpl.
  destruct (isFlushingHostCallback s || (t <? 0)).
  - split; simpl; [intros ?%Hm; lia|]. intros _. left. lia.
  - destruct (isAnimationFrameScheduled s) eqn:Ea; simpl.
    + split; simpl; [done|]. intros _. by right.
    + split; simpl; [done|]. intros _. by right.
Qed.

Lemma FramesKept_cancelHostCallback s : FramesKept s → FramesKept (cancelHostCallback s).
Proof. done. Qed.

Lemma Awaited_cancelHostCallback s : Awaited (cancelHostCallback s).
Proof. split; simpl; [done|]. by intros [? ?]. Qed.

Lemma flushing_hostCall s c :
  isFlushingHostCallback (hostCall s c) = isFlushingHostCallback s.
Proof.
  destruct c; simpl; [|done]. unfold requestHostCallback. simpl.
  repeat case_match; done.
Qed.

Lemma calls_hostCall s c : calls (hostCall s c) = calls s.
Proof.
  destruct c; simpl; [|done]. unfold requestHostCallback. simpl.
  repeat case_match; done.
Qed.

Lemma activeFrameTime_hostCall s c :
  activeFrameTime (hostCall s c) = activeFrameTime s.
Proof.
  destruct c; simpl; [|done]. unfold requestHostCallback. simpl.
  repeat case_match; done.
Qed.

Lemma FramesKept_hostCall s c : FramesKept s → FramesKept (hostCall s c).
Proof.
  destruct c; [apply FramesKept_requestHostCallback|apply FramesKept_cancelHostCallback].
Qed.

Lemma Awaited_hostCall s c : Awaited s → Awaited (hostCall s c).
Proof.
  destruct c; [apply Awaited_requestHostCallback|].
  intros _. apply Awaited_cancelHostCallback.
Qed.

Lemma foldl_hostCall made : ∀ s,
  FramesKept s → Awaited s →
  FramesKept (foldl hostCall s made) ∧ Awaited (foldl hostCall s made) ∧
  isFlushingHostCallback (foldl hostCall s made) = isFlushingHostCallback s ∧
  calls (foldl hostCall s made) = calls s ∧
  activeFrameTime (foldl hostCall s made) = activeFrameTime s.
Proof.
  induction made as [|c made IH]; intros s HF HA; simpl; [done|].
  destruct (IH (hostCall s c)) as (H1 & H2 & H3 & H4 & H5);
    [by apply FramesKept_hostCall|by apply Awaited_hostCall|].
  rewrite H3, H4, H5, flushing_hostCall, calls_hostCall, activeFrameTime_hostCall.
  done.
Qed.

Lemma onmessage_Settled currentTime behaviour s :
  isFlushingHostCallback s = false → FramesKept s →
  Settled (onmessage currentTime behaviour s).1 ∧
  activeFrameTime (onmessage currentTime behaviour s).1 = activeFrameTime s.
Proof.
  intros Hfl HF. unfold onmessage.
  set (s1 := set_scheduled None (-1) (set_isMessageEventScheduled false s)).
  assert (FramesKept s1) as HF1 by done.
  assert (Awaited s1) as HA1.
  { split; simpl; [done|]. by intros [? ?]. }
  assert (∀ didTimeout,
            Settled (match scheduledHostCallback s with
                     | Some callback =>
                         let s2 := set_isFlushingHostCallback true s1 in
                         let '(made, threw) := behaviour callback didTimeout in
                         let s3 :=
                           foldl hostCall
                             (set_calls ((callback, didTimeout) :: calls s2) s2)
                             made in
                         (set_isFlushingHostCallback false s3, threw)
                     | None => (s1, false)
                     end).1 ∧
            activeFrameTime
              (match scheduledHostCallback s with
               | Some callback =>
                   let s2 := set_isFlushingHostCallback true s1 in
                   let '(made, threw) := behaviour callback didTimeout in
                   let s3 :=
                     foldl hostCall
                       (set_calls ((callback, didTimeout) :: calls s2) s2)
                       made in
                   (set_isFlushingHostCallback false s3, threw)
               | None => (s1, false)
               end).1 = activeFrameTime s) as Hinvoke.
  { intros didTimeout. destruct (scheduledHostCallback s) as [callback|].
    - cbv zeta. destruct (behaviour callback didTimeout) as [made threw].
      set (s2 := set_calls _ _).
      destruct (foldl_hostCall made s2) as (H1 & H2 & H3 & H4 & H5); [done|done|].
      simpl. split; [|by rewrite H5]. split; [done|]. split; [exact H1|exact H2].
    - simpl. split; [|done]. split; [done|]. by split. }
  destruct (frameDeadline s1 - currentTime <=? 0); [|apply Hinvoke].
  destruct (negb (timeoutTime s =? -1) && (timeoutTime s <=? currentTime));
    [apply Hinvoke|].
  simpl. destruct HF as [Hb Hf].
  destruct (isAnimationFrameScheduled s) eqn:Ea; simpl.
  - split; [|done]. split; [done|]. split.
    + split; [done|]. simpl. by rewrite Ea.
    + split; simpl; [done|]. intros _. by right.
  - destruct Hf as [Hfa Hft]. split; [|done]. split; [done|]. split.
    + split; [done|]. simpl. rewrite Hfa, Hft.
      eexists _, _. split_and!; try done; lia.
    + split; simpl; [done|]. intros _. by right.
Qed.

Lemma animationTick_Settled rafTime s :
  isFlushingHostCallback s = false → (8 ≤ activeFrameTime s ≤ 33) →
  animationFrames s = [] → timers s = [] → isAnimationFrameScheduled s = true →
  (isMessageEventScheduled s = true → (0 < messages s)%nat) →
  Settled (animationTick rafTime s) ∧
  8 ≤ activeFrameTime (animationTick rafTime s) ≤ activeFrameTime s ∧
  (is_Some (scheduledHostCallback s) →
   frameDeadline (animationTick rafTime s)
   = rafTime + activeFrameTime (animationTick rafTime s)).
Proof.
  intros Hfl Hb Hfa Hft Ha Hm. unfold animationTick.
  destruct (scheduledHostCallback s) as [cb|] eqn:Ecb.
  2:{ split; [|split; [simpl; lia|by intros [? ?]]].
      split; [done|]. split; [by split|]. split; simpl; [done|].
      rewrite Ecb. by intros [? ?]. }
  cbv zeta. set (s1 := requestAnimationFrameWithTimeout s).
  set (nextFrameTime := rafTime - frameDeadline s1 + activeFrameTime s1).
  set (s2 := if _ && _ then _ else _).
  assert (8 ≤ activeFrameTime s2 ≤ activeFrameTime s ∧
          isAnimationFrameScheduled s2 = true ∧
          isMessageEventScheduled s2 = isMessageEventScheduled s ∧
          messages s2 = messages s ∧ isFlushingHostCallback s2 = false ∧
          rAFID s2 = Some (nextID s) ∧ rAFTimeoutID s2 = Some (S (nextID s)) ∧
          animationFrames s2 = [nextID s] ∧ timers s2 = [S (nextID s)] ∧
          nextID s2 = S (S (nextID s)))
    as (Hb2 & Ha2 & Hm2 & Hn2 & Hfl2 & Hr2 & Ht2 & Hfa2 & Hft2 & Hid2).
  { unfold s2.
    destruct (Z.ltb_spec nextFrameTime (activeFrameTime s1)) as [Hn|Hn];
      destruct (Z.ltb_spec (previousFrameTime s1) (activeFrameTime s1)) as [Hp|Hp];
      simpl in *; rewrite ?Hfa, ?Hft; split_and!; try done; try lia.
    all: destruct (Z.ltb_spec nextFrameTime 8);
      [destruct (Z.ltb_spec 8 (previousFrameTime s))
      |destruct (Z.ltb_spec nextFrameTime (previousFrameTime s))]; lia. }
  set (s3 := set_frameDeadline _ s2).
  destruct (isMessageEventScheduled s3) eqn:Em3; simpl.
  - split; [|split; [done|done]].
    split; [done|]. split.
    + split; [simpl; lia|]. simpl. rewrite Ha2.
      eexists _, _. split_and!; try done; lia.
    + split; simpl.
      * intros _. rewrite Hn2. apply Hm. simpl in Em3. congruence.
      * intros _. by right.
  - split; [|split; [done|done]].
    split; [done|]. split.
    + split; [simpl; lia|]. simpl. rewrite Ha2.
      eexists _, _. split_and!; try done; lia.
    + split; simpl; [intros _; lia|]. intros _. by right.
Qed.

Lemma step_Settled e s s' :
  Settled s → step e s = Some s' →
  Settled s' ∧ 8 ≤ activeFrameTime s' ≤ activeFrameTime s.
Proof.
  intros (Hfl & [Hb Hf] & [Hm Hw]) E. destruct e; simpl in E.
  - destruct (messages s) as [|m]; [done|]. injection E as <-.
    match goal with
    | |- context [onmessage _ _ ?s1] =>
        destruct (onmessage_Settled currentTime behaviour s1) as [H1 H2];
          [done|done|]
    end.
    split; [done|]. rewrite H2. simpl. lia.
  - case_bool_decide as Hin; [|done]. injection E as <-.
    destruct (isAnimationFrameScheduled s) eqn:Ea.
    2:{ destruct Hf as [Hfa _]. rewrite Hfa in Hin. by apply elem_of_nil in Hin. }
    destruct Hf as (a & t & Hra & Hrt & Hfa & Hft & Hla & Hlt).
    rewrite Hfa in Hin. apply list_elem_of_singleton in Hin as ->.
    match goal with
    | |- context [animationTick _ ?s1] =>
        destruct (animationTick_Settled timestamp s1) as (H1 & H2 & _)
    end; simpl; try done.
    + rewrite Hfa. apply removeId_singleton.
    + rewrite Hrt, Hft. apply cancelId_singleton.
  - case_bool_decide as Hin; [|done]. injection E as <-.
    destruct (isAnimationFrameScheduled s) eqn:Ea.
    2:{ destruct Hf as [_ Hft]. rewrite Hft in Hin. by apply elem_of_nil in Hin. }
    destruct Hf as (a & t & Hra & Hrt & Hfa & Hft & Hla & Hlt).
    rewrite Hft in Hin. apply list_elem_of_singleton in Hin as ->.
    match goal with
    | |- context [animationTick _ ?s1] =>
        destruct (animationTick_Settled currentTime s1) as (H1 & H2 & _)
    end; simpl; try done.
    + rewrite Hra, Hfa. apply cancelId_singleton.
    + rewrite Hft. apply removeId_singleton.
  - injection E as <-. split.
    + split; [by rewrite flushing_hostCall|].
      split; [by apply FramesKept_hostCall|by apply Awaited_hostCall].
    + rewrite activeFrameTime_hostCall. lia.
Qed.

Lemma Settled_initialState : Settled (@initialState Callback).
Proof.
  split; [done|]. split; [split; [simpl; lia|done]|].
  split; simpl; [done|]. by intros [? ?].
Qed.

Lemma run_Settled events : ∀ s s',
  Settled s → run events s = Some s' →
  Settled s' ∧ 8 ≤ activeFrameTime s' ≤ activeFrameTime s.
Proof.
  induction events as [|e events IH]; intros s s' HS; simpl.
  - intros [= <-]. split; [done|]. destruct HS as (_ & [Hb _] & _). lia.
  - destruct (step e s) as [s1|] eqn:E; [|done].
    destruct (step_Settled e s s1 HS E) as [HS1 Hb1].
    intros H. destruct (IH s1 s' HS1 H) as [HS' Hb']. split; [done|lia].
Qed.

Lemma animationTick_pending rafTime s :
  animationFrames s = [] → timers s = [] →
  (animationFrames (animationTick rafTime s) = [] ∧
   timers (animationTick rafTime s) = []) ∨
  (animationFrames (animationTick rafTime s) = [nextID s] ∧
   timers (animationTick rafTime s) = [S (nextID s)]).
Proof.
  intros Hfa Hft. unfold animationTick.
  destruct (scheduledHostCallback s); [|by left].
  right. cbv zeta. repeat case_match; simpl; by rewrite Hfa, Hft.
Qed.

Lemma onmessage_calls currentTime behaviour s cb :
  scheduledHostCallback s = Some cb →
  let s' := (onmessage currentTime behaviour s).1 in
  let expired := negb (timeoutTime s =? -1) && (timeoutTime s <=? currentTime) in
  if shouldYieldToHost currentTime s && negb expired
  then calls s' = calls s ∧ scheduledHostCallback s' = Some cb ∧
       timeoutTime s' = timeoutTime s ∧ isAnimationFrameScheduled s' = true
  else calls s' = (cb, shouldYieldToHost currentTime s) :: calls s ∧
       isFlushingHostCallback s' = false.
Proof.
  intros Hcb s' expired. unfold s', expired, onmessage, shouldYieldToHost.
  rewrite Hcb. simpl.
  assert ((frameDeadline s - currentTime <=? 0) = (frameDeadline s <=? currentTime))
    as ->.
  { destruct (Z.leb_spec (frameDeadline s - currentTime) 0),
             (Z.leb_spec (frameDeadline s) currentTime); try done; lia. }
  set (s2 := set_calls _ _).
  assert (∀ d, calls (let '(made, threw) := behaviour cb d in
                      (set_isFlushingHostCallback false
                         (foldl hostCall (set_calls ((cb, d) :: calls s)
                            (set_isFlushingHostCallback true
                               (set_scheduled None (-1)
                                  (set_isMessageEventScheduled false s)))) made),
                       threw)).1 = (cb, d) :: calls s ∧
               isFlushingHostCallback
                 (let '(made, threw) := behaviour cb d in
                  (set_isFlushingHostCallback false
                     (foldl hostCall (set_calls ((cb, d) :: calls s)
                        (set_isFlushingHostCallback true
                           (set_scheduled None (-1)
                              (set_isMessageEventScheduled false s)))) made),
                   threw)).1 = false) as Hinvoke.
  { intros d. destruct (behaviour cb d) as [made threw]. simpl. split; [|done].
    clear. set (s0 := set_calls _ _). change ((cb, d) :: calls s) with (calls s0).
    generalize s0. induction made as [|c made IH]; intros s1; simpl; [done|].
    by rewrite IH, calls_hostCall. }
  destruct (frameDeadline s <=? currentTime); simpl.
  - destruct (negb (timeoutTime s =? -1) && (timeoutTime s <=? currentTime)); simpl.
    + apply Hinvoke.
    + destruct (isAnimationFrameScheduled s) eqn:Ea; simpl; by rewrite ?Ea.
  - apply Hinvoke.
Qed.

End Facts.
End DOMHostFacts.

(** X13: the frame time that the host works with stays between 8 and 33
    milliseconds, and no event ever makes it longer: the heuristic of
    animationTick only ever shortens it.  When animationTick runs from an
    animation frame with a callback scheduled, the frame deadline becomes
    the frame's timestamp plus the frame time. *)
Theorem X13_host_frame_time_bounds (Callback : Type)
    (events : list (DOMHost.Event Callback)) (e : DOMHost.Event Callback)
    (s s' : DOMHost.State Callback) :
  DOMHost.run events DOMHost.initialState = Some s →
  DOMHost.step e s = Some s' →
  8 ≤ DOMHost.activeFrameTime s' ∧
  DOMHost.activeFrameTime s' ≤ DOMHost.activeFrameTime s ∧
  DOMHost.activeFrameTime s ≤ 33 ∧
  (∀ id timestamp,
     e = DOMHost.AnimationFrame id timestamp →
     is_Some (DOMHost.scheduledHostCallback s) →
     DOMHost.frameDeadline s' = timestamp + DOMHost.activeFrameTime s' ∧
     ∀ currentTime,
       DOMHost.shouldYieldToHost currentTime s' = true
       ↔ timestamp + DOMHost.activeFrameTime s' ≤ currentTime).
Proof.
  intros Hrun Hstep.
  destruct (DOMHostFacts.run_Settled events _ _
              DOMHostFacts.Settled_initialState Hrun) as [HS Hb].
  destruct (DOMHostFacts.step_Settled e s s' HS Hstep) as [HS' Hb'].
  simpl in Hb. split; [lia|]. split; [lia|]. split; [lia|].
  intros id timestamp -> Hcb. simpl in Hstep.
  case_bool_decide as Hin; [|done]. injection Hstep as <-.
  destruct HS as (Hfl & [Hbs Hf] & [Hm Hw]).
  destruct (DOMHost.isAnimationFrameScheduled s) eqn:Ea.
  2:{ destruct Hf as [Hfa _]. rewrite Hfa in Hin. by apply elem_of_nil in Hin. }
  destruct Hf as (a & t & Hra & Hrt & Hfa & Hft & _).
  rewrite Hfa in Hin. apply list_elem_of_singleton in Hin as ->.
  match goal with
  | |- context [DOMHost.animationTick _ ?s1] =>
      destruct (DOMHostFacts.animationTick_Settled timestamp s1) as (_ & _ & Hd)
  end; simpl; try done.
  { rewrite Hfa. apply DOMHostFacts.removeId_singleton. }
  { rewrite Hrt, Hft. apply DOMHostFacts.cancelId_singleton. }
  specialize (Hd Hcb). split; [exact Hd|].
  intros currentTime. unfold DOMHost.shouldYieldToHost. rewrite Hd.
  apply Z.leb_le.
Qed.

(** X14: at most one requestAnimationFrameWithTimeout is outstanding, and
    rAFID and rAFTimeoutID are the ids of its animation frame callback and
    of its timer.  So whichever of the two runs first cancels the other:
    after it, neither the id that ran nor the id of its twin is pending,
    and animationTick runs once for each request. *)
Theorem X14_host_one_frame_request (Callback : Type)
    (events : list (DOMHost.Event Callback)) (s : DOMHost.State Callback) :
  DOMHost.run events DOMHost.initialState = Some s →
  (length (DOMHost.animationFrames s) ≤ 1)%nat ∧
  length (DOMHost.timers s) = length (DOMHost.animationFrames s) ∧
  (∀ id timestamp s',
     DOMHost.step (DOMHost.AnimationFrame id timestamp) s = Some s' →
     DOMHost.rAFID s = Some id ∧ (id ∉ DOMHost.animationFrames s') ∧
     ∀ t, t ∈ DOMHost.timers s → t ∉ DOMHost.timers s') ∧
  (∀ id currentTime s',
     DOMHost.step (DOMHost.Timer id currentTime) s = Some s' →
     DOMHost.rAFTimeoutID s = Some id ∧ (id ∉ DOMHost.timers s') ∧
     ∀ a, a ∈ DOMHost.animationFrames s → a ∉ DOMHost.animationFrames s').
Proof.
  intros Hrun.
  destruct (DOMHostFacts.run_Settled events _ _
              DOMHostFacts.Settled_initialState Hrun) as [HS _].
  destruct HS as (Hfl & [Hbs Hf] & _).
  destruct (DOMHost.isAnimationFrameScheduled s) eqn:Ea.
  2:{ destruct Hf as [Hfa Hft]. rewrite Hfa, Hft. split; [simpl; lia|].
      split; [done|]. split.
      - intros id ts s' E. simpl in E. rewrite Hfa in E.
        case_bool_decide as Hin; [by apply elem_of_nil in Hin|done].
      - intros id ts s' E. simpl in E. rewrite Hft in E.
        case_bool_decide as Hin; [by apply elem_of_nil in Hin|done]. }
  destruct Hf as (a & t & Hra & Hrt & Hfa & Hft & Hla & Hlt).
  rewrite Hfa, Hft. split; [simpl; lia|]. split; [done|]. split.
  - intros id ts s' E. simpl in E. rewrite Hfa in E.
    case_bool_decide as Hin; [|done]. injection E as <-.
    apply list_elem_of_singleton in Hin as ->. split; [done|].
    set (s1 := DOMHost.localClearTimeout _ _).
    destruct (DOMHostFacts.animationTick_pending ts s1) as [[E1 E2]|[E1 E2]].
    { simpl. apply DOMHostFacts.removeId_singleton. }
    { simpl. rewrite Hrt, Hft. apply DOMHostFacts.cancelId_singleton. }
    + rewrite E1, E2. split; [by intros ?%elem_of_nil|].
      by intros ? _ ?%elem_of_nil.
    + rewrite E1, E2. simpl.
      split; [intros ->%list_elem_of_singleton; lia|].
      intros ? ->%list_elem_of_singleton ->%list_elem_of_singleton. lia.
  - intros id ts s' E. simpl in E. rewrite Hft in E.
    case_bool_decide as Hin; [|done]. injection E as <-.
    apply list_elem_of_singleton in Hin as ->. split; [done|].
    set (s1 := DOMHost.localCancelAnimationFrame _ _).
    destruct (DOMHostFacts.animationTick_pending ts s1) as [[E1 E2]|[E1 E2]].
    { simpl. rewrite Hra, Hfa. apply DOMHostFacts.cancelId_singleton. }
    { simpl. apply DOMHostFacts.removeId_singleton. }
    + rewrite E1, E2. split; [by intros ?%elem_of_nil|].
      by intros ? _ ?%elem_of_nil.
    + rewrite E1, E2. simpl.
      split; [intros ->%list_elem_of_singleton; lia|].
      intros ? ->%list_elem_of_singleton ->%list_elem_of_singleton. lia.
Qed.

(** X15: a callback that is scheduled in the host is never left without a
    wake-up.  Between two events, if scheduledHostCallback is set then a
    message is on its way to the channel or an animation frame callback
    (with its timer) is pending; and if isMessageEventScheduled is set a
    message is on its way.  No host callback is running
    (isFlushingHostCallback is false), also after one that threw. *)
Theorem X15_host_callback_awaited (Callback : Type)
    (events : list (DOMHost.Event Callback)) (s : DOMHost.State Callback) :
  DOMHost.run events DOMHost.initialState = Some s →
  DOMHost.isFlushingHostCallback s = false ∧
  (DOMHost.isMessageEventScheduled s = true → (0 < DOMHost.messages s)%nat) ∧
  (is_Some (DOMHost.scheduledHostCallback s) →
   (0 < DOMHost.messages s)%nat ∨
   ∃ a t, DOMHost.animationFrames s = [a] ∧ DOMHost.timers s = [t]).
Proof.
  intros Hrun.
  destruct (DOMHostFacts.run_Settled events _ _
              DOMHostFacts.Settled_initialState Hrun) as [HS _].
  destruct HS as (Hfl & [Hbs Hf] & [Hm Hw]).
  split; [done|]. split; [done|].
  intros [H|H]%Hw; [by left|]. right. rewrite H in Hf.
  destruct Hf as (a & t & _ & _ & Hfa & Hft & _). by exists a, t.
Qed.

(** X16: when a message arrives for a scheduled callback, the host calls
    it unless the frame deadline has passed (shouldYieldToHost would say
    yes) and the callback's timeout has not been reached, a timeout of -1
    counting as none.  It calls it with didTimeout true exactly when the
    deadline has passed, and whether the callback returns or throws,
    isFlushingHostCallback is false afterwards.  When it does not call it,
    the callback stays scheduled with its timeout and an animation frame
    is scheduled. *)
Theorem X16_host_onmessage_calls (Callback : Type) (currentTime : Z)
    (behaviour : Callback → bool → list (DOMHost.HostCall Callback) * bool)
    (s : DOMHost.State Callback) (cb : Callback) :
  DOMHost.scheduledHostCallback s = Some cb →
  let s' := (DOMHost.onmessage currentTime behaviour s).1 in
  let expired :=
    negb (DOMHost.timeoutTime s =? -1) && (DOMHost.timeoutTime s <=? currentTime) in
  if DOMHost.shouldYieldToHost currentTime s && negb expired
  then DOMHost.calls s' = DOMHost.calls s ∧
       DOMHost.scheduledHostCallback s' = Some cb ∧
       DOMHost.timeoutTime s' = DOMHost.timeoutTime s ∧
       DOMHost.isAnimationFrameScheduled s' = true
  else DOMHost.calls s'
       = (cb, DOMHost.shouldYieldToHost currentTime s) :: DOMHost.calls s ∧
       DOMHost.isFlushingHostCallback s' = false.
Proof. apply DOMHostFacts.onmessage_calls. Qed.

Lemma X13_host_frame_time_bounds_witness :
  ∃ s s' : DOMHost.State unit,
    DOMHost.run [DOMHost.Call (DOMHost.CallRequestHostCallback () 100);
                 DOMHost.AnimationFrame 0 10; DOMHost.AnimationFrame 2 20]
      DOMHost.initialState = Some s ∧
    DOMHost.step (DOMHost.AnimationFrame 4 30) s = Some s' ∧
    DOMHost.activeFrameTime s = 33 ∧ DOMHost.activeFrameTime s' = 10 ∧
    DOMHost.frameDeadline s' = 30 + DOMHost.activeFrameTime s'.
Proof.
  eexists. eexists. split; [vm_compute; reflexivity|].
  split; [vm_compute; reflexivity|].
  split; [vm_compute; reflexivity|]. split; [vm_compute; reflexivity|].
  match goal with
  | |- DOMHost.frameDeadline ?s' = _ =>
      pose proof (X13_host_frame_time_bounds unit
                    [DOMHost.Call (DOMHost.CallRequestHostCallback () 100);
                     DOMHost.AnimationFrame 0 10; DOMHost.AnimationFrame 2 20]
                    (DOMHost.AnimationFrame 4 30) _ s'
                    ltac:(vm_compute; reflexivity) ltac:(vm_compute; reflexivity))
        as (_ & _ & _ & H)
  end.
  exact (proj1 (H 4%nat 30 eq_refl (mk_is_Some _ _ eq_refl))).
Defined.

Lemma X14_host_one_frame_request_witness :
  ∃ s s' : DOMHost.State unit,
    DOMHost.run [DOMHost.Call (DOMHost.CallRequestHostCallback () 100);
                 DOMHost.AnimationFrame 0 10]
      DOMHost.initialState = Some s ∧
    DOMHost.animationFrames s = [2%nat] ∧ DOMHost.timers s = [3%nat] ∧
    DOMHost.step (DOMHost.Timer 3 110) s = Some s' ∧
    DOMHost.rAFTimeoutID s = Some 3%nat ∧
    (2%nat ∉ DOMHost.animationFrames s') ∧
    DOMHost.step (DOMHost.AnimationFrame 2 111) s' = None.
Proof.
  eexists. eexists. split; [vm_compute; reflexivity|].
  split; [vm_compute; reflexivity|]. split; [vm_compute; reflexivity|].
  split; [vm_compute; reflexivity|].
  match goal with
  | |- _ ∧ (2%nat ∉ DOMHost.animationFrames ?s') ∧ _ =>
      pose proof (X14_host_one_frame_request unit
                    [DOMHost.Call (DOMHost.CallRequestHostCallback () 100);
                     DOMHost.AnimationFrame 0 10] _
                    ltac:(vm_compute; reflexivity)) as (_ & _ & _ & H);
      destruct (H 3%nat 110 s' ltac:(vm_compute; reflexivity)) as (H1 & _ & H3)
  end.
  split; [exact H1|]. split; [|vm_compute; reflexivity].
  apply H3. vm_compute. by left.
Defined.

Lemma X15_host_callback_awaited_witness :
  ∃ s : DOMHost.State unit,
    DOMHost.run [DOMHost.Call (DOMHost.CallRequestHostCallback () 100);
                 DOMHost.AnimationFrame 0 10;
                 DOMHost.Message 50
                   (λ _ _, ([DOMHost.CallCancelHostCallback;
                             DOMHost.CallRequestHostCallback () 200], true))]
      DOMHost.initialState = Some s ∧
    DOMHost.scheduledHostCallback s = Some () ∧
    DOMHost.isFlushingHostCallback s = false ∧
    ((0 < DOMHost.messages s)%nat ∨
     ∃ a t, DOMHost.animationFrames s = [a] ∧ DOMHost.timers s = [t]).
Proof.
  eexists. split; [vm_compute; reflexivity|]. split; [vm_compute; reflexivity|].
  match goal with
  | |- DOMHost.isFlushingHostCallback ?s = _ ∧ _ =>
      pose proof (X15_host_callback_awaited unit
                    [DOMHost.Call (DOMHost.CallRequestHostCallback () 100);
                     DOMHost.AnimationFrame 0 10;
                     DOMHost.Message 50
                       (λ _ _, ([DOMHost.CallCancelHostCallback;
                                 DOMHost.CallRequestHostCallback () 200], true))]
                    s ltac:(vm_compute; reflexivity)) as (H1 & _ & H3)
  end.
  split; [exact H1|]. apply H3. by eexists.
Defined.

Lemma X16_host_onmessage_calls_witness :
  ∃ s : DOMHost.State unit,
    DOMHost.run [DOMHost.Call (DOMHost.CallRequestHostCallback () 100);
                 DOMHost.AnimationFrame 0 10]
      DOMHost.initialState = Some s ∧
    DOMHost.calls (DOMHost.onmessage 20 (λ _ _, ([], true)) s).1 = [((), false)] ∧
    DOMHost.calls (DOMHost.onmessage 50 (λ _ _, ([], true)) s).1 = [] ∧
    DOMHost.calls (DOMHost.onmessage 100 (λ _ _, ([], true)) s).1 = [((), true)].
Proof.
  eexists. split; [vm_compute; reflexivity|].
  match goal with
  | |- DOMHost.calls (DOMHost.onmessage _ _ ?s).1 = _ ∧ _ =>
      pose proof (λ t, X16_host_onmessage_calls unit t (λ _ _, ([], true)) s ()
                         eq_refl) as H
  end.
  split; [exact (proj1 (H 20))|]. split; [exact (proj1 (H 50))|].
  exact (proj1 (H 100)).
Defined.

(** ** The host outside a browser *)

Module FallbackHostFacts.
Import FallbackHost.

Section Facts.
Context {Callback : Type}.
Implicit Types s : State Callback.

Lemma hostCall_timers s c :
  Forall (λ task, ∀ d, task = FlushCallback d → d = false) (timers s) →
  Forall (λ task, ∀ d, task = FlushCallback d → d = false) (timers (hostCall s c)) ∧
  calls (hostCall s c) = calls s.
Proof.
  intros Hf. destruct c as [cb ms|]; simpl; [|done].
  unfold requestHostCallback. destruct (_callback s) eqn:Ec; simpl.
  - split; [|done]. apply Forall_app. split; [done|]. by repeat constructor.
  - split; [|done]. apply Forall_app. split; [done|].
    repeat constructor. by intros ? [= <-].
Qed.

Lemma hostCall_awaited s c :
  (is_Some (_callback s) → FlushCallback false ∈ timers s) →
  is_Some (_callback (hostCall s c)) → FlushCallback false ∈ timers (hostCall s c).
Proof.
  intros Hw. destruct c as [cb ms|]; simpl; [|by intros [? ?]].
  unfold requestHostCallback. destruct (_callback s) eqn:Ec; simpl.
  - intros _. apply elem_of_app. left. apply Hw. by eexists.
  - intros _. apply elem_of_app. right. by left.
Qed.

Lemma foldl_hostCall_timers made : ∀ s,
  Forall (λ task, ∀ d, task = FlushCallback d → d = false) (timers s) →
  Forall (λ task, ∀ d, task = FlushCallback d → d = false)
    (timers (foldl hostCall s made)) ∧
  calls (foldl hostCall s made) = calls s.
Proof.
  induction made as [|c made IH]; intros s Hf; simpl; [done|].
  destruct (hostCall_timers s c Hf) as (H1 & H3).
  destruct (IH (hostCall s c) H1) as [H4 H5]. split; [done|congruence].
Qed.

Lemma step_kept e s s' :
  Forall (λ task, ∀ d, task = FlushCallback d → d = false) (timers s) →
  (is_Some (_callback s) → FlushCallback false ∈ timers s) →
  Forall (λ c, c.2 = false) (calls s) →
  step e s = Some s' →
  Forall (λ task, ∀ d, task = FlushCallback d → d = false) (timers s') ∧
  (is_Some (_callback s') → FlushCallback false ∈ timers s') ∧
  Forall (λ c, c.2 = false) (calls s').
Proof.
  intros Hf Hw Hc. destruct e as [behaviour|c]; simpl.
  - unfold fire. destruct (timers s) as [|task rest] eqn:Et; [done|].
    intros [= <-]. apply Forall_cons in Hf as [Hd Hrest].
    destruct task as [d|cb].
    + rewrite (Hd d eq_refl). unfold _flushCallback. simpl.
      destruct (_callback s) as [cb|] eqn:Ec; simpl.
      * destruct (behaviour cb false) as [made threw] eqn:Eb. simpl.
        set (s1 := mkState _ _ _).
        destruct (foldl_hostCall_timers made s1) as [H1 H2]; [done|].
        split; [done|]. split; [by intros [? ?]|].
        rewrite H2. simpl. by constructor.
      * split; [done|]. split; [by intros [? ?]|done].
    + destruct (hostCall_timers (mkState (_callback s) rest (calls s))
                  (DOMHost.CallRequestHostCallback cb 0)) as (H1 & H3); [done|].
      split; [done|]. split; [|simpl in *; by rewrite H3].
      apply (hostCall_awaited (mkState (_callback s) rest (calls s))
               (DOMHost.CallRequestHostCallback cb 0)).
      simpl. intros Hs. apply Hw in Hs.
      by apply elem_of_cons in Hs as [|].
  - intros [= <-]. destruct (hostCall_timers s c Hf) as (H1 & H3).
    split; [done|]. split; [by apply hostCall_awaited|by rewrite H3].
Qed.

Lemma run_kept events : ∀ s s',
  Forall (λ task, ∀ d, task = FlushCallback d → d = false) (timers s) →
  (is_Some (_callback s) → FlushCallback false ∈ timers s) →
  Forall (λ c, c.2 = false) (calls s) →
  run events s = Some s' →
  Forall (λ task, ∀ d, task = FlushCallback d → d = false) (timers s') ∧
  (is_Some (_callback s') → FlushCallback false ∈ timers s') ∧
  Forall (λ c, c.2 = false) (calls s').
Proof.
  induction events as [|e events IH]; intros s s' Hf Hw Hc; simpl.
  - by intros [= <-].
  - destruct (step e s) as [s1|] eqn:E; [|done].
    destruct (step_kept e s s1 Hf Hw Hc E) as (H1 & H2 & H3). by apply IH.
Qed.

End Facts.
End FallbackHostFacts.

(** X17: outside a browser the host calls the scheduled callback with
    didTimeout false only, and between two events a scheduled callback has
    a _flushCallback timer pending. *)
Theorem X17_fallback_host_calls (Callback : Type)
    (events : list (FallbackHost.Event Callback))
    (s : FallbackHost.State Callback) :
  FallbackHost.run events FallbackHost.initialState = Some s →
  (∀ cb didTimeout, (cb, didTimeout) ∈ FallbackHost.calls s → didTimeout = false) ∧
  (∀ didTimeout,
     FallbackHost.FlushCallback didTimeout ∈ FallbackHost.timers s →
     didTimeout = false) ∧
  (is_Some (FallbackHost._callback s) →
   FallbackHost.FlushCallback false ∈ FallbackHost.timers s).
Proof.
  intros Hrun.
  destruct (FallbackHostFacts.run_kept events FallbackHost.initialState s)
    as (H1 & H2 & H3); try done.
  { simpl. by intros [? ?]. }
  split; [|split; [|done]].
  - intros cb d Hin. by apply (proj1 (Forall_forall _ _) H3) in Hin.
  - intros d Hin. by apply (proj1 (Forall_forall _ _) H1 _ Hin d).
Qed.

(** X18: outside a browser, a callback that the running callback requests
    right after cancelHostCallback is never called.  cancelHostCallback
    clears _callback, so requestHostCallback stores the new callback and
    registers a _flushCallback timer; when the running callback is done,
    _flushCallback clears _callback again, and the timer finds nothing to
    call.  Requested without the cancellation, while _callback is still
    set, the request is put off to a timer of its own and the new callback
    is called two timers later. *)
Theorem X18_fallback_request_after_cancel (Callback : Type)
    (behaviour : Callback → bool → list (DOMHost.HostCall Callback) * bool)
    (s : FallbackHost.State Callback) (cb cb' : Callback) (ms : Z) (threw : bool) :
  FallbackHost._callback s = Some cb →
  FallbackHost.timers s = [FallbackHost.FlushCallback false] →
  (behaviour cb false
     = ([DOMHost.CallCancelHostCallback;
         DOMHost.CallRequestHostCallback cb' ms], threw) →
   ∃ s1 s2,
     FallbackHost.fire behaviour s = Some s1 ∧
     FallbackHost.fire behaviour s1 = Some s2 ∧
     FallbackHost.calls s2 = (cb, false) :: FallbackHost.calls s ∧
     FallbackHost._callback s2 = None ∧ FallbackHost.timers s2 = []) ∧
  (behaviour cb false = ([DOMHost.CallRequestHostCallback cb' ms], threw) →
   ∃ s1 s2 s3,
     FallbackHost.fire behaviour s = Some s1 ∧
     FallbackHost.fire behaviour s1 = Some s2 ∧
     FallbackHost._callback s2 = Some cb' ∧
     FallbackHost.fire behaviour s2 = Some s3 ∧
     FallbackHost.calls s3 = (cb', false) :: (cb, false) :: FallbackHost.calls s).
Proof.
  intros Hcb Ht. destruct s as [c0 t0 l0]. simpl in *. subst c0 t0.
  split; intros Hb.
  - eexists _, _. unfold FallbackHost.fire, FallbackHost._flushCallback. simpl.
    rewrite Hb. simpl. done.
  - eexists _, _, _. unfold FallbackHost.fire, FallbackHost._flushCallback. simpl.
    rewrite Hb. simpl. split; [done|]. split; [done|]. split; [done|].
    split; [done|]. simpl.
    destruct (behaviour cb' false) as [made threw'] eqn:Eb'. simpl.
    set (s0 := FallbackHost.mkState _ _ _).
    change ((cb', false) :: (cb, false) :: l0) with (FallbackHost.calls s0).
    generalize s0. clear. induction made as [|c made IH]; intros s0; simpl; [done|].
    rewrite IH. destruct c; simpl; [|done].
    unfold FallbackHost.requestHostCallback.
    by destruct (FallbackHost._callback s0).
Qed.

Lemma X17_fallback_host_calls_witness :
  ∃ s : FallbackHost.State unit,
    FallbackHost.run
      [FallbackHost.Call (DOMHost.CallRequestHostCallback () 5000);
       FallbackHost.Fire (λ _ _, ([DOMHost.CallRequestHostCallback () 6000], true));
       FallbackHost.Fire (λ _ _, ([], false))]
      FallbackHost.initialState = Some s ∧
    FallbackHost.calls s = [((), false)] ∧
    FallbackHost._callback s = Some () ∧
    FallbackHost.FlushCallback false ∈ FallbackHost.timers s.
Proof.
  eexists. split; [vm_compute; reflexivity|]. split; [vm_compute; reflexivity|].
  split; [vm_compute; reflexivity|].
  match goal with
  | |- _ ∈ FallbackHost.timers ?s =>
      pose proof (X17_fallback_host_calls unit
                    [FallbackHost.Call (DOMHost.CallRequestHostCallback () 5000);
                     FallbackHost.Fire
                       (λ _ _, ([DOMHost.CallRequestHostCallback () 6000], true));
                     FallbackHost.Fire (λ _ _, ([], false))]
                    s ltac:(vm_compute; reflexivity)) as (_ & _ & H)
  end.
  apply H. by eexists.
Defined.

Lemma X18_fallback_request_after_cancel_witness :
  ∃ s1 s2 : FallbackHost.State unit,
    FallbackHost.fire
      (λ _ _, ([DOMHost.CallCancelHostCallback;
                DOMHost.CallRequestHostCallback () 5000], true))
      (FallbackHost.requestHostCallback () FallbackHost.initialState) = Some s1 ∧
    FallbackHost.fire
      (λ _ _, ([DOMHost.CallCancelHostCallback;
                DOMHost.CallRequestHostCallback () 5000], true)) s1 = Some s2 ∧
    FallbackHost.calls s2 = [((), false)] ∧
    FallbackHost._callback s2 = None ∧ FallbackHost.timers s2 = [].
Proof.
  exact (proj1 (X18_fallback_request_after_cancel unit
                  (λ _ _, ([DOMHost.CallCancelHostCallback;
                            DOMHost.CallRequestHostCallback () 5000], true))
                  (FallbackHost.requestHostCallback () FallbackHost.initialState)
                  () () 5000 true eq_refl eq_refl) eq_refl).
Defined.

(** ** Scheduling and cancelling from outside *)

(** A node is its data and its two links. *)
Lemma lookup_by_fields h h' i :
  dataOf h' i = dataOf h i → nextOf h' i = nextOf h i →
  previousOf h' i = previousOf h i → h' !! i = h !! i.
Proof.
  unfold dataOf, nextOf, previousOf.
  destruct (h' !! i) as [[c' p' e' n' v']|], (h !! i) as [[c p e n v]|];
    simpl; congruence.
Qed.

(** The queue and the data of the nodes determine the store. *)
Lemma Queue_same_store s s' l :
  Queue s l → Queue s' l → length (heap s') = length (heap s) →
  (∀ i, dataOf (heap s') i = dataOf (heap s) i) → heap s' = heap s.
Proof.
  intros HQ HQ' Hlen Hd. apply list_eq. intros i.
  apply lookup_by_fields; [done| |].
  - destruct (decide (i ∈ l)) as [Hi|Hi].
    + apply list_elem_of_split in Hi as (l1 & l2 & ->).
      by rewrite (Queue_next _ _ HQ' l1 i l2), (Queue_next _ _ HQ l1 i l2).
    + destruct (q_free _ _ _ HQ _ Hi) as [-> _].
      by destruct (q_free _ _ _ HQ' _ Hi) as [-> _].
  - destruct (decide (i ∈ l)) as [Hi|Hi].
    + apply list_elem_of_split in Hi as (l1 & l2 & ->).
      by rewrite (Queue_previous _ _ HQ' l1 i l2), (Queue_previous _ _ HQ l1 i l2).
    + destruct (q_free _ _ _ HQ _ Hi) as [_ ->].
      by destruct (q_free _ _ _ HQ' _ Hi) as [_ ->].
Qed.

(** What ensureHostCallbackIsScheduled tells the host. *)
Lemma ensureHostCallbackIsScheduled_trace s s' :
  ensureHostCallbackIsScheduled s = Some s' →
  if isExecutingCallback s then s' = s
  else ∃ e, firstExpirationTime s = Some e ∧
            isHostCallbackScheduled s' = true ∧
            trace s' = EvRequestHostCallback e ::
                         (if isHostCallbackScheduled s then [EvCancelHostCallback]
                          else []) ++ trace s.
Proof.
  unfold ensureHostCallbackIsScheduled.
  destruct (isExecutingCallback s); [congruence|].
  destruct (firstExpirationTime s) as [e|]; [|done].
  intros [= <-]. exists e. split; [done|].
  by destruct (isHostCallbackScheduled s) eqn:E; simpl.
Qed.

Section ScheduleFacts.
Variable clock : nat → Z.

(** X19: scheduling a callback and cancelling it right away gives back the
    queue and the store.  unstable_cancelCallback on the node that
    unstable_scheduleCallback returned leaves the queue with the nodes it
    had, in their order, with the first node it had, and every node of the
    store with the links it had; the new node stays in the store, outside
    the queue, with null links.  No callback has been called.  (The
    request that unstable_scheduleCallback may have made to the host is
    not taken back.) *)
Theorem X19_schedule_cancel_round_trip cb options s l :
  Queue s l →
  ∃ s1 s2,
    unstable_scheduleCallback clock cb options s = Some (s1, length (heap s)) ∧
    unstable_cancelCallback (length (heap s)) s1 = Some s2 ∧
    Queue s2 l ∧
    heap s2 = heap s ++ [mkNode cb (currentPriorityLevel s)
                           (scheduledExpiration clock options s) None None] ∧
    firstCallbackNode s2 = firstCallbackNode s ∧
    invoked (trace s2) = invoked (trace s) ∧
    isSchedulerPaused s2 = isSchedulerPaused s ∧
    currentPriorityLevel s2 = currentPriorityLevel s ∧
    currentEventStartTime s2 = currentEventStartTime s.
Proof.
  intros HQ.
  destruct (unstable_scheduleCallback_spec clock cb options s l HQ)
    as (s1 & l1 & l2 & E1 & -> & HQ1 & _ & _ & Hnew & Hlen1 & Hold & Hu1).
  destruct (unstable_cancelCallback_spec s1 l1 (length (heap s)) l2 HQ1)
    as (s2 & E2 & HQ2 & Hlen2 & Hd2 & Hu2 & Ht2).
  exists s1, s2. split; [done|]. split; [done|]. split; [done|].
  set (nd := mkNode cb (currentPriorityLevel s)
               (scheduledExpiration clock options s) None None).
  assert (heap s2 = heap s ++ [nd]) as Hh.
  { apply (Queue_same_store (set_heap (heap s ++ [nd]) s) s2 (l1 ++ l2)).
    - by apply Queue_alloc.
    - done.
    - simpl. rewrite length_app. simpl. lia.
    - intros i. simpl. rewrite Hd2.
      destruct (decide (i < length (heap s))%nat) as [Hi|Hi].
      + rewrite (Hold i Hi). unfold dataOf. by rewrite lookup_app_l.
      + destruct (decide (i = length (heap s))) as [->|Hne].
        * rewrite Hnew. unfold dataOf.
          rewrite lookup_app_r, Nat.sub_diag by lia. done.
        * unfold dataOf.
          rewrite (lookup_ge_None_2 (heap s1)) by lia.
          rewrite (lookup_ge_None_2 (heap s ++ [nd]));
            [done|rewrite length_app; simpl; lia]. }
  split; [done|]. split.
  { rewrite (q_first _ _ _ HQ2). by rewrite (q_first _ _ _ HQ). }
  destruct Hu1 as (_ & Hp1 & Hl1 & Hs1 & _ & _ & _ & _ & tr & Htr & Hhost).
  destruct Hu2 as (_ & Hp2 & Hl2 & Hs2 & _).
  split; [|split_and!; congruence].
  rewrite Ht2. simpl. rewrite Htr, invoked_app.
  by rewrite (invoked_hostEvent tr Hhost).
Qed.

(** X20: unstable_scheduleCallback asks the host for a callback exactly
    when the new node becomes the first node of the queue (the queue was
    empty, or the new node expires strictly before the node that was first)
    and no callback is being executed.  It then calls requestHostCallback
    with the expiration time of the new node, after cancelHostCallback if a
    host callback was already scheduled.  Otherwise it calls neither. *)
Theorem X20_scheduleCallback_requests_host cb options s l s' node :
  Queue s l →
  unstable_scheduleCallback clock cb options s = Some (s', node) →
  let e := scheduledExpiration clock options s in
  let earliest :=
    match l with [] => true | a :: _ => e <? expirationOf (heap s) a end in
  (firstCallbackNode s' = Some node ↔ earliest = true) ∧
  if earliest && negb (isExecutingCallback s)
  then isHostCallbackScheduled s' = true ∧
       trace s' = EvRequestHostCallback e ::
                    (if isHostCallbackScheduled s then [EvCancelHostCallback]
                     else []) ++ trace s
  else isHostCallbackScheduled s' = isHostCallbackScheduled s ∧
       trace s' = trace s.
Proof.
  intros HQ E e earliest.
  destruct (unstable_scheduleCallback_spec clock cb options s l HQ)
    as (s1 & l1 & l2 & E1 & Hl & HQ1 & Hle & Hlt & Hnew & Hlen1 & Hold & _).
  rewrite E in E1. injection E1 as <- ->.
  assert (Hin : ∀ i, i ∈ l → i ≠ length (heap s)).
  { intros i Hi%(Queue_lt _ _ HQ). lia. }
  (* which node is first *)
  assert (Hfirst : firstCallbackNode s' = Some (length (heap s)) ↔ earliest = true).
  { rewrite (q_first _ _ _ HQ1). subst earliest.
    destruct l1 as [|a l1']; simpl in *.
    - subst l2. split; [|done]. intros _.
      destruct l as [|a l']; [done|]. apply Z.ltb_lt. apply Hlt. by left.
    - subst l. split.
      + intros [= ->]. destruct (Hin (length (heap s))); [by left|done].
      + intros H%Z.ltb_lt. specialize (Hle a ltac:(by left)). fold e in Hle. lia. }
  split; [done|].
  (* what was said to the host *)
  rewrite unstable_scheduleCallback_unfold in E. fold e in E.
  set (nd := mkNode cb (currentPriorityLevel s) e None None) in *.
  set (s0 := if negb (currentEventStartTime s =? -1) then s
             else set_clockReads (S (clockReads s)) s) in *.
  assert (Hs0 : heap s0 = heap s ∧ firstCallbackNode s0 = firstCallbackNode s ∧
                isExecutingCallback s0 = isExecutingCallback s ∧
                isHostCallbackScheduled s0 = isHostCallbackScheduled s ∧
                trace s0 = trace s).
  { subst s0. by destruct (negb _). }
  destruct Hs0 as (Hh0 & Hf0 & Hx0 & Hc0 & Ht0).
  simpl in E.
  destruct (insertNode _ true _ _) as [s2|] eqn:Ei; [|done].
  injection E as ->.
  unfold insertNode in Ei. simpl in Ei. rewrite Hf0 in Ei.
  destruct (firstCallbackNode s) as [first|] eqn:Ef.
  - (* the queue was not empty *)
    destruct l as [|a l']; [by rewrite (q_first _ _ _ HQ) in Ef|].
    rewrite (q_first _ _ _ HQ) in Ef. injection Ef as <-.
    destruct (findNode _ _ _ _ _) as [found|]; [|done].
    destruct found as [n|].
    + destruct (Nat.eqb n a) eqn:En.
      * destruct (ensureHostCallbackIsScheduled _) as [s3|] eqn:Ee; [|done].
        pose proof (ensureHostCallbackIsScheduled_inv _ _ Ee) as (_ & Hf3 & _).
        apply ensureHostCallbackIsScheduled_trace in Ee. simpl in Ee, Hf3.
        destruct (linkBefore _ _ _) as [h|]; [|done]. injection Ei as <-.
        simpl in *.
        assert (earliest = true) as -> by (by apply Hfirst).
        rewrite Hx0 in Ee. destruct (isExecutingCallback s); simpl.
        -- subst s3. simpl. done.
        -- destruct Ee as (e' & He' & Hsch & Htr).
           unfold firstExpirationTime in He'. simpl in He'.
           rewrite lookup_app_r, Nat.sub_diag in He' by lia.
           simpl in He'. injection He' as <-.
           rewrite Hc0, Ht0 in Htr. done.
      * destruct (linkBefore _ _ _) as [h|]; [|done]. injection Ei as <-.
        simpl in *.
        assert (earliest = false) as ->.
        { destruct earliest; [|done].
          pose proof (proj2 Hfirst eq_refl) as H. rewrite Hf0 in H.
          injection H as H. destruct (Hin a); [by left|done]. }
        simpl. done.
    + destruct (linkBefore _ _ _) as [h|]; [|done]. injection Ei as <-.
      simpl in *.
      assert (earliest = false) as ->.
      { destruct earliest; [|done].
        pose proof (proj2 Hfirst eq_refl) as H. rewrite Hf0 in H.
        injection H as H. destruct (Hin a); [by left|done]. }
      simpl. done.
  - (* the queue was empty *)
    destruct l as [|a l']; [|by rewrite (q_first _ _ _ HQ) in Ef].
    subst earliest. simpl.
    apply ensureHostCallbackIsScheduled_trace in Ei. simpl in Ei.
    rewrite Hx0 in Ei. destruct (isExecutingCallback s); simpl.
    + subst s'. simpl. done.
    + destruct Ei as (e' & He' & Hsch & Htr).
      unfold firstExpirationTime in He'. simpl in He'.
      unfold selfLink in He'. rewrite list_lookup_alter in He'.
      rewrite lookup_app_r, Nat.sub_diag in He' by lia.
      rewrite decide_True in He' by done.
      simpl in He'. injection He' as <-.
      rewrite Hc0, Ht0 in Htr. done.
Qed.

End ScheduleFacts.

Lemma X19_schedule_cancel_round_trip_witness :
  ∃ s1 s2,
    unstable_scheduleCallback (λ _, 7) Return None initialState = Some (s1, 0%nat) ∧
    unstable_cancelCallback 0 s1 = Some s2 ∧
    Queue s2 [] ∧
    heap s2 = [mkNode Return NormalPriority 5007 None None].
Proof.
  destruct (X19_schedule_cancel_round_trip (λ _, 7) Return None initialState []
              Queue_initial) as (s1 & s2 & E1 & E2 & HQ & Hh & _).
  exists s1, s2. split; [exact E1|]. split; [exact E2|]. split; [exact HQ|].
  exact Hh.
Defined.

Lemma X20_scheduleCallback_requests_host_witness :
  ∃ s',
    unstable_scheduleCallback (λ _, 7) Return None initialState = Some (s', 0%nat) ∧
    firstCallbackNode s' = Some 0%nat ∧
    isHostCallbackScheduled s' = true ∧
    trace s' = [EvRequestHostCallback 5007].
Proof.
  eexists. split; [vm_compute; reflexivity|].
  match goal with
  | |- firstCallbackNode ?s' = _ ∧ _ =>
      pose proof (X20_scheduleCallback_requests_host (λ _, 7) Return None
                    initialState [] s' 0%nat Queue_initial
                    ltac:(vm_compute; reflexivity)) as [H1 H2]
  end.
  split; [by apply H1|]. exact H2.
Defined.

(** ** Pausing the scheduler *)

Lemma UpToPause_refl s l1 p l2 : Pausing s l1 p l2 → UpToPause s l1 p l2 0 s.
Proof.
  intros (HQ & _ & _ & Hp). unfold UpToPause. rewrite drop_0, take_0.
  split; [lia|]. split; [done|]. split; [done|]. split; [done|].
  rewrite Hp. symmetry. apply bool_decide_eq_false. lia.
Qed.

(** Steps that leave the queue, the calls and the pause flag alone. *)
Lemma UpToPause_same s l1 p l2 k s1 s2 :
  UpToPause s l1 p l2 k s1 →
  heap s2 = heap s1 → firstCallbackNode s2 = firstCallbackNode s1 →
  invoked (trace s2) = invoked (trace s1) →
  isSchedulerPaused s2 = isSchedulerPaused s1 →
  UpToPause s l1 p l2 k s2.
Proof.
  intros (Hk & HQ1 & Ht1 & Hd1 & Hp1) Hh Hf Ht Hp.
  unfold UpToPause. split; [done|]. split; [by apply (Queue_ext s1)|].
  split; [congruence|]. split; [intros i; by rewrite Hh|congruence].
Qed.

Lemma UpToPause_start s s0 l1 p l2 k s' :
  UpToPause s0 l1 p l2 k s' →
  heap s0 = heap s → invoked (trace s0) = invoked (trace s) →
  UpToPause s l1 p l2 k s'.
Proof.
  intros (Hk & HQ1 & Ht1 & Hd1 & Hp1) Hh Ht.
  unfold UpToPause. split; [done|]. split; [done|].
  split; [congruence|]. split; [intros i; by rewrite Hd1, Hh|done].
Qed.

Lemma UpToPause_trans s l1 p l2 k s1 j s2 :
  UpToPause s l1 p l2 k s1 → (k ≤ length l1)%nat →
  UpToPause s1 (drop k l1) p l2 j s2 →
  UpToPause s l1 p l2 (k + j) s2.
Proof.
  intros (_ & HQ1 & Ht1 & Hd1 & Hp1) Hk (Hj & HQ2 & Ht2 & Hd2 & Hp2).
  rewrite length_drop in Hj, Hp2.
  assert (drop k l1 ++ p :: l2 = drop k (l1 ++ p :: l2)) as Hdrop
    by (by rewrite drop_app_le).
  rewrite Hdrop in HQ2, Ht2. rewrite drop_drop in HQ2.
  unfold UpToPause. split; [lia|]. split; [done|]. split.
  { rewrite Ht2, Ht1, app_assoc. f_equal.
    rewrite <- rev_app_distr. f_equal. by rewrite take_take_drop. }
  split; [intros i; by rewrite Hd2|].
  rewrite Hp2. apply bool_decide_ext. lia.
Qed.

(** What is left to do after [k] calls that did not reach [p]. *)
Lemma UpToPause_rest s l1 p l2 k s' :
  Pausing s l1 p l2 → UpToPause s l1 p l2 k s' → (k ≤ length l1)%nat →
  Pausing s' (drop k l1) p l2.
Proof.
  intros (HQ & Hret & (pl & e & Hpause) & Hp) (_ & HQ' & _ & Hd & Hp') Hk.
  unfold Pausing. rewrite drop_app_le in HQ' by done.
  split; [done|]. split.
  { intros i Hi. rewrite Hd. apply Hret.
    rewrite <- (take_drop k l1). apply elem_of_app. by right. }
  split; [exists pl, e; by rewrite Hd|].
  rewrite Hp'. apply bool_decide_eq_false. lia.
Qed.

(** After the callback of [p], the queue is [l2] and the scheduler is
    paused. *)
Lemma UpToPause_done s l1 p l2 k s' :
  UpToPause s l1 p l2 k s' → ¬ (k ≤ length l1)%nat →
  k = (length l1 + 1)%nat ∧ Queue s' l2 ∧ isSchedulerPaused s' = true.
Proof.
  intros (Hk & HQ' & _ & _ & Hp') Hn.
  assert (k = (length l1 + 1)%nat) as -> by lia.
  split; [done|]. split.
  - rewrite drop_app_ge in HQ' by lia.
    replace (length l1 + 1 - length l1)%nat with 1%nat in HQ' by lia. done.
  - rewrite Hp'. by apply bool_decide_eq_true.
Qed.

Section PauseFacts.
Variable clock : nat → Z.
Variable hostYield : nat → bool.

(** A callback that calls unstable_pauseExecution and returns. *)
Lemma flushFirstCallback_Pause m s p l2 pl e :
  Queue s (p :: l2) → dataOf (heap s) p = Some (PauseExecution Return, pl, e) →
  ∃ s1, flushFirstCallback (exec clock hostYield (S m)) s = Some (s1, Normal None) ∧
        UpToPause s [] p l2 1 s1.
Proof.
  intros HQ Hd. rewrite flushFirstCallback_unfold.
  destruct (unlinkFirst_spec s p l2 HQ)
    as (nd & s1 & E1 & Hnd & HQ1 & Hlen1 & Hdata1 & Hu & Ht1).
  rewrite E1.
  assert (callback nd = PauseExecution Return) as ->.
  { unfold dataOf in Hd. rewrite Hnd in Hd. simpl in Hd. congruence. }
  rewrite exec_unfold. simpl.
  eexists. split; [done|].
  unfold UpToPause. simpl. rewrite Ht1. split_and!; try done; try lia.
Qed.

(** One iteration of a flushing loop. *)
Lemma flushFirstCallback_UpToPause m s l1 p l2 :
  Pausing s l1 p l2 →
  ∃ s1, flushFirstCallback (exec clock hostYield (S m)) s = Some (s1, Normal None) ∧
        UpToPause s l1 p l2 1 s1.
Proof.
  intros (HQ & Hret & (pl & e & Hpause) & Hp).
  destruct l1 as [|b l1']; simpl in *.
  - by apply (flushFirstCallback_Pause m s p l2 pl e).
  - destruct (Hret b) as (plb & eb & Hb); [by left|].
    destruct (flushFirstCallback_Return clock hostYield m s b (l1' ++ p :: l2)
                plb eb HQ Hb) as (s1 & E & Hk & HQ1 & Ht & Hd & Hp1).
    exists s1. split; [done|]. unfold UpToPause. simpl.
    split; [lia|]. split; [done|]. split; [done|]. split; [done|].
    rewrite Hp1, Hp. symmetry. apply bool_decide_eq_false. lia.
Qed.

Lemma flushUntilYield_pause m p l2 : ∀ budget l1 s,
  Pausing s l1 p l2 → (length l1 + 2 ≤ budget)%nat →
  ∃ s' k,
    flushUntilYield true clock hostYield (S m) budget s = Some (s', Normal None) ∧
    UpToPause s l1 p l2 k s' ∧ (1 ≤ k)%nat ∧
    ((∀ j, hostYield j = false) → k = (length l1 + 1)%nat).
Proof.
  induction budget as [|budget IH]; intros l1 s HP Hlen; [lia|].
  simpl. unfold paused; simpl.
  pose proof HP as (_ & _ & _ & ->).
  destruct (flushFirstCallback_UpToPause m s l1 p l2 HP) as (s1 & -> & HU1).
  pose proof HU1 as (_ & HQ1 & _). rewrite (q_first _ _ _ HQ1).
  destruct (head (drop 1 (l1 ++ p :: l2))) as [c|] eqn:Eh.
  2:{ exists s1, 1%nat. split; [done|]. split; [done|]. split; [lia|].
      intros _. destruct l1 as [|b l1']; [done|].
      simpl in Eh. rewrite drop_0 in Eh. by destruct l1'. }
  unfold shouldYieldToHost. set (s2 := emit _ _).
  assert (UpToPause s l1 p l2 1 s2) as HU2 by (by apply (UpToPause_same _ _ _ _ _ s1)).
  destruct (hostYield (yieldReads s1)) eqn:Ey; simpl.
  { exists s2, 1%nat. split; [done|]. split; [done|]. split; [lia|].
    intros Hy. by rewrite Hy in Ey. }
  destruct (decide (1 ≤ length l1)%nat) as [Hl|Hl].
  - destruct (IH (drop 1 l1) s2) as (s' & k & E & HU & Hk & Hall).
    + by apply (UpToPause_rest s l1 p l2).
    + rewrite length_drop. lia.
    + exists s', (1 + k)%nat. split; [done|]. split.
      * by apply (UpToPause_trans _ _ _ _ _ s2).
      * split; [lia|]. intros Hy. rewrite (Hall Hy), length_drop. lia.
  - destruct (UpToPause_done _ _ _ _ _ _ HU2 Hl) as (Hk & _ & Hp2).
    destruct budget as [|budget']; [lia|]. simpl.
    unfold paused. simpl in Hp2 |- *. rewrite Hp2.
    exists s2, 1%nat. split; [done|]. split; [done|]. split; [lia|]. done.
Qed.

Lemma flushExpired_pause m currentTime p l2 : ∀ budget l1 s,
  Pausing s l1 p l2 → (length l1 + 1 ≤ budget)%nat →
  ∃ s' k,
    flushExpired true clock hostYield (S m) budget currentTime s
      = Some (s', Normal None) ∧
    UpToPause s l1 p l2 k s' ∧ (1 ≤ k)%nat.
Proof.
  induction budget as [|budget IH]; intros l1 s HP Hlen; [lia|].
  simpl.
  destruct (flushFirstCallback_UpToPause m s l1 p l2 HP) as (s1 & -> & HU1).
  destruct (match firstExpirationTime s1 with Some _ => _ | None => _ end) eqn:Ec.
  2:{ exists s1, 1%nat. split; [done|]. split; [done|lia]. }
  destruct (decide (1 ≤ length l1)%nat) as [Hl|Hl].
  - destruct (IH (drop 1 l1) s1) as (s' & k & E & HU & Hk).
    + by apply (UpToPause_rest s l1 p l2).
    + rewrite length_drop. lia.
    + exists s', (1 + k)%nat. split; [done|]. split; [|lia].
      by apply (UpToPause_trans _ _ _ _ _ s1).
  - destruct (UpToPause_done _ _ _ _ _ _ HU1 Hl) as (_ & _ & Hp1).
    unfold paused in Ec. rewrite Hp1 in Ec. simpl in Ec.
    destruct (firstExpirationTime s1); [|done].
    by rewrite andb_false_r in Ec.
Qed.

Lemma flushTimedOut_pause m p l2 : ∀ budget l1 s,
  Pausing s l1 p l2 → (length l1 + 2 ≤ budget)%nat →
  ∃ s' k,
    flushTimedOut true clock hostYield (S m) budget s = Some (s', Normal None) ∧
    UpToPause s l1 p l2 k s'.
Proof.
  induction budget as [|budget IH]; intros l1 s HP Hlen; [lia|].
  simpl. pose proof HP as (HQ & _ & _ & Hp).
  rewrite (q_first _ _ _ HQ).
  destruct (head (l1 ++ p :: l2)) as [b|] eqn:Eh; [|by destruct l1].
  unfold paused; simpl. rewrite Hp.
  set (s1 := set_clockReads _ s).
  assert (Pausing s1 l1 p l2) as HP1 by done.
  assert (UpToPause s l1 p l2 0 s1) as HU1.
  { apply (UpToPause_same _ _ _ _ _ s); try done. by apply UpToPause_refl. }
  assert (b ∈ l1 ++ p :: l2) as Hb by (by apply head_Some_elem_of).
  rewrite (firstExpirationTime_Some s1 b).
  2:{ simpl. by rewrite (q_first _ _ _ HQ). }
  2:{ by apply (Queue_lt s _ HQ). }
  destruct (_ <=? _).
  2:{ exists s1, 0%nat. done. }
  destruct (flushExpired_pause m (clock (clockReads s)) p l2 budget l1 s1 HP1)
    as (s2 & k & -> & HU2 & Hk); [lia|].
  destruct (decide (k ≤ length l1)%nat) as [Hl|Hl].
  - destruct (IH (drop k l1) s2) as (s' & j & E & HU).
    + by apply (UpToPause_rest s1 l1 p l2).
    + rewrite length_drop. lia.
    + exists s', (k + j)%nat. split; [done|].
      apply (UpToPause_start s s1); [|done|done].
      by apply (UpToPause_trans _ _ _ _ _ s2).
  - destruct (UpToPause_done _ _ _ _ _ _ HU2 Hl) as (_ & _ & Hp2).
    destruct budget as [|budget']; [lia|]. simpl.
    unfold paused. rewrite Hp2. simpl.
    exists s2, k. split; [by destruct (firstCallbackNode s2)|].
    by apply (UpToPause_start s s1).
Qed.

Lemma flushImmediateLoop_pause m p l2 : ∀ budget l1 s,
  Pausing s l1 p l2 →
  (∀ b, head l2 = Some b → priorityOf (heap s) b ≠ ImmediatePriority) →
  (length l1 + 1 ≤ budget)%nat →
  ∃ s' k,
    flushImmediateLoop (exec clock hostYield (S m)) budget s
      = Some (s', Normal None) ∧
    UpToPause s l1 p l2 k s' ∧ (1 ≤ k)%nat.
Proof.
  induction budget as [|budget IH]; intros l1 s HP Hnot Hlen; [lia|].
  simpl.
  destruct (flushFirstCallback_UpToPause m s l1 p l2 HP) as (s1 & -> & HU1).
  destruct (firstIsImmediate s1) eqn:Ei.
  2:{ exists s1, 1%nat. split; [done|]. split; [done|lia]. }
  pose proof HU1 as (_ & _ & _ & Hd1 & _).
  destruct (decide (1 ≤ length l1)%nat) as [Hl|Hl].
  - destruct (IH (drop 1 l1) s1) as (s' & k & E & HU & Hk).
    + by apply (UpToPause_rest s l1 p l2).
    + intros b Hb. rewrite (priorityOf_data (heap s)); [by apply Hnot|done].
    + rewrite length_drop. lia.
    + exists s', (1 + k)%nat. split; [done|]. split; [|lia].
      by apply (UpToPause_trans _ _ _ _ _ s1).
  - destruct (UpToPause_done _ _ _ _ _ _ HU1 Hl) as (_ & HQ1 & _).
    unfold firstIsImmediate, firstPriorityLevel in Ei.
    rewrite (q_first _ _ _ HQ1) in Ei.
    destruct l2 as [|b l2']; [done|]. simpl in Ei.
    destruct (heap s1 !! b) as [nd|] eqn:Enb; [|done]. simpl in Ei.
    apply Z.eqb_eq in Ei. destruct (Hnot b eq_refl).
    rewrite <- (priorityOf_data _ (heap s1) b (Hd1 b)).
    unfold priorityOf. by rewrite Enb.
Qed.

Lemma UpToPause_afterFlush s l1 p l2 k s1 s1' s2 :
  UpToPause s l1 p l2 k s1 →
  heap s1' = heap s1 → firstCallbackNode s1' = firstCallbackNode s1 →
  trace s1' = trace s1 → isSchedulerPaused s1' = isSchedulerPaused s1 →
  afterFlush s1' = Some s2 →
  UpToPause s l1 p l2 k s2.
Proof.
  intros HU Hh Hf Ht Hp E. apply afterFlush_inv in E as (Hh2 & Hf2 & Hu).
  destruct Hu as (_&Hp2&_&_&_&_&_&_&tr&Ht2&Htr).
  apply (UpToPause_same _ _ _ _ _ s1); try congruence.
  rewrite Ht2, invoked_app, (invoked_hostEvent _ Htr), Ht. done.
Qed.

(** X21: unstable_pauseExecution called by a callback stops flushWork after
    that callback (with enableSchedulerDebugging).  If the callbacks queued
    before the pausing one return without calling the scheduler, and the
    node behind the pausing one is not of Immediate priority, flushWork
    calls the callbacks of the first k nodes in the order of the queue and
    none behind the pausing one; the others stay queued in their order.
    It leaves the scheduler paused exactly when it got as far as the
    pausing callback, which it does when there is no timeout and the host
    never asks to yield.  While paused, flushWork returns at once without
    changing anything, and unstable_continueExecution lifts the pause and,
    if nodes are queued, calls requestHostCallback with the expiration time
    of the first one. *)
Theorem X21_pause_stops_flushWork n didTimeout s l1 p l2 :
  Queue s (l1 ++ p :: l2) →
  (∀ i, i ∈ l1 → ∃ pl e, dataOf (heap s) i = Some (Return, pl, e)) →
  (∃ pl e, dataOf (heap s) p = Some (PauseExecution Return, pl, e)) →
  isSchedulerPaused s = false →
  (∀ b, head l2 = Some b → priorityOf (heap s) b ≠ ImmediatePriority) →
  (length l1 + 2 ≤ n)%nat →
  ∃ s' k,
    flushWork true clock hostYield n didTimeout s = Some (s', Normal None) ∧
    (k ≤ length l1 + 1)%nat ∧
    invoked (trace s') = rev (take k (l1 ++ p :: l2)) ++ invoked (trace s) ∧
    Queue s' (drop k (l1 ++ p :: l2)) ∧
    (isSchedulerPaused s' = true ↔ k = (length l1 + 1)%nat) ∧
    (didTimeout = false → (∀ j, hostYield j = false) → k = (length l1 + 1)%nat) ∧
    (isSchedulerPaused s' = true →
     (∀ n' d, flushWork true clock hostYield n' d s' = Some (s', Normal None)) ∧
     ∃ s'',
       unstable_continueExecution s' = Some s'' ∧
       isSchedulerPaused s'' = false ∧ Queue s'' l2 ∧
       (l2 ≠ [] →
        ∃ e tr, firstExpirationTime s'' = Some e ∧
                trace s'' = EvRequestHostCallback e :: tr)).
Proof.
  intros HQ Hret Hpause Hp Hnot Hn. destruct n as [|m]; [lia|].
  assert (Pausing s l1 p l2) as HP by done.
  unfold flushWork. unfold paused; simpl; rewrite Hp.
  set (s0 := set_currentDidTimeout didTimeout (set_isExecutingCallback true s)).
  assert (Pausing s0 l1 p l2) as HP0 by done.
  (* the try block *)
  assert (∃ s1 k1,
            flushWorkTry true clock hostYield (S m) didTimeout s0
              = Some (s1, Normal None) ∧
            UpToPause s0 l1 p l2 k1 s1 ∧
            (didTimeout = false → (∀ j, hostYield j = false) →
             k1 = (length l1 + 1)%nat))
    as (s1 & k1 & -> & HU1 & Hall1).
  { unfold flushWorkTry. destruct didTimeout.
    - destruct (flushTimedOut_pause m p l2 (S m) l1 s0 HP0) as (s1 & k1 & E & HU);
        [lia|].
      exists s1, k1. by split_and!.
    - assert (firstCallbackNode s0 = head (l1 ++ p :: l2)) as ->
        by apply (q_first _ _ _ HQ).
      destruct (head (l1 ++ p :: l2)) eqn:Eh; [|by destruct l1].
      destruct (flushUntilYield_pause m p l2 (S m) l1 s0 HP0)
        as (s1 & k1 & E & HU & Hk & Hall); [lia|].
      exists s1, k1. by split_and!. }
  (* the finally block *)
  unfold flushWorkFinally.
  set (s1' := set_currentDidTimeout _ (set_isExecutingCallback false s1)).
  pose proof HU1 as (Hk1l & HQ1 & _).
  destruct (afterFlush_total s1' _ ltac:(by apply (Queue_ext s1); [exact HQ1| |]))
    as (s2 & E2 & Hh2 & Hf2 & Hu2).
  rewrite E2.
  assert (UpToPause s0 l1 p l2 k1 s2) as HU2
    by (by apply (UpToPause_afterFlush _ _ _ _ _ s1 s1')).
  assert (isExecutingCallback s2 = false) as Hx2.
  { destruct Hu2 as (_&_&_&_&_&Hx&_). by rewrite Hx. }
  (* what holds of the final state *)
  assert (∀ s' k, UpToPause s0 l1 p l2 k s' → isExecutingCallback s' = false →
            (k1 ≤ k)%nat →
            (k ≤ length l1 + 1)%nat ∧
            invoked (trace s') = rev (take k (l1 ++ p :: l2)) ++ invoked (trace s) ∧
            Queue s' (drop k (l1 ++ p :: l2)) ∧
            (isSchedulerPaused s' = true ↔ k = (length l1 + 1)%nat) ∧
            (didTimeout = false → (∀ j, hostYield j = false) →
             k = (length l1 + 1)%nat) ∧
            (isSchedulerPaused s' = true →
             (∀ n' d, flushWork true clock hostYield n' d s'
                      = Some (s', Normal None)) ∧
             ∃ s'',
               unstable_continueExecution s' = Some s'' ∧
               isSchedulerPaused s'' = false ∧ Queue s'' l2 ∧
               (l2 ≠ [] →
                ∃ e tr, firstExpirationTime s'' = Some e ∧
                        trace s'' = EvRequestHostCallback e :: tr))) as Hfin.
  { intros s' k HU Hx Hkk. pose proof HU as (Hk & HQ' & Ht' & Hd' & Hp').
    split; [done|]. split; [done|]. split; [done|].
    split; [rewrite Hp'; apply bool_decide_eq_true|].
    split; [intros Hd Hy; specialize (Hall1 Hd Hy); lia|].
    intros Hps. rewrite Hp' in Hps. apply bool_decide_eq_true in Hps.
    destruct (UpToPause_done _ _ _ _ _ _ HU ltac:(lia)) as (_ & HQ2' & Hp2').
    split.
    { intros n' d. unfold flushWork, paused. by rewrite Hp2'. }
    unfold unstable_continueExecution. simpl.
    rewrite (q_first _ _ _ HQ2').
    destruct l2 as [|b l2']; simpl.
    { eexists. split; [done|]. split; [done|]. split; [|done].
      by apply (Queue_ext s'). }
    destruct (ensureHostCallbackIsScheduled (set_isSchedulerPaused false s'))
      as [s''|] eqn:Ee.
    2:{ unfold ensureHostCallbackIsScheduled in Ee. simpl in Ee.
        rewrite Hx in Ee.
        rewrite (firstExpirationTime_Some _ b) in Ee; [done| |].
        - simpl. by rewrite (q_first _ _ _ HQ2').
        - simpl. apply (Queue_lt s' _ HQ2'). by left. }
    pose proof (ensureHostCallbackIsScheduled_inv _ _ Ee) as (Hh'' & Hf'' & Hu'').
    exists s''. split; [done|].
    split. { destruct Hu'' as (_ & -> & _). done. }
    split. { apply (Queue_ext s'); [done|done|done]. }
    intros _. unfold ensureHostCallbackIsScheduled in Ee. simpl in Ee.
    rewrite Hx in Ee. destruct (firstExpirationTime _) as [e|] eqn:Efe; [|done].
    injection Ee as <-. exists e. eexists. split; [|done].
    unfold firstExpirationTime in *. simpl in *.
    by destruct (negb (isHostCallbackScheduled s')). }
  unfold flushImmediateWork.
  destruct (_ && firstIsImmediate s2) eqn:Ei.
  - (* immediate work *)
    apply andb_true_iff in Ei as [_ Ei].
    destruct (decide (k1 ≤ length l1)%nat) as [Hl|Hl].
    + pose proof (UpToPause_rest s0 l1 p l2 k1 s2 HP0 HU2 Hl) as HP2.
      destruct (flushImmediateLoop_pause m p l2 (S m) (drop k1 l1)
                  (set_isExecutingCallback true s2))
        as (s3 & k2 & -> & HU3 & Hk2).
      * done.
      * intros b Hb. simpl. destruct HU2 as (_ & _ & _ & Hd2 & _).
        rewrite (priorityOf_data (heap s0)); [by apply Hnot|done].
      * rewrite length_drop. lia.
      * pose proof HU3 as (_ & HQ3 & _).
        destruct (afterFlush_total (set_isExecutingCallback false s3) _
                    ltac:(by apply (Queue_ext s3); [exact HQ3| |]))
          as (s4 & E4 & _ & _ & Hu4).
        rewrite E4.
        assert (UpToPause s0 l1 p l2 (k1 + k2) s4) as HU4.
        { apply (UpToPause_trans _ _ _ _ _ (set_isExecutingCallback true s2));
            [by apply (UpToPause_same _ _ _ _ _ s2)|done|].
          by apply (UpToPause_afterFlush _ _ _ _ _ s3
                      (set_isExecutingCallback false s3)). }
        exists s4, (k1 + k2)%nat. split; [done|].
        apply Hfin; [done| |lia].
        destruct Hu4 as (_&_&_&_&_&Hx&_). by rewrite Hx.
    + destruct (UpToPause_done _ _ _ _ _ _ HU2 Hl) as (_ & HQ2 & _).
      destruct HU2 as (_ & _ & _ & Hd2 & _).
      unfold firstIsImmediate, firstPriorityLevel in Ei.
      rewrite (q_first _ _ _ HQ2) in Ei.
      destruct l2 as [|b l2']; [done|]. simpl in Ei.
      destruct (heap s2 !! b) as [nd|] eqn:Enb; [|done]. simpl in Ei.
      apply Z.eqb_eq in Ei. destruct (Hnot b eq_refl).
      change (heap s) with (heap s0).
      rewrite <- (priorityOf_data _ (heap s2) b (Hd2 b)).
      unfold priorityOf. by rewrite Enb.
  - exists s2, k1. split; [done|]. by apply Hfin.
Qed.

End PauseFacts.

Lemma X21_pause_stops_flushWork_witness :
  ∃ s,
    exec (λ _, 0) (λ _, false) 1
      (ScheduleCallback Return (Some 10) (λ _,
       ScheduleCallback (PauseExecution Return) (Some 20) (λ _,
       ScheduleCallback Throw (Some 30) (λ _, Return))))
      initialState = Some (s, Normal None) ∧
    ∃ s',
      flushWork true (λ _, 0) (λ _, false) 3 false s = Some (s', Normal None) ∧
      invoked (trace s') = [1; 0]%nat ∧ Queue s' [2%nat] ∧
      isSchedulerPaused s' = true.
Proof.
  eexists. split; [vm_compute; reflexivity|].
  match goal with
  | |- ∃ s', flushWork _ _ _ _ _ ?s = _ ∧ _ =>
      assert (Queue s ([0%nat] ++ 1%nat :: [2%nat])) as HQ
        by (apply Queue_checked; vm_compute; reflexivity);
      destruct (X21_pause_stops_flushWork (λ _, 0) (λ _, false) 3 false s
                  [0%nat] 1%nat [2%nat] HQ)
        as (s' & k & E & Hk & Ht & HQ' & Hp & Hall & _)
  end.
  - intros i Hi. apply list_elem_of_singleton in Hi as ->.
    exists 3, 10. vm_compute. reflexivity.
  - exists 3, 20. vm_compute. reflexivity.
  - reflexivity.
  - intros b [= <-]. vm_compute. discriminate.
  - simpl. lia.
  - assert (k = 2%nat) as -> by (by apply Hall).
    exists s'. split; [exact E|]. split; [exact Ht|]. split; [exact HQ'|].
    by apply Hp.
Defined.
